(** * numba: the parallel-vectorize work queue and the hash-caching wrapper

    A shallow embedding of [numba/npyufunc/workqueue.c] and
    [numba/_hashwrap.c], and the properties of the dispatcher protocol
    proved over it.

    Conventions of the embedding.
    - A C [int] is a [Z]; where the code can overflow, the two's-complement
      wrap-around is written out ([wrap_int]).
    - A pointer returned by [malloc] is a block identifier ([N]); [NULL] is
      [None].  The heap maps the live blocks to their contents.
    - A step that C leaves undefined and that traps on the supported
      platforms (a store or a call through [NULL], an access outside a live
      block) is the outcome [Fault]: the process is gone.
    - Threads interleave at the granularity of one iteration of the
      [cas_wait] loop (one compare-and-swap attempt followed by the nap),
      under sequential consistency.
    - The kernels are opaque: a call of a task function is an event of the
      trace; it returns and leaves the memory of the dispatcher alone.
    - Of the two thread back ends the pthread one is embedded. *)

From Stdlib Require Import ZArith List Lia Bool.
From stdpp Require Import base option list gmap.

Local Open Scope Z_scope.

(** ** Outcomes of fallible code *)

Inductive outcome (A : Type) : Type :=
| Ok (a : A)
| Fault.
Arguments Ok {A} a.
Arguments Fault {A}.

(** ** Machine integers *)

Definition INT_MAX : Z := 2147483647.

(** Two's-complement reduction of a mathematical integer to a C [int]. *)
Definition wrap_int (z : Z) : Z := (z + 2 ^ 31) mod 2 ^ 32 - 2 ^ 31.

Module WorkQueue.

(** ** The four states of a queue *)

(** Modelled from the spec: the enumeration [IDLE, READY, RUNNING, DONE] of
    [workqueue.h], which is not among the sources at hand.  The spec fixes
    [Idle] as the zero pattern (the slots are zero-initialised to Idle); the
    other three follow in the order of its transition table. *)
Definition IDLE : Z := 0.
(** Modelled from the spec: see [IDLE]. *)
Definition READY : Z := 1.
(** Modelled from the spec: see [IDLE]. *)
Definition RUNNING : Z := 2.
(** Modelled from the spec: see [IDLE]. *)
Definition DONE : Z := 3.

(** Modelled from the spec: [cas_function_t], an atomic compare-and-exchange
    over a native integer.  The provider is applied to the content of the
    cell it is pointed at, the expected value and the replacement; it
    yields the new content of the cell and its return value. *)
Definition cas_function_t : Type := Z -> Z -> Z -> Z * Z.

(** A valid provider swaps exactly when the cell holds the expected value
    and always returns what the cell held. *)
Definition cas_valid (f : cas_function_t) : Prop :=
  forall cell old repl,
    f cell old repl = (if cell =? old then repl else cell, cell).

(** The canonical compare-and-swap. *)
Definition cmpxchg : cas_function_t :=
  fun cell old repl => (if cell =? old then repl else cell, cell).

(** ** [cas_wait] *)

Definition MAX_WAIT_TIME : Z := 20 * 1000.

(** [timeout <<= 1; if (timeout >= MAX_WAIT_TIME) timeout = MAX_WAIT_TIME;] *)
Definition backoff (timeout : Z) : Z :=
  let t := wrap_int (Z.shiftl timeout 1) in
  if t >=? MAX_WAIT_TIME then MAX_WAIT_TIME else t.

(** One iteration of the [while (1)] loop of [cas_wait], seen from the cell
    [ptr] points at: either the call returns, or it naps for [usec]
    ([take_a_nap(timeout)], that is [usleep] in the pthread build) and goes
    round again with the next timeout. *)
Inductive wait : Type :=
| Acquired (cell : Z)
| Napped (cell : Z) (usec : Z) (timeout : Z).

Definition cas_wait_iter (cas : option cas_function_t)
    (old repl : Z) (cell timeout : Z) : wait :=
  match cas with
  | Some f =>
      let '(cell', out) := f cell old repl in
      if out =? old then Acquired cell'
      else Napped cell' timeout (backoff timeout)
  | None => Napped cell timeout (backoff timeout)
  end.

(** What a bounded observer sees of one call of [cas_wait]. *)
Record wait_run : Type := mkWaitRun {
  wr_cell : Z;            (* the content of the cell at the end *)
  wr_naps : list Z;       (* the naps taken, oldest first *)
  wr_returned : bool      (* whether the call has returned *)
}.

(** The [while (1)] loop of [cas_wait] observed for [n] iterations, from
    iteration number [it] on.  [env it] is what the other threads do to
    the cell during the nap of iteration [it]. *)
Fixpoint cas_wait_loop (n : nat) (cas : option cas_function_t)
    (env : nat -> Z -> Z) (old repl : Z)
    (it : nat) (cell timeout : Z) : wait_run :=
  match n with
  | O => mkWaitRun cell [] false
  | S n' =>
      match cas_wait_iter cas old repl cell timeout with
      | Acquired cell' => mkWaitRun cell' [] true
      | Napped cell' usec timeout' =>
          let r := cas_wait_loop n' cas env old repl (S it) (env it cell') timeout' in
          mkWaitRun (wr_cell r) (usec :: wr_naps r) (wr_returned r)
      end
  end.

(** [cas_wait(ptr, old, repl)] observed for [n] iterations: the loop is
    entered with [timeout = 1]. *)
Definition cas_wait (n : nat) (cas : option cas_function_t)
    (env : nat -> Z -> Z) (old repl : Z) (cell : Z) : wait_run :=
  cas_wait_loop n cas env old repl 0 cell 1.

(** The environment in which no other thread touches the cell. *)
Definition quiet : nat -> Z -> Z := fun _ cell => cell.

(** The cell after the other threads' writes of iterations [it .. it+n-1]. *)
Fixpoint env_only (n : nat) (env : nat -> Z -> Z) (it : nat) (cell : Z) : Z :=
  match n with
  | O => cell
  | S n' => env_only n' env (S it) (env it cell)
  end.

(** The nap of the [i]-th failed attempt, counted from 0. *)
Definition nap_schedule (i : nat) : Z := Z.min (2 ^ Z.of_nat i) MAX_WAIT_TIME.

(** ** Tasks, queues and the process-wide state *)

Record Task : Type := mkTask {
  func : Z;      (* the address of the kernel; 0 is NULL *)
  args : Z;
  dims : Z;
  steps : Z;
  data : Z
}.

Record Queue : Type := mkQueue {
  lock : Z;
  task : Task
}.

(** What [memset(queues, 0, sz)] leaves in every slot. *)
Definition zero_Task : Task := mkTask 0 0 0 0 0.
Definition zero_Queue : Queue := mkQueue 0 zero_Task.

Definition set_lock (q : Queue) (l : Z) : Queue := mkQueue l (task q).
Definition set_task (q : Queue) (t : Task) : Queue := mkQueue (lock q) t.

(** Where a worker thread stands in [thread_worker]. *)
Inductive pc : Type :=
| AwaitReady (timeout : Z)   (* in cas_wait(&queue->lock, READY, RUNNING) *)
| Invoke                     (* about to call task->func(...) *)
| AwaitDone (timeout : Z).   (* in cas_wait(&queue->lock, RUNNING, DONE) *)

(** A worker thread: its argument [&queues[th_index]] inside block
    [th_block], and its program point. *)
Record thread : Type := mkThread {
  th_block : N;
  th_index : Z;
  th_pc : pc
}.

(** The statics of the module, the heap they point into, the threads
    created so far, and the observable trace: every invocation of a task
    function, tagged with the index of the slot of the worker that made
    it. *)
Record proc : Type := mkProc {
  cas : option cas_function_t;
  heap : gmap N (list Queue);
  queues : option N;
  queue_count : Z;
  queue_pivot : Z;
  threads : list thread;
  atfork : nat;                     (* child handlers registered by pthread_atfork *)
  calls : list (Z * Task)
}.

Definition initial : proc := mkProc None ∅ None 0 0 [] O [].

Definition set_heap (h : gmap N (list Queue)) (p : proc) : proc :=
  mkProc (cas p) h (queues p) (queue_count p) (queue_pivot p)
         (threads p) (atfork p) (calls p).
Definition set_queues (q : option N) (p : proc) : proc :=
  mkProc (cas p) (heap p) q (queue_count p) (queue_pivot p)
         (threads p) (atfork p) (calls p).
Definition set_queue_count (c : Z) (p : proc) : proc :=
  mkProc (cas p) (heap p) (queues p) c (queue_pivot p)
         (threads p) (atfork p) (calls p).
Definition set_queue_pivot (v : Z) (p : proc) : proc :=
  mkProc (cas p) (heap p) (queues p) (queue_count p) v
         (threads p) (atfork p) (calls p).
Definition set_threads (ths : list thread) (p : proc) : proc :=
  mkProc (cas p) (heap p) (queues p) (queue_count p) (queue_pivot p)
         ths (atfork p) (calls p).
Definition set_atfork (n : nat) (p : proc) : proc :=
  mkProc (cas p) (heap p) (queues p) (queue_count p) (queue_pivot p)
         (threads p) n (calls p).
Definition set_calls (cs : list (Z * Task)) (p : proc) : proc :=
  mkProc (cas p) (heap p) (queues p) (queue_count p) (queue_pivot p)
         (threads p) (atfork p) cs.

(** [static void set_cas(void *ptr) { cas = ptr; }] *)
Definition set_cas (ptr : option cas_function_t) (p : proc) : proc :=
  mkProc ptr (heap p) (queues p) (queue_count p) (queue_pivot p)
         (threads p) (atfork p) (calls p).

(** ** Memory accesses *)

(** Reading [base[i]] where [base] points at the start of a block: the
    block, its content and the element. *)
Definition deref (p : proc) (base : option N) (i : Z)
  : outcome (N * list Queue * Queue) :=
  match base with
  | None => Fault
  | Some b =>
      match heap p !! b with
      | None => Fault
      | Some qs =>
          if 0 <=? i then
            match qs !! Z.to_nat i with
            | Some q => Ok (b, qs, q)
            | None => Fault
            end
          else Fault
      end
  end.

(** Writing [q] back at [base[i]]. *)
Definition put (b : N) (qs : list Queue) (i : Z) (q : Queue) (p : proc) : proc :=
  set_heap (<[b := <[Z.to_nat i := q]> qs]> (heap p)) p.

(** One iteration of [cas_wait(&base[i].lock, old, repl)] in the process:
    the state afterwards and [None] when the call returns, [Some timeout']
    when it napped.  Without a provider the cell is not even read. *)
Definition cas_wait_at (p : proc) (base : option N) (i : Z)
    (old repl timeout : Z) : outcome (proc * option Z) :=
  match cas p with
  | None => Ok (p, Some (backoff timeout))
  | Some f =>
      match deref p base i with
      | Fault => Fault
      | Ok (b, qs, q) =>
          match cas_wait_iter (Some f) old repl (lock q) timeout with
          | Acquired cell' => Ok (put b qs i (set_lock q cell') p, None)
          | Napped cell' _ timeout' =>
              Ok (put b qs i (set_lock q cell') p, Some timeout')
          end
      end
  end.

(** ** [add_task] *)

Definition add_task (t : Task) (p : proc) : outcome proc :=
  match deref p (queues p) (queue_pivot p) with
  | Fault => Fault
  | Ok (b, qs, q) =>
      let p1 := put b qs (queue_pivot p) (set_task q t) p in
      let pivot := wrap_int (queue_pivot p + 1) in
      Ok (set_queue_pivot (if pivot =? queue_count p then 0 else pivot) p1)
  end.

(** A run of consecutive [add_task] calls. *)
Fixpoint add_tasks (ts : list Task) (p : proc) : outcome proc :=
  match ts with
  | [] => Ok p
  | t :: ts' =>
      match add_task t p with
      | Fault => Fault
      | Ok p' => add_tasks ts' p'
      end
  end.

(** ** [launch_threads] *)

(** The LP64 layout of [Queue]: an [int], padding, five pointers; [size_t]
    is 64 bits wide. *)
Definition SIZEOF_QUEUE : Z := 48.
Definition wrap_size (z : Z) : Z := z mod 2 ^ 64.

(** [numba_new_thread(thread_worker, &queues[i])] (pthread build): the fork
    handler is registered, and when [pthread_create] succeeds a detached
    thread starts at the top of [thread_worker].  The return value is
    dropped by the caller. *)
Definition numba_new_thread (created : bool) (base : N) (i : Z) (p : proc) : proc :=
  let p1 := set_atfork (S (atfork p)) p in
  if created then set_threads (threads p1 ++ [mkThread base i (AwaitReady 1)]) p1
  else p1.

(** [for (i = ...; i < count; ++i) numba_new_thread(thread_worker, &queues[i]);]
    [n] bounds the iterations left; [spawn i] tells whether [pthread_create]
    succeeds for slot [i]. *)
Fixpoint spawn_loop (n : nat) (spawn : Z -> bool) (base : N) (i : Z) (p : proc) : proc :=
  match n with
  | O => p
  | S n' => spawn_loop n' spawn base (i + 1) (numba_new_thread (spawn i) base i p)
  end.

(** [launch_threads(count)].  [alloc] is what [malloc(sz)] returns. *)
Definition launch_threads (alloc : option N) (spawn : Z -> bool)
    (count : Z) (p : proc) : outcome proc :=
  match queues p with
  | Some _ => Ok p
  | None =>
      let sz := wrap_size (SIZEOF_QUEUE * count) in
      match alloc with
      | None =>
          (* memset(NULL, 0, sz) *)
          if sz =? 0 then Ok (set_queue_count count p) else Fault
      | Some b =>
          let qs := replicate (Z.to_nat (sz / SIZEOF_QUEUE)) zero_Queue in
          let p1 := set_queue_count count (set_queues (Some b) (set_heap (<[b := qs]> (heap p)) p)) in
          Ok (spawn_loop (Z.to_nat count) spawn b 0 p1)
      end
  end.

(** ** [reset_after_fork] *)

(** [free(ptr)]: nothing for [NULL], the block leaves the heap otherwise;
    freeing a block that is not live is undefined. *)
Definition free (ptr : option N) (p : proc) : outcome proc :=
  match ptr with
  | None => Ok p
  | Some b =>
      match heap p !! b with
      | None => Fault
      | Some _ => Ok (set_heap (delete b (heap p)) p)
      end
  end.

Definition reset_after_fork (p : proc) : outcome proc :=
  match free (queues p) p with
  | Fault => Fault
  | Ok p' => Ok (set_queues None p')
  end.

(** The child of a [fork]: a copy of the memory, none of the worker threads,
    and every registered child handler run once. *)
Fixpoint run_atfork (n : nat) (p : proc) : outcome proc :=
  match n with
  | O => Ok p
  | S n' =>
      match reset_after_fork p with
      | Fault => Fault
      | Ok p' => run_atfork n' p'
      end
  end.

Definition fork_child (p : proc) : outcome proc :=
  run_atfork (atfork p) (set_threads [] p).

(** ** The driver and the workers, interleaved *)

(** The calls a driver makes during a round. *)
Inductive op : Type :=
| OpAddTask (t : Task)
| OpReady
| OpSynchronize.

(** Where the driver stands: between two calls, or inside the loop of
    [ready] or [synchronize] at index [i], in a [cas_wait] whose timeout is
    [timeout]. *)
Inductive dpc : Type :=
| Between
| InReady (i : Z) (timeout : Z)
| InSynchronize (i : Z) (timeout : Z).

Record machine : Type := mkMachine {
  m_proc : proc;
  m_prog : list op;       (* the calls the driver has still to make *)
  m_pc : dpc;
  m_fault : bool
}.

Definition crash (m : machine) : machine :=
  mkMachine (m_proc m) (m_prog m) (m_pc m) true.

(** One step of the body of [ready] ([old = IDLE], [repl = READY]) or of
    [synchronize] ([old = DONE], [repl = IDLE]) at index [i]. *)
Definition barrier_step (mk : Z -> Z -> dpc) (old repl : Z)
    (i timeout : Z) (m : machine) : machine :=
  let p := m_proc m in
  if i <? queue_count p then
    match cas_wait_at p (queues p) i old repl timeout with
    | Fault => crash m
    | Ok (p', Some timeout') => mkMachine p' (m_prog m) (mk i timeout') false
    | Ok (p', None) => mkMachine p' (m_prog m) (mk (wrap_int (i + 1)) 1) false
    end
  else mkMachine p (m_prog m) Between false.

Definition driver_step (m : machine) : machine :=
  match m_pc m with
  | Between =>
      match m_prog m with
      | [] => m
      | OpAddTask t :: rest =>
          match add_task t (m_proc m) with
          | Fault => crash m
          | Ok p' => mkMachine p' rest Between false
          end
      | OpReady :: rest => mkMachine (m_proc m) rest (InReady 0 1) false
      | OpSynchronize :: rest => mkMachine (m_proc m) rest (InSynchronize 0 1) false
      end
  | InReady i timeout => barrier_step InReady IDLE READY i timeout m
  | InSynchronize i timeout => barrier_step InSynchronize DONE IDLE i timeout m
  end.

Definition set_pc (tid : nat) (th : thread) (c : pc) (p : proc) : proc :=
  set_threads (<[tid := mkThread (th_block th) (th_index th) c]> (threads p)) p.

(** One step of the loop of [thread_worker] for the thread [tid]. *)
Definition worker_step (tid : nat) (m : machine) : machine :=
  let p := m_proc m in
  match threads p !! tid with
  | None => m
  | Some th =>
      match th_pc th with
      | AwaitReady timeout =>
          match cas_wait_at p (Some (th_block th)) (th_index th) READY RUNNING timeout with
          | Fault => crash m
          | Ok (p', Some timeout') =>
              mkMachine (set_pc tid th (AwaitReady timeout') p') (m_prog m) (m_pc m) false
          | Ok (p', None) =>
              mkMachine (set_pc tid th Invoke p') (m_prog m) (m_pc m) false
          end
      | Invoke =>
          match deref p (Some (th_block th)) (th_index th) with
          | Fault => crash m
          | Ok (_, _, q) =>
              if func (task q) =? 0 then crash m
              else
                mkMachine
                  (set_pc tid th (AwaitDone 1)
                     (set_calls (calls p ++ [(th_index th, task q)]) p))
                  (m_prog m) (m_pc m) false
          end
      | AwaitDone timeout =>
          match cas_wait_at p (Some (th_block th)) (th_index th) RUNNING DONE timeout with
          | Fault => crash m
          | Ok (p', Some timeout') =>
              mkMachine (set_pc tid th (AwaitDone timeout') p') (m_prog m) (m_pc m) false
          | Ok (p', None) =>
              mkMachine (set_pc tid th (AwaitReady 1) p') (m_prog m) (m_pc m) false
          end
      end
  end.

(** A scheduler picks the driver ([0]) or the worker thread [tid]
    ([S tid]); a faulted process takes no step. *)
Definition step (who : nat) (m : machine) : machine :=
  if m_fault m then m
  else
    match who with
    | O => driver_step m
    | S tid => worker_step tid m
    end.

Fixpoint run (sched : list nat) (m : machine) : machine :=
  match sched with
  | [] => m
  | who :: sched' => run sched' (step who m)
  end.

(** The driver has returned from its last call. *)
Definition returned (m : machine) : bool :=
  negb (m_fault m) &&
  match m_pc m, m_prog m with
  | Between, [] => true
  | _, _ => false
  end.

(** The driver's program for one round. *)
Definition round (ts : list Task) : list op :=
  map OpAddTask ts ++ [OpReady; OpSynchronize].

(** The invocations made by the worker of slot [j], oldest first. *)
Definition calls_of (j : Z) (cs : list (Z * Task)) : list Task :=
  map snd (List.filter (fun c => fst c =? j) cs).

(** The content of the slot array, when the pool exists. *)
Definition slots (p : proc) : list Queue :=
  match queues p with
  | None => []
  | Some b => default [] (heap p !! b)
  end.

(** ** [take_a_nap] *)

(** The pthread build: [usleep(usec)], a nap of [usec] microseconds. *)
Definition take_a_nap (usec : Z) : Z := usec.

(** The Windows build: [Sleep(usec / 1000)], a nap in milliseconds; the
    division of C truncates. *)
Definition take_a_nap_win (usec : Z) : Z := Z.quot usec 1000.

(** ** [bench_cas_wait] *)

(** What a bounded observer sees of the benchmark: the content of [dummy],
    the naps taken, and whether the loop has run to its end. *)
Record bench_run : Type := mkBenchRun {
  b_dummy : Z;
  b_naps : list Z;
  b_done : bool
}.

(** [for (...; i < n; i++) cas_wait(&dummy, dummy, dummy ^ 1);] with [k]
    iterations left.  Nobody else writes [dummy]; each call of [cas_wait]
    is observed for [fuel] iterations of its own loop. *)
Fixpoint bench_loop (k : nat) (fuel : nat) (cas : option cas_function_t)
    (dummy : Z) : bench_run :=
  match k with
  | O => mkBenchRun dummy [] true
  | S k' =>
      let r := cas_wait fuel cas quiet dummy (Z.lxor dummy 1) dummy in
      if wr_returned r then
        let rest := bench_loop k' fuel cas (wr_cell r) in
        mkBenchRun (b_dummy rest) (wr_naps r ++ b_naps rest) (b_done rest)
      else mkBenchRun (wr_cell r) (wr_naps r) false
  end.

(** [bench_cas_wait(self, args)]: [args] is what [PyArg_ParseTuple] makes
    of the arguments, [None] when they do not parse as one [int] (the
    function then returns [NULL] and runs nothing). *)
Definition bench_cas_wait (fuel : nat) (cas : option cas_function_t)
    (args : option Z) (dummy : Z) : option bench_run :=
  match args with
  | None => None
  | Some n => Some (bench_loop (Z.to_nat n) fuel cas dummy)
  end.

End WorkQueue.

Module HashWrap.

(** ** Python objects, as far as [_hashwrap.c] looks at them

    An object is either an instance of [WrapperType] or of any other type.
    [PyObject_Hash] belongs to CPython: on an object of another type it runs
    that type's hash, which yields a value different from [-1], or [-1] with
    an exception set when the object is unhashable or its hash raises.  The
    hash of an object is taken to be stable, as Python requires of hashable
    objects; [tp_hash] is that result. *)
Inductive object : Type :=
| Wrapper (ob_refcnt : Z) (wrapped : N) (hash : Z)
| Other (ob_refcnt : Z) (tp_hash : Z).

(** The interpreter: the live objects by address, and the log of every run
    of the hash of an object of another type. *)
Record interp : Type := mkInterp {
  objects : gmap N object;
  hashed : list N
}.

Definition WRAPPER_CHECK (s : interp) (v : N) : bool :=
  match objects s !! v with
  | Some (Wrapper _ _ _) => true
  | _ => false
  end.

Definition incref (o : object) : object :=
  match o with
  | Wrapper rc w h => Wrapper (rc + 1) w h
  | Other rc h => Other (rc + 1) h
  end.

Definition Py_INCREF (v : N) (s : interp) : interp :=
  mkInterp (alter incref v (objects s)) (hashed s).

(** The body of [wrapper_hash], given [PyObject_Hash]. *)
Definition wrapper_hash
    (PyObject_Hash : N -> interp -> option (outcome (Z * interp)))
    (obj : N) (s : interp) : option (outcome (Z * interp)) :=
  match objects s !! obj with
  | Some (Wrapper _ w h) =>
      if h =? -1 then
        match PyObject_Hash w s with
        | None => None
        | Some Fault => Some Fault
        | Some (Ok (h', s')) =>
            (* obj->hash = h'; return obj->hash; *)
            match objects s' !! obj with
            | Some (Wrapper rc' w' _) =>
                Some (Ok (h', mkInterp (<[obj := Wrapper rc' w' h']> (objects s'))
                                       (hashed s')))
            | _ => Some Fault
            end
        end
      else Some (Ok (h, s))
  | _ => Some Fault
  end.

(** [PyObject_Hash], dispatching on the type of the object; [fuel] bounds
    the depth of the calls ([None] when it runs out). *)
Fixpoint PyObject_Hash (fuel : nat) (v : N) (s : interp)
  : option (outcome (Z * interp)) :=
  match fuel with
  | O => None
  | S fuel' =>
      match objects s !! v with
      | None => Some Fault
      | Some (Other _ h) => Some (Ok (h, mkInterp (objects s) (hashed s ++ [v])))
      | Some (Wrapper _ _ _) => wrapper_hash (PyObject_Hash fuel') v s
      end
  end.

(** [n] successive calls of [hash] on the same object: the results, oldest
    first, and the state afterwards. *)
Fixpoint hash_times (n : nat) (fuel : nat) (v : N) (s : interp)
  : option (outcome (list Z * interp)) :=
  match n with
  | O => Some (Ok ([], s))
  | S n' =>
      match PyObject_Hash fuel v s with
      | None => None
      | Some Fault => Some Fault
      | Some (Ok (h, s')) =>
          match hash_times n' fuel v s' with
          | None => None
          | Some Fault => Some Fault
          | Some (Ok (hs, s'')) => Some (Ok (h :: hs, s''))
          end
      end
  end.

(** [hashwrap_make_wrapper(self, arg)].  [alloc] is what
    [PyType_GenericNew] returns; the result is the returned pointer. *)
Definition hashwrap_make_wrapper (alloc : option N) (arg : N) (s : interp)
  : outcome (option N * interp) :=
  match objects s !! arg with
  | None => Fault
  | Some (Wrapper _ _ _) => Ok (Some arg, Py_INCREF arg s)
  | Some (Other _ _) =>
      match alloc with
      | None => Ok (None, s)
      | Some obj =>
          Ok (Some obj,
              Py_INCREF arg
                (mkInterp (<[obj := Wrapper 1 arg (-1)]> (objects s)) (hashed s)))
      end
  end.

(** How often the hash of the object [v] itself was run. *)
Definition hash_runs (v : N) (s : interp) : nat :=
  length (List.filter (fun x => N.eqb x v) (hashed s)).

(** Every wrapper wraps a live object that is not a wrapper. *)
Definition flat (s : interp) : Prop :=
  forall o rc w h,
    objects s !! o = Some (Wrapper rc w h) ->
    exists rc' h', objects s !! w = Some (Other rc' h').

(** ** Sample states *)

(** An interpreter holding a hashable object at address 5 and an unhashable
    one (a list, say) at address 7. *)
Definition sample : interp :=
  mkInterp (<[5%N := Other 1 1234]> (<[7%N := Other 1 (-1)]> ∅)) [].

(** [sample] after wrapping the object at [v] into a wrapper at [o]. *)
Definition wrapped_at (o v : N) : interp :=
  match hashwrap_make_wrapper (Some o) v sample with
  | Ok (_, s) => s
  | Fault => sample
  end.


(** ** Comparison *)

(** The object a comparison looks at: the wrapped object of a wrapper, the
    object itself otherwise. *)
Definition unwrap (s : interp) (v : N) : N :=
  match objects s !! v with
  | Some (Wrapper _ w _) => w
  | _ => v
  end.

Section Compare.

(** [PyObject_RichCompare] belongs to CPython; [R] is what it returns, the
    interpreter it leaves included. *)
Context {R : Type}.
Variable PyObject_RichCompare : N -> N -> Z -> interp -> R.

(** [wrapper_richcompare(v, w, op)].  It is the [tp_richcompare] of
    [WrapperType]: CPython calls it with a wrapper as [v]. *)
Definition wrapper_richcompare (v w : N) (op : Z) (s : interp) : outcome R :=
  match objects s !! v with
  | Some (Wrapper _ vw _) =>
      match objects s !! w with
      | None => Fault
      | Some (Wrapper _ ww _) => Ok (PyObject_RichCompare vw ww op s)
      | Some (Other _ _) => Ok (PyObject_RichCompare vw w op s)
      end
  | _ => Fault
  end.

End Compare.

(** ** Release *)

Definition ob_refcnt (o : object) : Z :=
  match o with
  | Wrapper rc _ _ => rc
  | Other rc _ => rc
  end.

Definition decref (o : object) : object :=
  match o with
  | Wrapper rc w h => Wrapper (rc - 1) w h
  | Other rc h => Other (rc - 1) h
  end.

(** The body of [wrapper_dealloc], given [Py_DECREF]: the reference to the
    wrapped object is dropped, then [tp_free] releases the wrapper.  The
    collector's list of tracked objects is not modelled. *)
Definition wrapper_dealloc
    (Py_DECREF : N -> interp -> option (outcome interp))
    (obj : N) (s : interp) : option (outcome interp) :=
  match objects s !! obj with
  | Some (Wrapper _ w _) =>
      match Py_DECREF w s with
      | None => None
      | Some Fault => Some Fault
      | Some (Ok s') =>
          Some (Ok (mkInterp (delete obj (objects s')) (hashed s')))
      end
  | _ => Some Fault
  end.

(** [Py_DECREF]: the count goes down by one, and at zero the object is
    handed to the [tp_dealloc] of its type; [fuel] bounds the depth of the
    calls.  An object of another type holds no reference of its own here:
    its deallocation releases it and nothing else. *)
Fixpoint Py_DECREF (fuel : nat) (v : N) (s : interp) : option (outcome interp) :=
  match fuel with
  | O => None
  | S fuel' =>
      match objects s !! v with
      | None => Some Fault
      | Some o =>
          let s' := mkInterp (<[v := decref o]> (objects s)) (hashed s) in
          if ob_refcnt (decref o) =? 0 then
            match o with
            | Wrapper _ _ _ => wrapper_dealloc (Py_DECREF fuel') v s'
            | Other _ _ =>
                Some (Ok (mkInterp (delete v (objects s')) (hashed s')))
            end
          else Some (Ok s')
      end
  end.

End HashWrap.


(** * The vocabulary of the protocol *)

Module Protocol.
Import WorkQueue.

(** ** Round-robin filling *)

(** The cursor after one [add_task] on a pool of [n] slots. *)
Definition next_pivot (n pv : nat) : nat :=
  if Nat.eqb (S pv) n then O else S pv.

(** The tasks held by the slots after submitting [ts] from cursor [pv]. *)
Fixpoint fill (n pv : nat) (ts : list Task) (cur : list Task) : list Task :=
  match ts with
  | [] => cur
  | t :: ts' => fill n (next_pivot n pv) ts' (<[pv := t]> cur)
  end.

(** A pool of [n] slots in block [b], with the cursor at [pv]. *)
Record pool (n : nat) (b : N) (qs : list Queue) (pv : nat) (p : proc) : Prop := mkPool {
  pool_queues : queues p = Some b;
  pool_heap : heap p !! b = Some qs;
  pool_length : length qs = n;
  pool_count : queue_count p = Z.of_nat n;
  pool_int : Z.of_nat n <= INT_MAX;
  pool_pivot : queue_pivot p = Z.of_nat pv;
  pool_cursor : (pv < n)%nat
}.

(** ** The progress of one slot through a round *)

Inductive stage : Type :=
| Fresh        (* Idle, not yet released by [ready] *)
| Released     (* Ready *)
| Claimed      (* Running, the task not yet called *)
| Executed     (* Running, the task has returned *)
| Finished     (* Done *)
| Collected.   (* Idle again, after [synchronize] *)

Definition stage_lock (s : stage) : Z :=
  match s with
  | Fresh | Collected => IDLE
  | Released => READY
  | Claimed | Executed => RUNNING
  | Finished => DONE
  end.

Definition stage_pc (s : stage) (c : pc) : bool :=
  match s, c with
  | Claimed, Invoke => true
  | Executed, AwaitDone _ => true
  | (Fresh | Released | Finished | Collected), AwaitReady _ => true
  | _, _ => false
  end.

(** Whether the task of the slot has been called in this round. *)
Definition ran (s : stage) : bool :=
  match s with
  | Fresh | Released | Claimed => false
  | Executed | Finished | Collected => true
  end.

Definition stage_calls (s : stage) (t : Task) : list Task :=
  if ran s then [t] else [].

Definition in_flight (s : stage) : bool :=
  match s with
  | Released | Claimed | Executed | Finished => true
  | Fresh | Collected => false
  end.

(** What a step of its worker makes of a slot. *)
Definition wnext (s : stage) : stage :=
  match s with
  | Released => Claimed
  | Claimed => Executed
  | Executed => Finished
  | Fresh | Finished | Collected => s
  end.

(** Slot [j] of the array [qs] and its worker stand at stage [s]. *)
Definition slot_at (b : N) (qs : list Queue) (p : proc) (j : nat) (s : stage) : Prop :=
  exists q c,
    qs !! j = Some q /\
    threads p !! j = Some (mkThread b (Z.of_nat j) c) /\
    lock q = stage_lock s /\
    stage_pc s c = true /\
    calls_of (Z.of_nat j) (calls p) = stage_calls s (task q) /\
    (ran s = true -> func (task q) <> 0).

(** ** The progress of the driver through a round *)

Inductive phase : Type :=
| PAdd (rest : list Task)    (* submitting; [rest] is still to come *)
| PReady (i : nat)           (* in [ready], at slot [i] *)
| PMid                       (* between [ready] and [synchronize] *)
| PSync (i : nat)            (* in [synchronize], at slot [i] *)
| PDone.                     (* returned from [synchronize] *)

Definition phase_pc (n : nat) (ph : phase) (m : machine) : Prop :=
  match ph with
  | PAdd rest => m_pc m = Between /\ m_prog m = round rest
  | PReady i =>
      (i <= n)%nat /\ m_prog m = [OpSynchronize] /\
      exists t, m_pc m = InReady (Z.of_nat i) t
  | PMid => m_pc m = Between /\ m_prog m = [OpSynchronize]
  | PSync i =>
      (i <= n)%nat /\ m_prog m = [] /\
      exists t, m_pc m = InSynchronize (Z.of_nat i) t
  | PDone => m_pc m = Between /\ m_prog m = []
  end.

(** The stages slot [j] can be at while the driver is in phase [ph]. *)
Definition allowed (ph : phase) (j : nat) (s : stage) : bool :=
  match ph with
  | PAdd _ => match s with Fresh => true | _ => false end
  | PReady i =>
      if (j <? i)%nat then in_flight s
      else match s with Fresh => true | _ => false end
  | PMid => in_flight s
  | PSync i =>
      if (j <? i)%nat then match s with Collected => true | _ => false end
      else in_flight s
  | PDone => match s with Collected => true | _ => false end
  end.

(** The tasks the slots hold, against those they hold once every
    submission is in: [final]. *)
Definition tasks_ok (n : nat) (final : list Task) (ph : phase)
    (pv : nat) (cur : list Task) : Prop :=
  match ph with
  | PAdd rest => fill n pv rest cur = final
  | _ => cur = final
  end.

(** The invariant of a round over a pool of [n] slots in block [b], driven
    through provider [f]: the driver is in phase [ph], slot [j] at stage
    [sigma !! j]. *)
Record inv (f : cas_function_t) (n : nat) (b : N) (final : list Task)
    (ph : phase) (sigma : list stage) (m : machine) : Prop := mkInv {
  inv_fault : m_fault m = false;
  inv_cas : cas (m_proc m) = Some f;
  inv_threads : length (threads (m_proc m)) = n;
  inv_stages : length sigma = n;
  inv_phase : phase_pc n ph m;
  inv_pool :
    exists qs pv,
      pool n b qs pv (m_proc m) /\
      tasks_ok n final ph pv (task <$> qs) /\
      forall j s, sigma !! j = Some s ->
                  allowed ph j s = true /\ slot_at b qs (m_proc m) j s
}.

(** The abstract moves: of the driver ... *)
Definition dstep (n : nat) (ph : phase) (sigma : list stage) : phase * list stage :=
  match ph with
  | PAdd (_ :: rest) => (PAdd rest, sigma)
  | PAdd [] => (PReady 0, sigma)
  | PReady i =>
      if (i <? n)%nat then (PReady (S i), <[i := Released]> sigma)
      else (PMid, sigma)
  | PMid => (PSync 0, sigma)
  | PSync i =>
      if (i <? n)%nat then
        match sigma !! i with
        | Some Finished => (PSync (S i), <[i := Collected]> sigma)
        | _ => (ph, sigma)
        end
      else (PDone, sigma)
  | PDone => (PDone, sigma)
  end.

(** ... and of the worker of slot [j]. *)
Definition wstep (j : nat) (sigma : list stage) : list stage :=
  match sigma !! j with
  | Some s => <[j := wnext s]> sigma
  | None => sigma
  end.

(** How many steps the round still needs. *)
Definition stage_left (s : stage) : nat :=
  match s with
  | Fresh => 5 | Released => 4 | Claimed => 3
  | Executed => 2 | Finished => 1 | Collected => 0
  end.

Definition phase_left (ph : phase) : nat :=
  match ph with
  | PAdd rest => length rest + 4
  | PReady _ => 3
  | PMid => 2
  | PSync _ => 1
  | PDone => 0
  end.

Definition remaining (ph : phase) (sigma : list stage) : nat :=
  phase_left ph + sum_list (stage_left <$> sigma).

(** The round is on track, or the process has faulted. *)
Definition safe (f : cas_function_t) (n : nat) (b : N) (final : list Task)
    (m : machine) : Prop :=
  m_fault m = true \/ exists ph sigma, inv f n b final ph sigma m.

(** The round is on track. *)
Definition on_track (f : cas_function_t) (n : nat) (b : N) (final : list Task)
    (m : machine) : Prop :=
  exists ph sigma, inv f n b final ph sigma m.

(** Every task can be called. *)
Definition callable (ts : list Task) : Prop :=
  forall t, t ∈ ts -> func t <> 0.

(** The abstract move of thread [who]: the driver is [0], the worker of
    slot [j] is [S j]. *)
Definition astep (n : nat) (who : nat) (x : phase * list stage)
  : phase * list stage :=
  match who with
  | O => dstep n x.1 x.2
  | S j => (x.1, wstep j x.2)
  end.

(** A stretch of a schedule in which the driver and each of the [n]
    workers get at least one step. *)
Definition covers (n : nat) (blk : list nat) : Prop :=
  forall who, (who <= n)%nat -> who ∈ blk.

(** The number of such stretches after which a round of [k] submissions
    over [n] slots is over. *)
Definition round_bound (n k : nat) : nat := k + 4 + 5 * n.

(** A pool at rest: every lock Idle, every worker waiting for Ready, and
    the trace empty since the round began. *)
Record quiescent (f : cas_function_t) (n : nat) (b : N) (qs : list Queue)
    (pv : nat) (p : proc) : Prop := mkQuiescent {
  q_pool : pool n b qs pv p;
  q_cas : cas p = Some f;
  q_calls : calls p = [];
  q_threads : length (threads p) = n;
  q_slots :
    forall j, (j < n)%nat ->
      exists q t,
        qs !! j = Some q /\ lock q = IDLE /\
        threads p !! j = Some (mkThread b (Z.of_nat j) (AwaitReady t))
}.

(** ** The cycle of the states *)

Definition next_state (l : Z) : Z :=
  if l =? IDLE then READY
  else if l =? READY then RUNNING
  else if l =? RUNNING then DONE
  else if l =? DONE then IDLE
  else l.

(** The lock of slot [j] of block [b]. *)
Definition lock_at (p : proc) (b : N) (j : nat) : option Z :=
  match heap p !! b with
  | None => None
  | Some qs => lock <$> qs !! j
  end.

(** A lock stays or moves to the successor of its state. *)
Definition lock_succ (a a' : option Z) : Prop :=
  match a, a' with
  | Some l, Some l' => l' = l \/ l' = next_state l
  | None, None => True
  | _, _ => False
  end.

(** The successive values of the lock of a slot along a schedule. *)
Fixpoint lock_history (b : N) (j : nat) (sched : list nat) (m : machine)
  : list (option Z) :=
  lock_at (m_proc m) b j ::
  match sched with
  | [] => []
  | who :: sched' => lock_history b j sched' (step who m)
  end.

Fixpoint cyclic (h : list (option Z)) : Prop :=
  match h with
  | a :: ((a' :: _) as tl) => lock_succ a a' /\ cyclic tl
  | _ => True
  end.

(** The provider is absent or valid. *)
Definition provider_ok (p : proc) : Prop :=
  match cas p with
  | None => True
  | Some f => cas_valid f
  end.

(** ** Sample states *)

Definition sample_task (k : Z) : Task := mkTask (4096 + k) k 0 0 (8 * k).

(** A pool of [n] slots just launched, every thread created, with the
    canonical provider installed. *)
Definition launched (n : Z) : outcome proc :=
  launch_threads (Some 1%N) (fun _ => true) n (set_cas (Some cmpxchg) initial).

Definition launched_2 : proc :=
  match launched 2 with Ok p => p | Fault => initial end.

(** The machine at the start of a round submitting [ts]. *)
Definition start (p : proc) (ts : list Task) : machine :=
  mkMachine p (round ts) Between false.

(** ** A slot that cannot finish *)

(** Thread [th] works on slot [j] of block [b]. *)
Definition bound_to (b : N) (j : nat) (th : thread) : Prop :=
  th_block th = b /\ th_index th = Z.of_nat j.

(** The driver is in [ready] or has a call of it ahead. *)
Definition ready_ahead (m : machine) : Prop :=
  OpReady ∈ m_prog m \/ exists i t, m_pc m = InReady i t.

(** The driver has a call of [synchronize] ahead, or is in one and has not
    passed slot [j]. *)
Definition sync_ahead (j : nat) (m : machine) : Prop :=
  OpSynchronize ∈ m_prog m \/
  exists i t, m_pc m = InSynchronize i t /\ 0 <= i <= Z.of_nat j.

(** Slot [j] of the pool in block [b] will never be Done: its lock is Idle
    or Ready, and a thread works on it only if the lock is Idle, the
    thread waits for Ready and the driver will not call [ready]. *)
Record stalled (b : N) (j : nat) (m : machine) : Prop := mkStalled {
  st_fault : m_fault m = false;
  st_provider : provider_ok (m_proc m);
  st_queues : queues (m_proc m) = Some b;
  st_count : Z.of_nat j < queue_count (m_proc m) <= INT_MAX;
  st_sync : sync_ahead j m;
  st_slot :
    exists l,
      lock_at (m_proc m) b j = Some l /\
      (l = IDLE \/ l = READY) /\
      forall tid th,
        threads (m_proc m) !! tid = Some th ->
        bound_to b j th ->
        (exists t, th_pc th = AwaitReady t) /\ l = IDLE /\ ~ ready_ahead m
}.

(** ** Samples *)

(** The other threads leave the cell alone until the nap of iteration [k],
    during which they make it Ready. *)
Definition released_at (k : nat) : nat -> Z -> Z :=
  fun it cell => if Nat.eqb it k then READY else cell.


(** A launch of two slots in which the thread of the second slot could not
    be created. *)
Definition launched_2_lame : proc :=
  match launch_threads (Some 1%N) (fun i => i =? 0) 2
          (set_cas (Some cmpxchg) initial) with
  | Ok p => p
  | Fault => initial
  end.

(** ** Who writes what *)

(** The task of slot [j] of block [b]. *)
Definition task_at (p : proc) (b : N) (j : nat) : option Task :=
  match heap p !! b with
  | None => None
  | Some qs => task <$> qs !! j
  end.

(** The next step of the driver is a call of [add_task]. *)
Definition adding (m : machine) : bool :=
  match m_pc m, m_prog m with
  | Between, OpAddTask _ :: _ => true
  | _, _ => false
  end.

Definition is_add (o : op) : bool :=
  match o with
  | OpAddTask _ => true
  | _ => false
  end.

(** The submissions the driver has still to make. *)
Definition adds_left (prog : list op) : nat := length (List.filter is_add prog).

(** The cursor of a round of [k] submissions that started at [pv]: it has
    advanced once per submission made. *)
Definition cursor_ok (n pv k : nat) (m : machine) : Prop :=
  (adds_left (m_prog m) <= k)%nat /\
  queue_pivot (m_proc m)
  = Z.of_nat (Nat.iter (k - adds_left (m_prog m)) (next_pivot n) pv).

End Protocol.


(** * Properties of the work queue *)

Module WorkQueueProps.
Import WorkQueue Protocol.

Lemma wrap_int_small z : - 2 ^ 31 <= z <= INT_MAX -> wrap_int z = z.
Proof.
  unfold wrap_int, INT_MAX. intros H.
  rewrite Z.mod_small; lia.
Qed.

Lemma cmpxchg_valid : cas_valid cmpxchg.
Proof. intros cell old repl. reflexivity. Qed.

(** ** The waiter *)

Lemma nap_schedule_small i :
  (i <= 14)%nat -> nap_schedule i = 2 ^ Z.of_nat i /\ 2 ^ Z.of_nat i <= 16384.
Proof.
  intros Hi. unfold nap_schedule, MAX_WAIT_TIME.
  assert (H : 2 ^ Z.of_nat i <= 2 ^ 14)
    by (apply Z.pow_le_mono_r; lia).
  change (2 ^ 14) with 16384 in H. lia.
Qed.

Lemma nap_schedule_large i :
  (15 <= i)%nat -> nap_schedule i = MAX_WAIT_TIME.
Proof.
  intros Hi. unfold nap_schedule, MAX_WAIT_TIME.
  assert (H : 2 ^ 15 <= 2 ^ Z.of_nat i)
    by (apply Z.pow_le_mono_r; lia).
  change (2 ^ 15) with 32768 in H. lia.
Qed.

Lemma nap_schedule_bounds i : 1 <= nap_schedule i <= MAX_WAIT_TIME.
Proof.
  unfold nap_schedule, MAX_WAIT_TIME.
  assert (0 < 2 ^ Z.of_nat i) by (apply Z.pow_pos_nonneg; lia). lia.
Qed.

(** Doubling a timeout of the schedule stays far from the range of [int]. *)
Lemma shift_no_overflow t :
  1 <= t <= MAX_WAIT_TIME -> wrap_int (Z.shiftl t 1) = 2 * t.
Proof.
  unfold MAX_WAIT_TIME. intros H.
  rewrite Z.shiftl_mul_pow2 by lia. change (2 ^ 1) with 2.
  rewrite wrap_int_small; unfold INT_MAX; lia.
Qed.

Lemma backoff_schedule i : backoff (nap_schedule i) = nap_schedule (S i).
Proof.
  unfold backoff.
  rewrite shift_no_overflow by apply nap_schedule_bounds.
  rewrite Z.geb_leb.
  destruct (le_lt_dec i 14) as [Hi | Hi].
  - destruct (nap_schedule_small i Hi) as [-> Hb].
    unfold nap_schedule.
    replace (2 ^ Z.of_nat (S i)) with (2 * 2 ^ Z.of_nat i)
      by (rewrite Nat2Z.inj_succ, Z.pow_succ_r; lia).
    destruct (Z.leb_spec MAX_WAIT_TIME (2 * 2 ^ Z.of_nat i)); lia.
  - rewrite !nap_schedule_large by lia.
    reflexivity.
Qed.

Lemma cas_wait_naps n cas env old repl it cell i :
  let r := cas_wait_loop n cas env old repl it cell (nap_schedule i) in
  wr_naps r = map nap_schedule (seq i (length (wr_naps r))).
Proof.
  revert it cell i. induction n as [| n IH]; intros it cell i; simpl.
  - reflexivity.
  - destruct (cas_wait_iter cas old repl cell (nap_schedule i))
      as [cell' | cell' usec timeout'] eqn:E; simpl.
    + reflexivity.
    + assert (usec = nap_schedule i /\ timeout' = nap_schedule (S i)) as [-> ->].
      { unfold cas_wait_iter in E. rewrite backoff_schedule in E.
        destruct cas as [f |].
        - destruct (f cell old repl) as [c out].
          destruct (out =? old); inversion E; auto.
        - inversion E; auto. }
      f_equal. apply IH.
Qed.

Lemma cas_wait_no_provider n env old repl it cell timeout :
  let r := cas_wait_loop n None env old repl it cell timeout in
  wr_returned r = false /\
  length (wr_naps r) = n /\
  wr_cell r = env_only n env it cell.
Proof.
  revert it cell timeout. induction n as [| n IH]; intros it cell timeout; simpl.
  - auto.
  - destruct (IH (S it) (env it cell) (backoff timeout)) as (Hr & Hl & Hc).
    repeat split; simpl; auto.
Qed.

Lemma env_only_quiet n it cell : env_only n quiet it cell = cell.
Proof.
  revert it. induction n as [| n IH]; intros it; simpl; auto.
Qed.

(** C4.  With no CAS provider installed, a call of [cas_wait] never returns
    and never writes the cell it waits on: however many iterations of its
    loop are observed, the call has not returned, it has napped once per
    iteration, and the cell holds what the other threads alone made of it
    -- its initial content when they leave it alone.  Inside the process,
    an iteration leaves the whole state as it was. *)
Theorem cas_wait_without_provider_spins :
  forall (n : nat) (env : nat -> Z -> Z) (old repl cell : Z),
    wr_returned (cas_wait n None env old repl cell) = false /\
    length (wr_naps (cas_wait n None env old repl cell)) = n /\
    wr_cell (cas_wait n None env old repl cell) = env_only n env 0 cell /\
    wr_cell (cas_wait n None quiet old repl cell) = cell /\
    (forall (p : proc) (base : option N) (i timeout : Z),
        cas_wait_at (set_cas None p) base i old repl timeout
        = Ok (set_cas None p, Some (backoff timeout))).
Proof.
  intros n env old repl cell. unfold cas_wait.
  destruct (cas_wait_no_provider n env old repl 0%nat cell 1) as (Hr & Hl & Hc).
  destruct (cas_wait_no_provider n quiet old repl 0%nat cell 1) as (_ & _ & Hq).
  rewrite env_only_quiet in Hq.
  repeat split; auto.
Qed.



(** Twenty naps of a waiter that never gets its turn. *)
Example naps_of_twenty_attempts :
  wr_naps (cas_wait 20 (Some cmpxchg) quiet READY RUNNING IDLE)
  = [1; 2; 4; 8; 16; 32; 64; 128; 256; 512; 1024; 2048; 4096; 8192; 16384;
     20000; 20000; 20000; 20000; 20000].
Proof. reflexivity. Qed.

(** A waiter whose turn comes during its third nap. *)
Example wait_until_ready :
  cas_wait 10 (Some cmpxchg)
    (fun it cell => if Nat.eqb it 2 then READY else cell)
    READY RUNNING IDLE
  = mkWaitRun RUNNING [1; 2; 4] true.
Proof. reflexivity. Qed.

(** ** Round-robin submission *)

Lemma next_pivot_mod n pv : (pv < n)%nat -> next_pivot n pv = ((pv + 1) mod n)%nat.
Proof.
  intros H. unfold next_pivot.
  destruct (Nat.eqb_spec (S pv) n) as [E | E].
  - subst n. replace (pv + 1)%nat with (S pv) by lia.
    symmetry. apply Nat.Div0.mod_same.
  - rewrite Nat.mod_small; lia.
Qed.

Lemma next_pivot_lt n pv : (pv < n)%nat -> (next_pivot n pv < n)%nat.
Proof.
  intros H. unfold next_pivot.
  destruct (Nat.eqb_spec (S pv) n); lia.
Qed.

Lemma mod_succ_shift n pv i :
  (pv < n)%nat -> ((next_pivot n pv + i) mod n = (pv + S i) mod n)%nat.
Proof.
  intros H. rewrite next_pivot_mod by assumption.
  rewrite Nat.Div0.add_mod_idemp_l. f_equal. lia.
Qed.

Lemma mod_offset_neq n pv i :
  (pv < n)%nat -> (0 < i < n)%nat -> ((pv + i) mod n)%nat <> pv.
Proof.
  intros Hpv Hi E.
  destruct (le_lt_dec n (pv + i)) as [Hge | Hlt].
  - replace (pv + i)%nat with ((pv + i - n) + 1 * n)%nat in E by lia.
    rewrite Nat.Div0.mod_add, Nat.mod_small in E; lia.
  - rewrite Nat.mod_small in E; lia.
Qed.

Lemma fill_length n pv ts cur : length (fill n pv ts cur) = length cur.
Proof.
  revert pv cur. induction ts as [| t ts IH]; intros pv cur; simpl.
  - reflexivity.
  - rewrite IH. apply length_insert.
Qed.

(** A position that no submission of the run reaches keeps its task. *)
Lemma fill_frame n pv ts (cur : list Task) x :
  (pv < n)%nat ->
  (forall i, (i < length ts)%nat -> ((pv + i) mod n)%nat <> x) ->
  fill n pv ts cur !! x = cur !! x.
Proof.
  revert pv cur. induction ts as [| t ts IH]; intros pv cur Hpv Hx; simpl.
  - reflexivity.
  - rewrite IH.
    + apply list_lookup_insert_ne.
      specialize (Hx O). simpl in Hx.
      rewrite Nat.add_0_r, Nat.mod_small in Hx; [apply Hx |]; lia.
    + apply next_pivot_lt; assumption.
    + intros i Hi. rewrite mod_succ_shift by assumption.
      apply Hx. simpl. lia.
Qed.

(** The [i]-th task of a run of at most [n] submissions sits in slot
    [(pv + i) mod n]. *)
Lemma fill_lookup n pv ts (cur : list Task) i t :
  length cur = n -> (pv < n)%nat -> (length ts <= n)%nat ->
  ts !! i = Some t ->
  fill n pv ts cur !! ((pv + i) mod n)%nat = Some t.
Proof.
  revert pv cur i. induction ts as [| t0 ts IH]; intros pv cur i Hc Hpv Hl Hi.
  - discriminate.
  - simpl in *. destruct i as [| i].
    + injection Hi as ->.
      rewrite Nat.add_0_r, Nat.mod_small by assumption.
      rewrite fill_frame.
      * apply list_lookup_insert_eq. lia.
      * apply next_pivot_lt; assumption.
      * intros i Hi. rewrite mod_succ_shift by assumption.
        apply mod_offset_neq; lia.
    + rewrite <- mod_succ_shift by assumption.
      apply IH; auto.
      * rewrite length_insert. assumption.
      * apply next_pivot_lt; assumption.
      * lia.
Qed.

Lemma iter_next_pivot n pv k :
  (pv < n)%nat -> Nat.iter k (next_pivot n) pv = ((pv + k) mod n)%nat.
Proof.
  intros H. induction k as [| k IH]; simpl.
  - rewrite Nat.add_0_r, Nat.mod_small; auto.
  - rewrite IH. rewrite next_pivot_mod by (apply Nat.mod_upper_bound; lia).
    rewrite Nat.Div0.add_mod_idemp_l. f_equal. lia.
Qed.

(** The effect of one [add_task] on a pool. *)
Lemma add_task_pool n b qs pv p t :
  pool n b qs pv p ->
  exists q,
    qs !! pv = Some q /\
    add_task t p
    = Ok (set_queue_pivot (Z.of_nat (next_pivot n pv))
            (put b qs (Z.of_nat pv) (set_task q t) p)).
Proof.
  intros [Hq Hh Hl Hc Hi Hp Hpv].
  destruct (lookup_lt_is_Some_2 qs pv) as [q Hqs]; [lia |].
  exists q. split; [assumption |].
  unfold add_task, deref. rewrite Hq, Hh, Hp.
  destruct (Z.leb_spec 0 (Z.of_nat pv)); [| lia].
  rewrite Nat2Z.id, Hqs, Hc.
  rewrite wrap_int_small by (unfold INT_MAX in *; lia).
  do 2 f_equal. unfold next_pivot.
  destruct (Z.eqb_spec (Z.of_nat pv + 1) (Z.of_nat n)) as [E | E];
    destruct (Nat.eqb_spec (S pv) n); lia.
Qed.

Lemma pool_after_add n b qs pv p q t :
  pool n b qs pv p -> qs !! pv = Some q ->
  pool n b (<[pv := set_task q t]> qs) (next_pivot n pv)
       (set_queue_pivot (Z.of_nat (next_pivot n pv))
          (put b qs (Z.of_nat pv) (set_task q t) p)).
Proof.
  intros [Hq Hh Hl Hc Hi Hp Hpv] Hqs.
  constructor; simpl; auto.
  - rewrite Nat2Z.id. apply lookup_insert_eq.
  - rewrite length_insert. assumption.
  - apply next_pivot_lt. assumption.
Qed.

(** The effect of a run of [add_task] calls on a pool: the tasks are those
    of [fill], the locks and everything else stay. *)
Lemma add_tasks_pool ts : forall n b qs pv p,
  pool n b qs pv p ->
  exists p' qs',
    add_tasks ts p = Ok p' /\
    pool n b qs' (Nat.iter (length ts) (next_pivot n) pv) p' /\
    task <$> qs' = fill n pv ts (task <$> qs) /\
    lock <$> qs' = lock <$> qs /\
    cas p' = cas p /\ threads p' = threads p /\ calls p' = calls p /\
    atfork p' = atfork p.
Proof.
  induction ts as [| t ts IH]; intros n b qs pv p Hpool.
  - exists p, qs. simpl. split; [reflexivity |]. split; [exact Hpool |].
    repeat split; reflexivity.
  - destruct (add_task_pool n b qs pv p t Hpool) as (q & Hqs & Hadd).
    pose proof (pool_after_add n b qs pv p q t Hpool Hqs) as Hpool'.
    destruct (IH _ _ _ _ _ Hpool') as (p' & qs' & Hrun & Hp' & Ht & Hl & Hrest).
    exists p', qs'. split; [simpl; rewrite Hadd; exact Hrun |].
    split.
    { cbn [length]. rewrite Nat.iter_succ_r. exact Hp'. }
    split.
    { rewrite Ht. rewrite list_fmap_insert. reflexivity. }
    split.
    { rewrite Hl. rewrite list_fmap_insert. simpl.
      apply list_insert_id. rewrite list_lookup_fmap, Hqs. reflexivity. }
    exact Hrest.
Qed.

(** C2.  On a pool of [N] slots with the cursor at zero, [N] consecutive
    [add_task] calls put the [i]-th submitted task in slot [i mod N], leave
    the locks alone, and bring the cursor back to zero. *)
Theorem add_task_round_robin :
  forall (p : proc) (b : N) (qs : list Queue) (ts : list Task),
    queues p = Some b ->
    heap p !! b = Some qs ->
    queue_count p = Z.of_nat (length qs) ->
    Z.of_nat (length qs) <= INT_MAX ->
    queue_pivot p = 0 ->
    length ts = length qs ->
    exists p' qs',
      add_tasks ts p = Ok p' /\
      queues p' = Some b /\
      heap p' !! b = Some qs' /\
      length qs' = length qs /\
      (forall (i : nat) (t : Task),
          ts !! i = Some t ->
          task <$> qs' !! (i mod length qs)%nat = Some t) /\
      lock <$> qs' = lock <$> qs /\
      queue_pivot p' = 0.
Proof.
  intros p b qs ts Hq Hh Hc Hi Hp Hlen.
  destruct ts as [| t0 ts0] eqn:Ets.
  { exists p, qs. simpl. repeat split; auto. intros i t Hit. discriminate. }
  rewrite <- Ets in *.
  assert (Hn : (0 < length qs)%nat) by (rewrite <- Hlen, Ets; simpl; lia).
  assert (Hpool : pool (length qs) b qs 0 p) by (constructor; auto).
  destruct (add_tasks_pool ts _ _ _ _ _ Hpool)
    as (p' & qs' & Hrun & [Hq' Hh' Hl' Hc' _ Hp' _] & Ht & Hl & _).
  exists p', qs'. repeat split; auto.
  - intros i t Hit.
    rewrite <- list_lookup_fmap, Ht.
    apply (fill_lookup (length qs) 0%nat ts (task <$> qs) i t);
      auto; try lia.
    apply length_fmap.
  - rewrite Hp', iter_next_pivot by assumption.
    rewrite Hlen. simpl. rewrite Nat.Div0.mod_same. reflexivity.
Qed.

(** ** The life cycle of the pool *)

Lemma spawn_loop_frame n spawn base : forall i p,
  let p' := spawn_loop n spawn base i p in
  cas p' = cas p /\ heap p' = heap p /\ queues p' = queues p /\
  queue_count p' = queue_count p /\ queue_pivot p' = queue_pivot p /\
  calls p' = calls p.
Proof.
  induction n as [| n IH]; intros i p; simpl.
  - repeat split.
  - destruct (IH (i + 1) (numba_new_thread (spawn i) base i p))
      as (H1 & H2 & H3 & H4 & H5 & H6).
    unfold numba_new_thread in *.
    destruct (spawn i); simpl in *; repeat split; assumption.
Qed.

(** When every [pthread_create] succeeds, the loop adds one worker per
    slot, in order, each at the top of [thread_worker]. *)
Lemma spawn_loop_all n base : forall i p,
  threads (spawn_loop n (fun _ => true) base i p)
  = threads p ++ map (fun j => mkThread base (i + Z.of_nat j) (AwaitReady 1)) (seq 0 n).
Proof.
  induction n as [| n IH]; intros i p.
  - simpl. rewrite app_nil_r. reflexivity.
  - cbn [spawn_loop]. rewrite IH. unfold numba_new_thread. simpl.
    rewrite <- app_assoc. f_equal. simpl. rewrite Z.add_0_r. f_equal.
    rewrite <- seq_shift, map_map. apply map_ext. intros j.
    f_equal. lia.
Qed.

(** A launch of [n] slots whose allocation and thread creations all succeed
    leaves a pool at rest, the cursor at zero. *)
Lemma launch_quiescent f (n : nat) b :
  (0 < n)%nat -> Z.of_nat n <= INT_MAX ->
  exists p,
    launch_threads (Some b) (fun _ => true) (Z.of_nat n)
                   (set_cas (Some f) initial) = Ok p /\
    quiescent f n b (replicate n zero_Queue) 0 p.
Proof.
  intros Hn Hmax. unfold launch_threads. simpl.
  eexists. split; [reflexivity |].
  assert (Hsz : Z.to_nat (wrap_size (SIZEOF_QUEUE * Z.of_nat n) / SIZEOF_QUEUE) = n).
  { unfold wrap_size, SIZEOF_QUEUE, INT_MAX in *.
    rewrite Z.mod_small by lia.
    rewrite Z.mul_comm, Z.div_mul by lia. apply Nat2Z.id. }
  rewrite Hsz, Nat2Z.id.
  match goal with
  | |- quiescent _ _ _ _ _ (spawn_loop n ?sp b 0 ?p1) =>
      pose proof (spawn_loop_frame n sp b 0 p1) as (Hc & Hh & Hq & Hk & Hv & Hcs);
      pose proof (spawn_loop_all n b 0 p1) as Hths
  end.
  simpl in Hc, Hh, Hq, Hk, Hv, Hcs, Hths.
  constructor.
  - constructor.
    + rewrite Hq. reflexivity.
    + rewrite Hh. apply lookup_insert_eq.
    + apply length_replicate.
    + rewrite Hk. reflexivity.
    + assumption.
    + rewrite Hv. reflexivity.
    + assumption.
  - rewrite Hc. reflexivity.
  - rewrite Hcs. reflexivity.
  - rewrite Hths, length_map, length_seq. reflexivity.
  - intros j Hj. exists zero_Queue, 1.
    split; [apply lookup_replicate_2; assumption |].
    split; [reflexivity |].
    rewrite Hths.
    change (map ?g ?l) with (g <$> l).
    rewrite list_lookup_fmap, lookup_seq_lt by assumption.
    reflexivity.
Qed.


(** C7.  Once the pool exists, [launch_threads] does nothing, whatever the
    count asked for and whatever [malloc] and [pthread_create] would have
    answered: the process state -- the slot array, the slot count and the
    worker threads among it -- is returned as it was. *)
Theorem launch_threads_idempotent :
  forall (alloc : option N) (spawn : Z -> bool) (count : Z)
         (p : proc) (b : N),
    queues p = Some b ->
    launch_threads alloc spawn count p = Ok p.
Proof.
  intros alloc spawn count p b H.
  unfold launch_threads. rewrite H. reflexivity.
Qed.


(** What [reset_after_fork] does to a process whose pool exists: the slot
    array is handed back to the allocator and the handle is cleared. *)
Lemma reset_after_fork_live p b qs :
  queues p = Some b -> heap p !! b = Some qs ->
  reset_after_fork p = Ok (set_queues None (set_heap (delete b (heap p)) p)).
Proof.
  intros Hq Hh. unfold reset_after_fork, free. rewrite Hq, Hh. reflexivity.
Qed.

(** C6, as the code has it.  [reset_after_fork] frees the slot array and
    clears the handle: afterwards the handle is null, the block that held
    the slots is no longer live, every other block is untouched, and the
    rest of the state (provider, count, cursor, handlers, trace) is as
    before. *)
Theorem reset_after_fork_frees :
  forall (p : proc) (b : N) (qs : list Queue),
    queues p = Some b ->
    heap p !! b = Some qs ->
    exists p',
      reset_after_fork p = Ok p' /\
      queues p' = None /\
      heap p' !! b = None /\
      (forall b', b' <> b -> heap p' !! b' = heap p !! b') /\
      cas p' = cas p /\ queue_count p' = queue_count p /\
      queue_pivot p' = queue_pivot p /\ threads p' = threads p /\
      atfork p' = atfork p /\ calls p' = calls p.
Proof.
  intros p b qs Hq Hh.
  exists (set_queues None (set_heap (delete b (heap p)) p)).
  split; [apply (reset_after_fork_live p b qs); assumption |].
  simpl. split; [reflexivity |]. split; [apply lookup_delete_eq |].
  split; [| repeat split].
  intros b' Hb. apply lookup_delete_ne. congruence.
Qed.

(** ** One round of the protocol *)

Lemma calls_of_app j cs cs' :
  calls_of j (cs ++ cs') = calls_of j cs ++ calls_of j cs'.
Proof.
  unfold calls_of. rewrite List.filter_app, map_app. reflexivity.
Qed.

Lemma calls_of_snoc_same j cs t :
  calls_of j (cs ++ [(j, t)]) = calls_of j cs ++ [t].
Proof.
  rewrite calls_of_app. unfold calls_of at 2. simpl.
  rewrite Z.eqb_refl. reflexivity.
Qed.

Lemma calls_of_snoc_other j j' cs t :
  j' <> j -> calls_of j' (cs ++ [(j, t)]) = calls_of j' cs.
Proof.
  intros H. rewrite calls_of_app. unfold calls_of at 2. simpl.
  destruct (Z.eqb_spec j j'); [congruence |]. simpl. apply app_nil_r.
Qed.

(** The stage of a slot depends on its own queue, thread and calls only. *)
Lemma slot_at_other b (qs qs' : list Queue) p p' j s :
  slot_at b qs p j s ->
  qs' !! j = qs !! j ->
  threads p' !! j = threads p !! j ->
  calls_of (Z.of_nat j) (calls p') = calls_of (Z.of_nat j) (calls p) ->
  slot_at b qs' p' j s.
Proof.
  intros (q & c & Hq & Ht & Hl & Hc & Hcs & Hf) Eq Et Ec.
  exists q, c. rewrite Eq, Et, Ec. auto 10.
Qed.

Lemma fmap_task_set_lock (qs : list Queue) j q l :
  qs !! j = Some q ->
  task <$> <[j := set_lock q l]> qs = task <$> qs.
Proof.
  intros H. rewrite list_fmap_insert. simpl.
  apply list_insert_id. rewrite list_lookup_fmap, H. reflexivity.
Qed.

Lemma sum_stage_insert (sigma : list stage) j s s' :
  sigma !! j = Some s ->
  (sum_list (stage_left <$> <[j := s']> sigma) + stage_left s
   = sum_list (stage_left <$> sigma) + stage_left s')%nat.
Proof.
  revert j. induction sigma as [| x sigma IH]; intros j H.
  - discriminate.
  - destruct j as [| j]; simpl in *.
    + injection H as ->. lia.
    + specialize (IH j H). unfold fmap in *. lia.
Qed.

(** One iteration of [cas_wait] on a slot of a live block, through a valid
    provider. *)
Lemma cas_wait_at_slot f p b (qs : list Queue) j q old repl t :
  cas_valid f -> cas p = Some f ->
  heap p !! b = Some qs -> qs !! j = Some q ->
  cas_wait_at p (Some b) (Z.of_nat j) old repl t
  = Ok (put b qs (Z.of_nat j)
          (set_lock q (if lock q =? old then repl else lock q)) p,
        if lock q =? old then None else Some (backoff t)).
Proof.
  intros Hf Hc Hh Hq. unfold cas_wait_at, deref. rewrite Hc, Hh.
  destruct (Z.leb_spec 0 (Z.of_nat j)); [| lia].
  rewrite Nat2Z.id, Hq. unfold cas_wait_iter. rewrite Hf.
  destruct (lock q =? old); reflexivity.
Qed.

Lemma run_app sched sched' m :
  run (sched ++ sched') m = run sched' (run sched m).
Proof.
  revert m. induction sched as [| who sched IH]; intros m; simpl; auto.
Qed.

Section Round.

Variable f : cas_function_t.
Hypothesis Hf : cas_valid f.
Variables (n : nat) (b : N) (final : list Task).

Lemma allowed_wnext ph j s :
  allowed ph j s = true -> allowed ph j (wnext s) = true.
Proof.
  destruct ph as [rest | i | | i |]; simpl;
    try destruct (j <? i)%nat; destruct s; simpl; auto.
Qed.

(** Rebuilding the invariant after the worker of slot [j] has moved:
    its queue now holds lock [l'], its thread stands at [c'], the calls are
    [cs']. *)
Lemma inv_after_worker ph sigma m p' (qs : list Queue) pv j q c s' l' c' :
  inv f n b final ph sigma m ->
  pool n b qs pv (m_proc m) ->
  tasks_ok n final ph pv (task <$> qs) ->
  (forall j s, sigma !! j = Some s ->
               allowed ph j s = true /\ slot_at b qs (m_proc m) j s) ->
  (j < n)%nat ->
  qs !! j = Some q ->
  threads (m_proc m) !! j = Some (mkThread b (Z.of_nat j) c) ->
  cas p' = cas (m_proc m) ->
  queues p' = queues (m_proc m) ->
  queue_count p' = queue_count (m_proc m) ->
  queue_pivot p' = queue_pivot (m_proc m) ->
  heap p' !! b = Some (<[j := set_lock q l']> qs) ->
  threads p' = <[j := mkThread b (Z.of_nat j) c']> (threads (m_proc m)) ->
  (forall j', j' <> j ->
     calls_of (Z.of_nat j') (calls p') = calls_of (Z.of_nat j') (calls (m_proc m))) ->
  allowed ph j s' = true ->
  l' = stage_lock s' ->
  stage_pc s' c' = true ->
  calls_of (Z.of_nat j) (calls p') = stage_calls s' (task q) ->
  (ran s' = true -> func (task q) <> 0) ->
  inv f n b final ph (<[j := s']> sigma)
      (mkMachine p' (m_prog m) (m_pc m) false).
Proof.
  intros [Hfault Hcas Hths Hst Hph _] Hpool Htasks Hslots Hj Hq Hth
         Ecas Equeues Ecount Epivot Eheap Ethreads Ecalls Hal Hl Hc Hcs Hfn.
  destruct Hpool as [Pq Ph Pl Pc Pi Pp Pv].
  constructor; simpl.
  - reflexivity.
  - congruence.
  - rewrite Ethreads, length_insert. assumption.
  - rewrite length_insert. assumption.
  - destruct ph; simpl in *; assumption.
  - exists (<[j := set_lock q l']> qs), pv. split; [| split].
    + constructor; try congruence; try assumption.
      rewrite length_insert. assumption.
    + rewrite (fmap_task_set_lock qs j q l' Hq). assumption.
    + intros j' s Hs.
      destruct (decide (j' = j)) as [-> | Hne].
      * rewrite list_lookup_insert_eq in Hs by lia. injection Hs as <-.
        split; [assumption |].
        exists (set_lock q l'), c'. simpl.
        rewrite Ethreads.
        rewrite !list_lookup_insert_eq by lia.
        auto 10.
      * rewrite list_lookup_insert_ne in Hs by congruence.
        destruct (Hslots j' s Hs) as [Ha Hsl].
        split; [assumption |].
        apply (slot_at_other b qs _ (m_proc m) p'); auto.
        -- apply list_lookup_insert_ne. congruence.
        -- rewrite Ethreads. apply list_lookup_insert_ne. congruence.
Qed.

Lemma set_lock_same q : set_lock q (lock q) = q.
Proof. destruct q; reflexivity. Qed.

Lemma deref_slot p (qs : list Queue) j q :
  heap p !! b = Some qs -> qs !! j = Some q ->
  deref p (Some b) (Z.of_nat j) = Ok (b, qs, q).
Proof.
  intros Hh Hq. unfold deref. rewrite Hh.
  destruct (Z.leb_spec 0 (Z.of_nat j)); [| lia].
  rewrite Nat2Z.id, Hq. reflexivity.
Qed.

Lemma heap_after_put p (qs : list Queue) j q :
  heap (put b qs (Z.of_nat j) q p) !! b = Some (<[j := q]> qs).
Proof.
  unfold put. simpl. rewrite Nat2Z.id. apply lookup_insert_eq.
Qed.

Ltac worker_side :=
  try first
    [ eassumption
    | reflexivity
    | apply heap_after_put
    | (intros; reflexivity)
    | (intros; assumption)
    | (apply allowed_wnext; assumption)
    | (intros; discriminate) ].

(** A step of the worker of slot [j]: the slot moves by [wnext], unless
    the worker calls through a null function pointer. *)
Lemma worker_step_inv ph sigma m j s :
  inv f n b final ph sigma m ->
  sigma !! j = Some s ->
  (s = Claimed /\ m_fault (worker_step j m) = true /\
   exists t, final !! j = Some t /\ func t = 0)
  \/ inv f n b final ph (<[j := wnext s]> sigma) (worker_step j m).
Proof.
  intros Hinv Hs.
  pose proof Hinv as [Hfault Hcas Hths Hst Hph (qs & pv & Hpool & Htasks & Hslots)].
  destruct (Hslots j s Hs) as [Hal (q & c & Hq & Hth & Hl & Hc & Hcs & Hfn)].
  assert (Hj : (j < n)%nat) by (apply lookup_lt_Some in Hs; lia).
  pose proof (pool_heap _ _ _ _ _ Hpool) as Hh.
  unfold worker_step. rewrite Hth. cbn [th_pc th_block th_index].
  destruct c as [t | | t].
  - (* waiting for Ready *)
    rewrite (cas_wait_at_slot f _ b qs j q READY RUNNING t Hf Hcas Hh Hq).
    right.
    destruct s; try discriminate Hc; rewrite Hl; simpl.
    all: match goal with
         | |- inv _ _ _ _ _ (<[_ := ?s']> _) (mkMachine (set_pc _ _ ?c' _) _ _ _) =>
             apply (inv_after_worker ph sigma m _ qs pv j q (AwaitReady t)
                      s' (stage_lock s') c')
         end; worker_side.
  - (* calling the task *)
    destruct s; try discriminate Hc.
    rewrite (deref_slot _ qs j q Hh Hq).
    destruct (Z.eqb_spec (func (task q)) 0) as [E | E].
    + left. split; [reflexivity |]. split; [reflexivity |].
      exists (task q). split; [| assumption].
      destruct ph as [rest | i | | i |]; simpl in Htasks, Hal;
        try discriminate Hal;
        rewrite <- Htasks, list_lookup_fmap, Hq; reflexivity.
    + right.
      apply (inv_after_worker ph sigma m _ qs pv j q Invoke
               Executed (stage_lock Executed) (AwaitDone 1)); worker_side.
      * simpl. change RUNNING with (stage_lock Claimed).
        rewrite <- Hl, set_lock_same, list_insert_id; assumption.
      * intros j' Hne. simpl. apply calls_of_snoc_other. lia.
      * simpl. rewrite calls_of_snoc_same, Hcs. reflexivity.
  - (* waiting for Done *)
    rewrite (cas_wait_at_slot f _ b qs j q RUNNING DONE t Hf Hcas Hh Hq).
    right.
    destruct s; try discriminate Hc; rewrite Hl; simpl.
    match goal with
    | |- inv _ _ _ _ _ (<[_ := ?s']> _) (mkMachine (set_pc _ _ ?c' _) _ _ _) =>
        apply (inv_after_worker ph sigma m _ qs pv j q (AwaitDone t)
                 s' (stage_lock s') c')
    end; worker_side.
Qed.

(** A scheduler slot beyond the pool has no thread to run. *)
Lemma worker_step_none ph sigma m j :
  inv f n b final ph sigma m -> (n <= j)%nat -> worker_step j m = m.
Proof.
  intros Hinv Hj. unfold worker_step.
  rewrite lookup_ge_None_2; [reflexivity |].
  rewrite (inv_threads _ _ _ _ _ _ _ Hinv). assumption.
Qed.

(** Rebuilding the invariant after the driver has moved to phase [ph']
    without touching the memory. *)
Lemma inv_phase_change ph ph' sigma m prog' pc' :
  inv f n b final ph sigma m ->
  phase_pc n ph' (mkMachine (m_proc m) prog' pc' false) ->
  (forall pv cur, tasks_ok n final ph pv cur -> tasks_ok n final ph' pv cur) ->
  (forall j s, (j < n)%nat -> allowed ph j s = true -> allowed ph' j s = true) ->
  inv f n b final ph' sigma (mkMachine (m_proc m) prog' pc' false).
Proof.
  intros [Hfault Hcas Hths Hst Hph (qs & pv & Hpool & Htasks & Hslots)]
         Hph' Htk Hal.
  constructor; simpl; auto.
  exists qs, pv. split; [assumption |]. split; [auto |].
  intros j s Hs. destruct (Hslots j s Hs) as [Ha Hsl].
  split; [| assumption].
  apply Hal; [| assumption].
  apply lookup_lt_Some in Hs. lia.
Qed.

(** Rebuilding the invariant after the driver has swapped the lock of slot
    [i] and moved to phase [ph']. *)
Lemma inv_after_driver ph ph' sigma m p' (qs : list Queue) pv i q s s' prog' pc' :
  inv f n b final ph sigma m ->
  pool n b qs pv (m_proc m) ->
  tasks_ok n final ph' pv (task <$> qs) ->
  (forall j s, sigma !! j = Some s ->
               allowed ph j s = true /\ slot_at b qs (m_proc m) j s) ->
  sigma !! i = Some s ->
  qs !! i = Some q ->
  cas p' = cas (m_proc m) ->
  queues p' = queues (m_proc m) ->
  queue_count p' = queue_count (m_proc m) ->
  queue_pivot p' = queue_pivot (m_proc m) ->
  heap p' !! b = Some (<[i := set_lock q (stage_lock s')]> qs) ->
  threads p' = threads (m_proc m) ->
  calls p' = calls (m_proc m) ->
  (forall c, stage_pc s c = true -> stage_pc s' c = true) ->
  ran s' = ran s ->
  phase_pc n ph' (mkMachine p' prog' pc' false) ->
  (forall j s0, j <> i -> allowed ph j s0 = true -> allowed ph' j s0 = true) ->
  allowed ph' i s' = true ->
  inv f n b final ph' (<[i := s']> sigma) (mkMachine p' prog' pc' false).
Proof.
  intros [Hfault Hcas Hths Hst Hph _] Hpool Htasks Hslots Hs Hq
         Ecas Equeues Ecount Epivot Eheap Ethreads Ecalls Hpc Hran Hph' Hal Hal'.
  destruct Hpool as [Pq Ph Pl Pc Pi Pp Pv].
  assert (Hi : (i < n)%nat) by (apply lookup_lt_Some in Hs; lia).
  constructor; simpl.
  - reflexivity.
  - congruence.
  - congruence.
  - rewrite length_insert. assumption.
  - assumption.
  - exists (<[i := set_lock q (stage_lock s')]> qs), pv. split; [| split].
    + constructor; try congruence; try assumption.
      rewrite length_insert. assumption.
    + rewrite (fmap_task_set_lock qs i q _ Hq). assumption.
    + intros j s0 Hs0.
      destruct (decide (j = i)) as [-> | Hne].
      * rewrite list_lookup_insert_eq in Hs0 by lia. injection Hs0 as <-.
        split; [assumption |].
        destruct (Hslots i s Hs) as [_ (q0 & c & Hq0 & Hth & Hl & Hc & Hcs & Hfn)].
        assert (q0 = q) by congruence. subst q0.
        exists (set_lock q (stage_lock s')), c. simpl.
        rewrite Ethreads, Ecalls, list_lookup_insert_eq by lia.
        unfold stage_calls in *. rewrite Hran. auto 10.
      * rewrite list_lookup_insert_ne in Hs0 by congruence.
        destruct (Hslots j s0 Hs0) as [Ha Hsl].
        split; [auto |].
        apply (slot_at_other b qs _ (m_proc m) p'); auto.
        -- apply list_lookup_insert_ne. congruence.
        -- congruence.
        -- congruence.
Qed.

Lemma allowed_ready_other i j s :
  j <> i -> allowed (PReady i) j s = true -> allowed (PReady (S i)) j s = true.
Proof.
  intros Hne. simpl.
  destruct (Nat.ltb_spec j i), (Nat.ltb_spec j (S i)); auto; lia.
Qed.

Lemma allowed_sync_other i j s :
  j <> i -> allowed (PSync i) j s = true -> allowed (PSync (S i)) j s = true.
Proof.
  intros Hne. simpl.
  destruct (Nat.ltb_spec j i), (Nat.ltb_spec j (S i)); auto; lia.
Qed.

Lemma wrap_int_succ i :
  (i < n)%nat -> Z.of_nat n <= INT_MAX ->
  wrap_int (Z.of_nat i + 1) = Z.of_nat (S i).
Proof.
  intros Hi Hn. rewrite wrap_int_small; unfold INT_MAX in *; lia.
Qed.

(** A submission. *)
Lemma driver_add_inv t rest sigma m :
  inv f n b final (PAdd (t :: rest)) sigma m ->
  inv f n b final (PAdd rest) sigma (driver_step m).
Proof.
  intros [Hfault Hcas Hths Hst [Hpc Hprog] (qs & pv & Hpool & Htasks & Hslots)].
  unfold driver_step. rewrite Hpc, Hprog. cbn [round map app].
  destruct (add_task_pool n b qs pv (m_proc m) t Hpool) as (q & Hq & ->).
  constructor; simpl; auto.
  exists (<[pv := set_task q t]> qs), (next_pivot n pv).
  split; [apply pool_after_add; assumption |]. split.
  - simpl in Htasks. rewrite list_fmap_insert. exact Htasks.
  - intros j s Hs. destruct (Hslots j s Hs) as [Ha Hsl].
    split; [exact Ha |].
    destruct (decide (j = pv)) as [-> | Hne].
    + destruct Hsl as (q0 & c & Hq0 & Hth & Hl & Hc & Hcs & Hfn).
      assert (q0 = q) by congruence. subst q0.
      destruct s; try discriminate Ha.
      exists (set_task q t), c. simpl.
      rewrite list_lookup_insert_eq by (apply lookup_lt_Some in Hq; lia).
      repeat split; auto; discriminate.
    + apply (slot_at_other b qs _ (m_proc m)); auto.
      apply list_lookup_insert_ne. congruence.
Qed.

Ltac phase_side :=
  try solve
    [ simpl; repeat split;
      first [ lia | reflexivity | assumption | (eexists; reflexivity) ] ].

(** A step of the driver follows [dstep]. *)
Lemma driver_step_inv ph sigma m :
  inv f n b final ph sigma m ->
  inv f n b final (dstep n ph sigma).1 (dstep n ph sigma).2 (driver_step m).
Proof.
  intros Hinv.
  pose proof Hinv as [Hfault Hcas Hths Hst Hph (qs & pv & Hpool & Htasks & Hslots)].
  pose proof (pool_heap _ _ _ _ _ Hpool) as Hh.
  pose proof (pool_queues _ _ _ _ _ Hpool) as Hqs.
  pose proof (pool_count _ _ _ _ _ Hpool) as Hcount.
  pose proof (pool_int _ _ _ _ _ Hpool) as Hint.
  destruct ph as [[| t rest] | i | | i |]; simpl in Hph |- *.
  - (* the last submission is in: enter [ready] *)
    destruct Hph as [Hpc Hprog].
    unfold driver_step. rewrite Hpc, Hprog. simpl.
    apply (inv_phase_change (PAdd []) (PReady 0)); auto; phase_side.
  - apply (driver_add_inv t). assumption.
  - (* inside [ready] *)
    destruct Hph as (Hi & Hprog & t & Hpc).
    unfold driver_step, barrier_step. rewrite Hpc, Hcount.
    destruct (Nat.ltb_spec i n) as [Hlt | Hge];
      destruct (Z.ltb_spec (Z.of_nat i) (Z.of_nat n)); try lia; simpl.
    + destruct (lookup_lt_is_Some_2 sigma i) as [s Hs]; [lia |].
      destruct (Hslots i s Hs) as [Ha (q & c & Hq & Hth & Hl & Hc & Hcs & Hfn)].
      simpl in Ha. rewrite Nat.ltb_irrefl in Ha.
      destruct s; try discriminate Ha.
      rewrite Hqs, (cas_wait_at_slot f _ b qs i q IDLE READY t Hf Hcas Hh Hq).
      rewrite Hl. simpl. rewrite wrap_int_succ by assumption.
      apply (inv_after_driver (PReady i) (PReady (S i)) sigma m _ qs pv i q
               Fresh Released); worker_side; phase_side.
      * intros j s0. apply allowed_ready_other.
      * simpl. destruct (Nat.ltb_spec i (S i)); [reflexivity | lia].
    + apply (inv_phase_change (PReady i) PMid); auto; phase_side.
      intros j s Hj. simpl.
      destruct (Nat.ltb_spec j i); [auto | lia].
  - (* enter [synchronize] *)
    destruct Hph as [Hpc Hprog].
    unfold driver_step. rewrite Hpc, Hprog. simpl.
    apply (inv_phase_change PMid (PSync 0)); auto; phase_side.
  - (* inside [synchronize] *)
    destruct Hph as (Hi & Hprog & t & Hpc).
    unfold driver_step, barrier_step. rewrite Hpc, Hcount.
    destruct (Nat.ltb_spec i n) as [Hlt | Hge];
      destruct (Z.ltb_spec (Z.of_nat i) (Z.of_nat n)); try lia; simpl.
    + destruct (lookup_lt_is_Some_2 sigma i) as [s Hs]; [lia |].
      destruct (Hslots i s Hs) as [Ha (q & c & Hq & Hth & Hl & Hc & Hcs & Hfn)].
      simpl in Ha. rewrite Nat.ltb_irrefl in Ha.
      rewrite Hqs, (cas_wait_at_slot f _ b qs i q DONE IDLE t Hf Hcas Hh Hq).
      rewrite Hs, Hl.
      destruct s; try discriminate Ha; simpl.
      4: { (* the worker has finished: collect the slot *)
        rewrite wrap_int_succ by assumption.
        apply (inv_after_driver (PSync i) (PSync (S i)) sigma m _ qs pv i q
                 Finished Collected); worker_side; phase_side.
        - intros j s0. apply allowed_sync_other.
        - simpl. destruct (Nat.ltb_spec i (S i)); [reflexivity | lia]. }
      all: match type of Hs with
           | _ = Some ?s0 =>
               rewrite <- (list_insert_id sigma i s0 Hs);
               apply (inv_after_driver (PSync i) (PSync i) sigma m _ qs pv i q
                        s0 s0); worker_side; phase_side
           end.
      all: simpl; rewrite Nat.ltb_irrefl; reflexivity.
    + apply (inv_phase_change (PSync i) PDone); auto; phase_side.
      intros j s Hj. simpl.
      destruct (Nat.ltb_spec j i); [auto | lia].
  - (* the round is over *)
    destruct Hph as [Hpc Hprog].
    unfold driver_step. rewrite Hpc, Hprog. assumption.
Qed.

(** *** Safety: every step keeps the round on track or faults *)

Lemma step_safe who m :
  safe f n b final m -> safe f n b final (step who m).
Proof.
  intros [Hfault | (ph & sigma & Hinv)].
  - left. unfold step. rewrite Hfault. assumption.
  - unfold step. rewrite (inv_fault _ _ _ _ _ _ _ Hinv).
    destruct who as [| j].
    + right. eauto using driver_step_inv.
    + destruct (le_lt_dec n j) as [Hge | Hlt].
      * right. rewrite (worker_step_none ph sigma m j Hinv Hge). eauto.
      * destruct (lookup_lt_is_Some_2 sigma j) as [s Hs].
        { rewrite (inv_stages _ _ _ _ _ _ _ Hinv). assumption. }
        destruct (worker_step_inv ph sigma m j s Hinv Hs)
          as [(_ & Hfault' & _) | Hinv'].
        -- left. assumption.
        -- right. eauto.
Qed.

Lemma run_safe sched : forall m,
  safe f n b final m -> safe f n b final (run sched m).
Proof.
  induction sched as [| who sched IH]; intros m H; simpl.
  - assumption.
  - apply IH, step_safe, H.
Qed.

(** When every task can be called, no step faults. *)
Lemma step_on_track who m :
  callable final ->
  on_track f n b final m -> on_track f n b final (step who m).
Proof.
  intros Hcall (ph & sigma & Hinv).
  unfold step. rewrite (inv_fault _ _ _ _ _ _ _ Hinv).
  destruct who as [| j].
  - eexists _, _. apply driver_step_inv. eassumption.
  - destruct (le_lt_dec n j) as [Hge | Hlt].
    + rewrite (worker_step_none ph sigma m j Hinv Hge). eexists _, _. eassumption.
    + destruct (lookup_lt_is_Some_2 sigma j) as [s Hs].
      { rewrite (inv_stages _ _ _ _ _ _ _ Hinv). assumption. }
      destruct (worker_step_inv ph sigma m j s Hinv Hs)
        as [(_ & _ & t & Ht & Hnull) | Hinv'].
      * exfalso. apply (Hcall t); [| assumption].
        apply list_elem_of_lookup. eauto.
      * eexists _, _. eassumption.
Qed.

Lemma run_on_track sched : forall m,
  callable final ->
  on_track f n b final m -> on_track f n b final (run sched m).
Proof.
  induction sched as [| who sched IH]; intros m Hc H; simpl.
  - assumption.
  - apply IH; [assumption |]. apply step_on_track; assumption.
Qed.

(** *** The state when the driver has returned *)

Lemma returned_done ph sigma m :
  inv f n b final ph sigma m -> returned m = true -> ph = PDone.
Proof.
  intros [Hfault _ _ _ Hph _] Hret. unfold returned in Hret.
  rewrite Hfault in Hret. simpl in Hret.
  destruct ph as [rest | i | | i |]; simpl in Hph.
  - destruct Hph as [Hpc Hprog]. rewrite Hpc, Hprog in Hret.
    destruct rest; discriminate.
  - destruct Hph as (_ & _ & t & Hpc). rewrite Hpc in Hret. discriminate.
  - destruct Hph as [Hpc Hprog]. rewrite Hpc, Hprog in Hret. discriminate.
  - destruct Hph as (_ & _ & t & Hpc). rewrite Hpc in Hret. discriminate.
  - reflexivity.
Qed.

Lemma done_returned sigma m :
  inv f n b final PDone sigma m -> returned m = true.
Proof.
  intros [Hfault _ _ _ [Hpc Hprog] _]. unfold returned.
  rewrite Hfault, Hpc, Hprog. reflexivity.
Qed.

(** At the end of the round every lock is Idle and the worker of every
    slot has made exactly one call, of the task the slot holds. *)
Lemma done_post sigma m :
  inv f n b final PDone sigma m ->
  length (slots (m_proc m)) = n /\
  task <$> slots (m_proc m) = final /\
  (forall q, q ∈ slots (m_proc m) -> lock q = IDLE) /\
  (forall j t, final !! j = Some t ->
               calls_of (Z.of_nat j) (calls (m_proc m)) = [t] /\ func t <> 0).
Proof.
  intros [Hfault Hcas Hths Hst Hph (qs & pv & Hpool & Htasks & Hslots)].
  simpl in Htasks.
  assert (Hsl : slots (m_proc m) = qs).
  { unfold slots. rewrite (pool_queues _ _ _ _ _ Hpool), (pool_heap _ _ _ _ _ Hpool).
    reflexivity. }
  rewrite Hsl.
  assert (Hall : forall j q, qs !! j = Some q ->
            lock q = IDLE /\
            calls_of (Z.of_nat j) (calls (m_proc m)) = [task q] /\
            func (task q) <> 0).
  { intros j q Hq.
    destruct (lookup_lt_is_Some_2 sigma j) as [s Hs].
    { apply lookup_lt_Some in Hq. rewrite (pool_length _ _ _ _ _ Hpool) in Hq. lia. }
    destruct (Hslots j s Hs) as [Ha (q0 & c & Hq0 & Hth & Hl & Hc & Hcs & Hfn)].
    assert (q0 = q) by congruence. subst q0.
    simpl in Ha. destruct s; try discriminate Ha.
    auto. }
  split; [apply (pool_length _ _ _ _ _ Hpool) |].
  split; [assumption |]. split.
  - intros q Hq. apply list_elem_of_lookup in Hq. destruct Hq as [j Hq].
    apply (Hall j q Hq).
  - intros j t Ht. rewrite <- Htasks, list_lookup_fmap in Ht.
    destruct (qs !! j) as [q |] eqn:Hq; [| discriminate].
    injection Ht as <-. apply (Hall j q Hq).
Qed.

(** *** Liveness: some thread can always bring the round closer to its end *)

Lemma stage_of_slot ph sigma m i :
  inv f n b final ph sigma m -> (i < n)%nat ->
  exists s, sigma !! i = Some s /\ allowed ph i s = true.
Proof.
  intros [_ _ _ Hst _ (qs & pv & _ & _ & Hslots)] Hi.
  destruct (lookup_lt_is_Some_2 sigma i) as [s Hs]; [lia |].
  exists s. split; [assumption |]. apply (Hslots i s Hs).
Qed.

Lemma progress ph sigma m :
  callable final ->
  inv f n b final ph sigma m ->
  ph <> PDone ->
  exists who ph' sigma',
    inv f n b final ph' sigma' (step who m) /\
    (remaining ph' sigma' < remaining ph sigma)%nat.
Proof.
  intros Hcall Hinv Hph.
  assert (Hd : step 0 m = driver_step m).
  { unfold step. rewrite (inv_fault _ _ _ _ _ _ _ Hinv). reflexivity. }
  assert (Hw : forall j, step (S j) m = worker_step j m).
  { intros j. unfold step. rewrite (inv_fault _ _ _ _ _ _ _ Hinv). reflexivity. }
  pose proof (driver_step_inv ph sigma m Hinv) as Hdrv. rewrite <- Hd in Hdrv.
  destruct ph as [rest | i | | i |]; try congruence.
  - exists O, (dstep n (PAdd rest) sigma).1, (dstep n (PAdd rest) sigma).2.
    split; [exact Hdrv |].
    destruct rest; unfold remaining; simpl; lia.
  - exists O, (dstep n (PReady i) sigma).1, (dstep n (PReady i) sigma).2.
    split; [exact Hdrv |].
    unfold dstep. destruct (Nat.ltb_spec i n) as [Hlt | Hge].
    + destruct (stage_of_slot _ _ _ i Hinv Hlt) as (s & Hs & Ha).
      simpl in Ha. rewrite Nat.ltb_irrefl in Ha.
      destruct s; try discriminate Ha.
      pose proof (sum_stage_insert sigma i Fresh Released Hs) as Hsum.
      unfold remaining. simpl in *. lia.
    + unfold remaining. simpl. lia.
  - exists O, (dstep n PMid sigma).1, (dstep n PMid sigma).2.
    split; [exact Hdrv |]. unfold remaining. simpl. lia.
  - destruct (Nat.ltb_spec i n) as [Hlt | Hge].
    + destruct (stage_of_slot _ _ _ i Hinv Hlt) as (s & Hs & Ha).
      simpl in Ha. rewrite Nat.ltb_irrefl in Ha.
      destruct s; try discriminate Ha.
      4: { exists O, (dstep n (PSync i) sigma).1, (dstep n (PSync i) sigma).2.
           split; [exact Hdrv |].
           unfold dstep. destruct (Nat.ltb_spec i n); [| lia]. rewrite Hs.
           pose proof (sum_stage_insert sigma i Finished Collected Hs) as Hsum.
           unfold remaining. simpl in *. lia. }
      all: match type of Hs with
           | _ = Some ?s =>
               exists (S i), (PSync i), (<[i := wnext s]> sigma);
               rewrite Hw;
               destruct (worker_step_inv (PSync i) sigma m i s Hinv Hs)
                 as [(_ & _ & t & Ht & Hnull) | Hinv'];
               [ exfalso; apply (Hcall t); [| assumption];
                 apply list_elem_of_lookup; eauto
               | split; [exact Hinv' |];
                 pose proof (sum_stage_insert sigma i s (wnext s) Hs) as Hsum;
                 unfold remaining; simpl in *; lia ]
           end.
    + exists O, (dstep n (PSync i) sigma).1, (dstep n (PSync i) sigma).2.
      split; [exact Hdrv |].
      unfold dstep. destruct (Nat.ltb_spec i n); [lia |].
      unfold remaining. simpl. lia.
Qed.

Lemma completes k : forall ph sigma m,
  callable final ->
  (remaining ph sigma <= k)%nat ->
  inv f n b final ph sigma m ->
  exists sched, returned (run sched m) = true.
Proof.
  induction k as [| k IH]; intros ph sigma m Hcall Hk Hinv.
  - destruct ph as [rest | i | | i |];
      try (unfold remaining in Hk; simpl in Hk; lia).
    exists []. simpl. apply (done_returned sigma). assumption.
  - assert (Hdec : ph = PDone \/ ph <> PDone)
      by (destruct ph; (left; reflexivity) || (right; discriminate)).
    destruct Hdec as [-> | Hne].
    + exists []. simpl. apply (done_returned sigma). assumption.
    + destruct (progress ph sigma m Hcall Hinv Hne)
        as (who & ph' & sigma' & Hinv' & Hlt).
      destruct (IH ph' sigma' (step who m) Hcall) as [sched Hs];
        [lia | assumption |].
      exists (who :: sched). exact Hs.
Qed.

(** *** Liveness under fairness *)

(** Every step of the machine follows the abstract move of its thread. *)
Lemma step_astep who ph sigma m :
  callable final ->
  inv f n b final ph sigma m ->
  inv f n b final (astep n who (ph, sigma)).1 (astep n who (ph, sigma)).2
      (step who m).
Proof.
  intros Hcall Hinv. unfold step. rewrite (inv_fault _ _ _ _ _ _ _ Hinv).
  destruct who as [| j]; simpl.
  - apply driver_step_inv. assumption.
  - unfold wstep. destruct (sigma !! j) as [s |] eqn:Hs.
    + destruct (worker_step_inv ph sigma m j s Hinv Hs)
        as [(_ & _ & t & Ht & Hnull) | Hinv']; [| assumption].
      exfalso. apply (Hcall t); [| assumption].
      apply list_elem_of_lookup. eauto.
    + rewrite (worker_step_none ph sigma m j Hinv); [assumption |].
      apply lookup_ge_None_1 in Hs.
      rewrite (inv_stages _ _ _ _ _ _ _ Hinv) in Hs. assumption.
Qed.

(** An abstract move changes nothing or brings the round closer to its
    end. *)
Lemma astep_remaining who ph sigma m :
  inv f n b final ph sigma m ->
  astep n who (ph, sigma) = (ph, sigma) \/
  (remaining (astep n who (ph, sigma)).1 (astep n who (ph, sigma)).2
   < remaining ph sigma)%nat.
Proof.
  intros Hinv.
  destruct who as [| j]; simpl.
  - destruct ph as [[| t rest] | i | | i |]; simpl;
      try (right; unfold remaining; simpl; lia).
    + destruct (Nat.ltb_spec i n) as [Hlt | Hge];
        [| right; unfold remaining; simpl; lia].
      destruct (stage_of_slot _ _ _ i Hinv Hlt) as (s & Hs & Ha).
      simpl in Ha. rewrite Nat.ltb_irrefl in Ha.
      destruct s; try discriminate Ha.
      pose proof (sum_stage_insert sigma i Fresh Released Hs) as Hsum.
      right. unfold remaining. simpl in *. lia.
    + destruct (Nat.ltb_spec i n) as [Hlt | Hge];
        [| right; unfold remaining; simpl; lia].
      destruct (sigma !! i) as [[] |] eqn:Hs; auto.
      pose proof (sum_stage_insert sigma i Finished Collected Hs) as Hsum.
      right. unfold remaining. simpl in *. lia.
    + left. reflexivity.
  - unfold wstep. destruct (sigma !! j) as [s |] eqn:Hs; [| left; reflexivity].
    pose proof (sum_stage_insert sigma j s (wnext s) Hs) as Hsum.
    destruct s; simpl in *;
      try (left; rewrite list_insert_id by assumption; reflexivity);
      right; unfold remaining; simpl; lia.
Qed.

(** As long as the round is not over, some thread has a move that brings
    it closer to its end. *)
Lemma astep_enabled ph sigma m :
  inv f n b final ph sigma m ->
  ph <> PDone ->
  exists who,
    (who <= n)%nat /\
    (remaining (astep n who (ph, sigma)).1 (astep n who (ph, sigma)).2
     < remaining ph sigma)%nat.
Proof.
  intros Hinv Hne.
  assert (Hdrv : astep n 0 (ph, sigma) <> (ph, sigma) ->
                 exists who,
                   (who <= n)%nat /\
                   (remaining (astep n who (ph, sigma)).1 (astep n who (ph, sigma)).2
                    < remaining ph sigma)%nat).
  { intros H. exists O. split; [lia |].
    destruct (astep_remaining O ph sigma m Hinv); [contradiction | assumption]. }
  destruct ph as [[| t rest] | i | | i |]; try congruence;
    try (apply Hdrv; simpl; discriminate).
  - apply Hdrv. simpl. intros H. injection H as H.
    apply (f_equal length) in H. simpl in H. lia.
  - apply Hdrv. simpl.
    destruct (Nat.ltb_spec i n); [| discriminate].
    intros E. injection E as E _. lia.
  - destruct (Nat.ltb_spec i n) as [Hlt | Hge].
    + destruct (stage_of_slot _ _ _ i Hinv Hlt) as (s & Hs & Ha).
      simpl in Ha. rewrite Nat.ltb_irrefl in Ha.
      destruct s; try discriminate Ha.
      4: { apply Hdrv. simpl.
           destruct (Nat.ltb_spec i n); [| lia]. rewrite Hs.
           intros E. injection E as E _. lia. }
      all: exists (S i); split; [lia |];
        simpl; unfold wstep; rewrite Hs;
        match type of Hs with
        | _ = Some ?s =>
            pose proof (sum_stage_insert sigma i s (wnext s) Hs) as Hsum
        end;
        unfold remaining; simpl in *; lia.
    + apply Hdrv. simpl.
      destruct (Nat.ltb_spec i n); [lia | discriminate].
Qed.

(** Along any stretch of a schedule the round gets no further from its
    end, and strictly closer when a thread that can move it gets a step. *)
Lemma run_stretch blk : forall ph sigma m,
  callable final ->
  inv f n b final ph sigma m ->
  exists ph' sigma',
    inv f n b final ph' sigma' (run blk m) /\
    (remaining ph' sigma' <= remaining ph sigma)%nat /\
    (forall who,
        who ∈ blk ->
        (remaining (astep n who (ph, sigma)).1 (astep n who (ph, sigma)).2
         < remaining ph sigma)%nat ->
        (remaining ph' sigma' < remaining ph sigma)%nat).
Proof.
  induction blk as [| who blk IH]; intros ph sigma m Hcall Hinv.
  - exists ph, sigma. simpl. split; [assumption |]. split; [lia |].
    intros who Hin. inversion Hin.
  - pose proof (step_astep who ph sigma m Hcall Hinv) as Hinv1.
    destruct (IH _ _ _ Hcall Hinv1) as (ph' & sigma' & Hinv' & Hle & Hstrict).
    exists ph', sigma'. simpl. split; [assumption |].
    destruct (astep_remaining who ph sigma m Hinv) as [Heq | Hlt].
    + rewrite Heq in Hle, Hstrict. simpl in Hle, Hstrict.
      split; [assumption |].
      intros who0 Hin Hmove.
      apply elem_of_cons in Hin. destruct Hin as [-> | Hin].
      * rewrite Heq in Hmove. simpl in Hmove. lia.
      * apply (Hstrict who0); assumption.
    + split; [lia |]. intros who0 _ _. lia.
Qed.

Lemma done_remaining sigma m :
  inv f n b final PDone sigma m -> remaining PDone sigma = 0%nat.
Proof.
  intros [_ _ _ _ _ (qs & pv & _ & _ & Hslots)].
  assert (Hall : Forall (fun s => s = Collected) sigma).
  { apply Forall_lookup. intros j s Hs.
    destruct (Hslots j s Hs) as [Ha _].
    destruct s; try discriminate Ha. reflexivity. }
  unfold remaining. simpl. clear Hslots.
  induction Hall as [| s sigma' -> _ IH]; simpl; auto.
Qed.

Lemma remaining_zero ph sigma :
  remaining ph sigma = 0%nat -> ph = PDone.
Proof.
  unfold remaining. destruct ph; simpl; intros H; try lia. reflexivity.
Qed.

(** Once the driver has returned, it stays returned. *)
Lemma run_done sched : forall sigma m,
  callable final ->
  inv f n b final PDone sigma m ->
  returned (run sched m) = true.
Proof.
  intros sigma m Hcall Hinv.
  destruct (run_stretch sched PDone sigma m Hcall Hinv)
    as (ph' & sigma' & Hinv' & Hle & _).
  rewrite (done_remaining sigma m Hinv) in Hle.
  assert (ph' = PDone) as -> by (apply (remaining_zero ph' sigma'); lia).
  apply (done_returned sigma'). assumption.
Qed.

(** After as many stretches as the round has steps left, each giving every
    thread a turn, the driver has returned. *)
Lemma run_fair blocks : forall ph sigma m,
  callable final ->
  inv f n b final ph sigma m ->
  Forall (covers n) blocks ->
  (remaining ph sigma <= length blocks)%nat ->
  returned (run (concat blocks) m) = true.
Proof.
  induction blocks as [| blk blocks IH]; intros ph sigma m Hcall Hinv Hfair Hlen.
  - simpl in *.
    assert (ph = PDone) as -> by (apply (remaining_zero ph sigma); lia).
    apply (done_returned sigma). assumption.
  - simpl. rewrite run_app.
    apply Forall_cons in Hfair. destruct Hfair as [Hblk Hfair].
    destruct (run_stretch blk ph sigma m Hcall Hinv)
      as (ph' & sigma' & Hinv' & Hle & Hstrict).
    apply (IH ph' sigma'); auto.
    assert (Hdec : ph = PDone \/ ph <> PDone)
      by (destruct ph; (left; reflexivity) || (right; discriminate)).
    destruct Hdec as [-> | Hne].
    + rewrite (done_remaining sigma m Hinv) in Hle. lia.
    + destruct (astep_enabled ph sigma m Hinv Hne) as (who & Hwho & Hmove).
      specialize (Hstrict who (Hblk who Hwho) Hmove).
      simpl in Hlen. lia.
Qed.

End Round.

(** A round starts on track. *)
Lemma start_inv f n b qs pv p ts :
  quiescent f n b qs pv p ->
  inv f n b (fill n pv ts (task <$> qs)) (PAdd ts) (replicate n Fresh)
      (start p ts).
Proof.
  intros [Hpool Hcas Hcalls Hths Hslots].
  constructor; simpl; auto.
  - apply length_replicate.
  - exists qs, pv. split; [assumption |]. split; [reflexivity |].
    intros j s Hs. apply lookup_replicate in Hs. destruct Hs as [-> Hj].
    split; [reflexivity |].
    destruct (Hslots j Hj) as (q & t & Hq & Hl & Hth).
    exists q, (AwaitReady t). rewrite Hcalls. simpl.
    repeat split; auto; discriminate.
Qed.

Lemma remaining_start n ts :
  remaining (PAdd ts) (replicate n Fresh) = round_bound n (length ts).
Proof.
  unfold remaining, round_bound. simpl. f_equal.
  induction n as [| n IH]; simpl; [reflexivity |].
  unfold fmap in IH. rewrite IH. lia.
Qed.

(** C1, as the code has it.  Take a pool at rest behind a valid provider,
    with [n] slots and the cursor at [pv], and a round that submits [k <= n]
    tasks, such that once they are stored every slot holds a task whose
    function is not null (the round fills every slot, or the slots it
    leaves alone hold tasks of earlier rounds).  Then
    - whatever the interleaving of the driver and the workers so far, the
      round can still be completed;
    - under every schedule made of [k + 4 + 5 n] stretches or more, each
      giving the driver and every worker at least one step,
      [synchronize] has returned;
    - whenever [synchronize] has returned, every lock is Idle, the worker
      of slot [(pv + i) mod n] has made exactly one call, that of the
      [i]-th submitted task with its stored arguments, and the worker of
      every slot has called the task it holds exactly once. *)
Theorem round_executes_every_task :
  forall (f : cas_function_t) (n : nat) (b : N) (qs : list Queue)
         (pv : nat) (p : proc) (ts : list Task),
    cas_valid f ->
    quiescent f n b qs pv p ->
    (length ts <= n)%nat ->
    callable (fill n pv ts (task <$> qs)) ->
    (forall sched, exists more,
        returned (run (sched ++ more) (start p ts)) = true) /\
    (forall blocks,
        Forall (covers n) blocks ->
        (round_bound n (length ts) <= length blocks)%nat ->
        returned (run (concat blocks) (start p ts)) = true) /\
    (forall sched,
        returned (run sched (start p ts)) = true ->
        let p' := m_proc (run sched (start p ts)) in
        length (slots p') = n /\
        (forall q, q ∈ slots p' -> lock q = IDLE) /\
        (forall (i : nat) (t : Task),
            ts !! i = Some t ->
            calls_of (Z.of_nat ((pv + i) mod n)) (calls p') = [t]) /\
        (forall (j : nat) (q : Queue),
            slots p' !! j = Some q ->
            calls_of (Z.of_nat j) (calls p') = [task q])).
Proof.
  intros f n b qs pv p ts Hf Hq Hlen Hcall.
  pose proof (start_inv f n b qs pv p ts Hq) as Hstart.
  set (final := fill n pv ts (task <$> qs)) in *.
  split; [| split].
  - intros sched.
    destruct (run_on_track f Hf n b final sched (start p ts) Hcall)
      as (ph & sigma & Hinv); [eexists _, _; exact Hstart |].
    destruct (completes f Hf n b final _ ph sigma _ Hcall (le_n _) Hinv)
      as [more Hmore].
    exists more. rewrite run_app. exact Hmore.
  - intros blocks Hfair Hbound.
    apply (run_fair f Hf n b final blocks _ _ _ Hcall Hstart Hfair).
    rewrite remaining_start. exact Hbound.
  - intros sched Hret p'.
    destruct (run_safe f Hf n b final sched (start p ts))
      as [Hfault | (ph & sigma & Hinv)].
    { right. eexists _, _. exact Hstart. }
    { unfold returned in Hret. rewrite Hfault in Hret. discriminate. }
    pose proof (returned_done f n b final ph sigma _ Hinv Hret) as ->.
    destruct (done_post f n b final sigma _ Hinv) as (Hl & Ht & Hidle & Hcalls).
    fold p' in Hl, Ht, Hidle, Hcalls.
    split; [assumption |]. split; [assumption |]. split.
    + intros i t Hi.
      apply (Hcalls ((pv + i) mod n)%nat t).
      unfold final.
      apply fill_lookup; auto.
      * rewrite length_fmap. apply (pool_length _ _ _ _ _ (q_pool _ _ _ _ _ _ Hq)).
      * apply (pool_cursor _ _ _ _ _ (q_pool _ _ _ _ _ _ Hq)).
    + intros j q Hj.
      apply (Hcalls j (task q)).
      rewrite <- Ht, list_lookup_fmap, Hj. reflexivity.
Qed.

(** The pool of two slots just launched is at rest. *)
Lemma launched_2_quiescent :
  quiescent cmpxchg 2 1%N [zero_Queue; zero_Queue] 0 launched_2.
Proof.
  constructor.
  - constructor; try reflexivity.
    + unfold INT_MAX. simpl. lia.
    + lia.
  - reflexivity.
  - reflexivity.
  - reflexivity.
  - intros j Hj.
    destruct j as [| [| j]]; [| | lia];
      exists zero_Queue, 1; repeat split; reflexivity.
Qed.

(** C1 as stated fails.  On a pool of two slots just launched, a round
    that submits one task never completes: the second slot still holds the
    null function the zero-fill left there, [ready] releases it all the
    same, and its worker calls through it.  Under no schedule does
    [synchronize] return; under the schedule below the process has
    faulted before the submitted task was called at all. *)
Lemma round_with_empty_slot_never_returns :
  cas_valid cmpxchg /\
  launched 2 = Ok launched_2 /\
  (forall sched,
      returned (run sched (start launched_2 [sample_task 1])) = false) /\
  m_fault (run [0; 0; 0; 0; 2; 2]%nat (start launched_2 [sample_task 1])) = true /\
  calls (m_proc (run [0; 0; 0; 0; 2; 2]%nat (start launched_2 [sample_task 1]))) = [].
Proof.
  split; [exact cmpxchg_valid |]. split; [reflexivity |].
  split; [| split; reflexivity].
  intros sched.
  destruct (returned (run sched (start launched_2 [sample_task 1]))) eqn:Hret;
    [exfalso | reflexivity].
  pose proof (start_inv cmpxchg 2 1%N _ 0 _ [sample_task 1] launched_2_quiescent)
    as Hstart.
  destruct (run_safe cmpxchg cmpxchg_valid 2 1%N _ sched _
              (or_intror (ex_intro _ _ (ex_intro _ _ Hstart))))
    as [Hfault | (ph & sigma & Hinv)].
  - unfold returned in Hret. rewrite Hfault in Hret. discriminate.
  - pose proof (returned_done _ _ _ _ ph sigma _ Hinv Hret) as ->.
    destruct (done_post _ _ _ _ sigma _ Hinv) as (_ & _ & _ & Hcalls).
    destruct (Hcalls 1%nat zero_Task) as [_ Hnull]; [reflexivity |].
    apply Hnull. reflexivity.
Qed.

(** A round that fills both slots of the pool just launched. *)
Lemma round_executes_every_task_witness :
  (forall sched, exists more,
      returned (run (sched ++ more)
                  (start launched_2 [sample_task 1; sample_task 2])) = true) /\
  (forall blocks,
      Forall (covers 2) blocks ->
      (round_bound 2 (length [sample_task 1; sample_task 2]) <= length blocks)%nat ->
      returned (run (concat blocks)
                  (start launched_2 [sample_task 1; sample_task 2])) = true) /\
  (forall sched,
      returned (run sched (start launched_2 [sample_task 1; sample_task 2])) = true ->
      let p' := m_proc (run sched (start launched_2 [sample_task 1; sample_task 2])) in
      length (slots p') = 2%nat /\
      (forall q, q ∈ slots p' -> lock q = IDLE) /\
      (forall (i : nat) (t : Task),
          [sample_task 1; sample_task 2] !! i = Some t ->
          calls_of (Z.of_nat ((0 + i) mod 2)) (calls p') = [t]) /\
      (forall (j : nat) (q : Queue),
          slots p' !! j = Some q ->
          calls_of (Z.of_nat j) (calls p') = [task q])).
Proof.
  apply (round_executes_every_task cmpxchg 2 1%N [zero_Queue; zero_Queue] 0
           launched_2 [sample_task 1; sample_task 2]).
  - exact cmpxchg_valid.
  - exact launched_2_quiescent.
  - simpl. lia.
  - intros t Ht. simpl in Ht.
    apply list_elem_of_In in Ht. simpl in Ht.
    destruct Ht as [<- | [<- | []]]; simpl; lia.
Defined.

(** The round of the witness, scheduled: both tasks run once, in the order
    the scheduler lets the workers go. *)
Example round_2_scheduled :
  let m := run [0; 0; 0; 0; 0; 0; 2; 2; 1; 1; 1; 2; 0; 0; 0; 0; 0]%nat
             (start launched_2 [sample_task 1; sample_task 2]) in
  returned m = true /\
  calls (m_proc m) = [(1, sample_task 2); (0, sample_task 1)] /\
  lock <$> slots (m_proc m) = [IDLE; IDLE].
Proof. repeat split. Qed.

(** ** The cycle of the states *)

Lemma lock_succ_refl a : lock_succ a a.
Proof. destruct a; simpl; auto. Qed.

(** Storing into a slot moves the lock of that slot only. *)
Lemma lock_at_put p b0 (qs : list Queue) i q q' b j :
  heap p !! b0 = Some qs -> qs !! i = Some q ->
  lock_at (put b0 qs (Z.of_nat i) q' p) b j
  = if decide (b = b0 /\ j = i) then Some (lock q') else lock_at p b j.
Proof.
  intros Hh Hq. unfold lock_at, put. simpl. rewrite Nat2Z.id.
  destruct (decide (b = b0)) as [-> | Hb].
  - rewrite lookup_insert_eq, Hh.
    destruct (decide (j = i)) as [-> | Hj].
    + rewrite list_lookup_insert_eq by (apply lookup_lt_Some in Hq; lia).
      rewrite decide_True by auto. reflexivity.
    + rewrite list_lookup_insert_ne by congruence.
      rewrite decide_False by tauto. reflexivity.
  - rewrite lookup_insert_ne by congruence.
    rewrite decide_False by tauto. reflexivity.
Qed.

Lemma deref_inv p base i b0 qs q :
  deref p base i = Ok (b0, qs, q) ->
  base = Some b0 /\ heap p !! b0 = Some qs /\
  qs !! Z.to_nat i = Some q /\ i = Z.of_nat (Z.to_nat i).
Proof.
  unfold deref. intros H.
  destruct base as [b1 |]; [| discriminate].
  destruct (heap p !! b1) as [qs1 |] eqn:Hh; [| discriminate].
  destruct (Z.leb_spec 0 i); [| discriminate].
  destruct (qs1 !! Z.to_nat i) as [q1 |] eqn:Hq; [| discriminate].
  injection H as <- <- <-. repeat split; auto. lia.
Qed.

(** One iteration of [cas_wait] from a state to its successor moves the
    lock it waits on to that successor, or leaves every lock alone. *)
Lemma cas_wait_at_cycle p base i old repl t p' r b j :
  provider_ok p ->
  repl = next_state old -> old <> next_state old ->
  cas_wait_at p base i old repl t = Ok (p', r) ->
  lock_succ (lock_at p b j) (lock_at p' b j) /\ cas p' = cas p.
Proof.
  unfold provider_ok, cas_wait_at. intros Hok Hrepl Hne H.
  destruct (cas p) as [f |] eqn:Hcas.
  - destruct (deref p base i) as [[[b0 qs] q] |] eqn:Hd; [| discriminate].
    apply deref_inv in Hd. destruct Hd as (-> & Hh & Hq & Hi).
    unfold cas_wait_iter in H. rewrite Hok in H.
    assert (Hp' : p' = put b0 qs i
                         (set_lock q (if lock q =? old then repl else lock q)) p)
      by (destruct (lock q =? old); injection H as <- _; reflexivity).
    subst p'. split; [| exact Hcas].
    rewrite Hi, (lock_at_put p b0 qs (Z.to_nat i) q _ b j Hh Hq).
    destruct (decide (b = b0 /\ j = Z.to_nat i)) as [[-> ->] | _];
      [| apply lock_succ_refl].
    unfold lock_at. rewrite Hh, Hq. simpl.
    destruct (Z.eqb_spec (lock q) old) as [-> | _]; auto.
  - simpl in H. injection H as <- _.
    split; [apply lock_succ_refl | exact Hcas].
Qed.

Lemma add_task_locks t p p' b j :
  add_task t p = Ok p' ->
  lock_at p' b j = lock_at p b j /\ cas p' = cas p.
Proof.
  unfold add_task. intros H.
  destruct (deref p (queues p) (queue_pivot p)) as [[[b0 qs] q] |] eqn:Hd;
    [| discriminate].
  apply deref_inv in Hd. destruct Hd as (_ & Hh & Hq & Hi).
  injection H as <-. split; [| reflexivity].
  unfold set_queue_pivot, lock_at at 1. simpl.
  change (match <[b0 := <[Z.to_nat (queue_pivot p) := set_task q t]> qs]> (heap p) !! b with
          | Some qs0 => lock <$> qs0 !! j
          | None => None
          end)
    with (lock_at (put b0 qs (queue_pivot p) (set_task q t) p) b j).
  rewrite Hi at 1. rewrite (lock_at_put p b0 qs _ q _ b j Hh Hq).
  destruct (decide (b = b0 /\ j = Z.to_nat (queue_pivot p))) as [[-> ->] |];
    [| reflexivity].
  unfold lock_at. rewrite Hh, Hq. reflexivity.
Qed.

Lemma barrier_step_cycle mk old repl i t m b j :
  provider_ok (m_proc m) ->
  repl = next_state old -> old <> next_state old ->
  let m' := barrier_step mk old repl i t m in
  lock_succ (lock_at (m_proc m) b j) (lock_at (m_proc m') b j) /\
  cas (m_proc m') = cas (m_proc m).
Proof.
  intros Hok Hrepl Hne. unfold barrier_step.
  destruct (i <? queue_count (m_proc m));
    [| split; [apply lock_succ_refl | reflexivity]].
  destruct (cas_wait_at (m_proc m) (queues (m_proc m)) i old repl t)
    as [[p' [t' |]] |] eqn:H; simpl;
    try (split; [apply lock_succ_refl | reflexivity]);
    apply (cas_wait_at_cycle _ _ _ _ _ _ _ _ b j Hok Hrepl Hne H).
Qed.

(** Every step of the machine moves every lock along the cycle, and leaves
    the provider in place. *)
Lemma step_cycle who m b j :
  provider_ok (m_proc m) ->
  lock_succ (lock_at (m_proc m) b j) (lock_at (m_proc (step who m)) b j) /\
  cas (m_proc (step who m)) = cas (m_proc m).
Proof.
  intros Hok. unfold step.
  destruct (m_fault m); [split; [apply lock_succ_refl | reflexivity] |].
  destruct who as [| tid].
  - (* the driver *)
    unfold driver_step.
    destruct (m_pc m) as [| i t | i t].
    + destruct (m_prog m) as [| [t | |] rest]; simpl;
        try (split; [apply lock_succ_refl | reflexivity]).
      destruct (add_task t (m_proc m)) as [p' |] eqn:H; simpl;
        [| split; [apply lock_succ_refl | reflexivity]].
      destruct (add_task_locks t _ _ b j H) as [-> ->].
      split; [apply lock_succ_refl | reflexivity].
    + apply barrier_step_cycle; [assumption | reflexivity | discriminate].
    + apply barrier_step_cycle; [assumption | reflexivity | discriminate].
  - (* a worker *)
    unfold worker_step.
    destruct (threads (m_proc m) !! tid) as [th |];
      [| split; [apply lock_succ_refl | reflexivity]].
    destruct (th_pc th) as [t | | t].
    + destruct (cas_wait_at (m_proc m) (Some (th_block th)) (th_index th)
                  READY RUNNING t) as [[p' [t' |]] |] eqn:H; simpl;
        try (split; [apply lock_succ_refl | reflexivity]);
        apply (cas_wait_at_cycle _ _ _ _ _ _ _ _ b j Hok) in H;
        try reflexivity; try discriminate; exact H.
    + destruct (deref (m_proc m) (Some (th_block th)) (th_index th))
        as [[[b0 qs] q] |]; simpl;
        [| split; [apply lock_succ_refl | reflexivity]].
      destruct (func (task q) =? 0); simpl;
        split; try apply lock_succ_refl; reflexivity.
    + destruct (cas_wait_at (m_proc m) (Some (th_block th)) (th_index th)
                  RUNNING DONE t) as [[p' [t' |]] |] eqn:H; simpl;
        try (split; [apply lock_succ_refl | reflexivity]);
        apply (cas_wait_at_cycle _ _ _ _ _ _ _ _ b j Hok) in H;
        try reflexivity; try discriminate; exact H.
Qed.

Lemma history_cycle b j sched : forall m,
  provider_ok (m_proc m) -> cyclic (lock_history b j sched m).
Proof.
  induction sched as [| who sched IH]; intros m Hok.
  - simpl. exact I.
  - destruct (step_cycle who m b j Hok) as [Hs Hc].
    assert (Hok' : provider_ok (m_proc (step who m)))
      by (unfold provider_ok in *; rewrite Hc; exact Hok).
    specialize (IH (step who m) Hok').
    cbn [lock_history]. destruct sched as [| who' sched]; simpl in *; auto.
Qed.

(** C3.  Behind a valid provider (or none), no step of the driver inside
    [ready] or [synchronize], of [add_task], or of a worker moves the lock
    of any slot anywhere but to the successor of its state in the cycle
    Idle, Ready, Running, Done, Idle; hence along every schedule the
    successive values of the lock of a slot stay or advance by one state of
    that cycle, whatever state the machine starts from. *)
Theorem lock_transitions_follow_cycle :
  forall (m : machine) (b : N) (j : nat),
    provider_ok (m_proc m) ->
    next_state IDLE = READY /\ next_state READY = RUNNING /\
    next_state RUNNING = DONE /\ next_state DONE = IDLE /\
    (forall who,
        lock_succ (lock_at (m_proc m) b j)
                  (lock_at (m_proc (step who m)) b j)) /\
    (forall sched, cyclic (lock_history b j sched m)).
Proof.
  intros m b j Hok.
  repeat split; try reflexivity.
  - intros who. apply (step_cycle who m b j Hok).
  - intros sched. apply history_cycle. exact Hok.
Qed.

(** ** The theorems at work on the pool of two slots *)

Lemma add_task_round_robin_witness :
  exists p' qs',
    add_tasks [sample_task 1; sample_task 2] launched_2 = Ok p' /\
    queues p' = Some 1%N /\
    heap p' !! 1%N = Some qs' /\
    length qs' = length [zero_Queue; zero_Queue] /\
    (forall (i : nat) (t : Task),
        [sample_task 1; sample_task 2] !! i = Some t ->
        task <$> qs' !! (i mod length [zero_Queue; zero_Queue])%nat = Some t) /\
    lock <$> qs' = lock <$> [zero_Queue; zero_Queue] /\
    queue_pivot p' = 0.
Proof.
  apply (add_task_round_robin launched_2 1%N [zero_Queue; zero_Queue]
           [sample_task 1; sample_task 2]); try reflexivity.
  unfold INT_MAX. simpl. lia.
Defined.

Lemma lock_transitions_follow_cycle_witness :
  next_state IDLE = READY /\ next_state READY = RUNNING /\
  next_state RUNNING = DONE /\ next_state DONE = IDLE /\
  (forall who,
      lock_succ
        (lock_at (m_proc (start launched_2 [sample_task 1; sample_task 2])) 1%N 0)
        (lock_at (m_proc (step who (start launched_2 [sample_task 1; sample_task 2])))
                 1%N 0)) /\
  (forall sched,
      cyclic (lock_history 1%N 0 sched
                (start launched_2 [sample_task 1; sample_task 2]))).
Proof.
  apply (lock_transitions_follow_cycle
           (start launched_2 [sample_task 1; sample_task 2]) 1%N 0%nat).
  unfold provider_ok. simpl. exact cmpxchg_valid.
Defined.

(** The lock of the first slot along the schedule of [round_2_scheduled]. *)
Example lock_history_round_2 :
  lock_history 1%N 0
    [0; 0; 0; 0; 0; 0; 2; 2; 1; 1; 1; 2; 0; 0; 0; 0]%nat
    (start launched_2 [sample_task 1; sample_task 2])
  = map Some [IDLE; IDLE; IDLE; IDLE; READY; READY; READY; READY; READY;
              RUNNING; RUNNING; DONE; DONE; DONE; IDLE; IDLE; IDLE].
Proof. reflexivity. Qed.

Lemma launch_threads_idempotent_witness :
  launch_threads (Some 2%N) (fun _ => true) 5 launched_2 = Ok launched_2.
Proof.
  apply (launch_threads_idempotent (Some 2%N) (fun _ => true) 5 launched_2 1%N).
  reflexivity.
Defined.


(** A launch of zero slots whose allocation yields the null pointer stores
    nothing and comes back. *)
Example launch_zero_slots :
  launch_threads None (fun _ => true) 0 initial = Ok initial.
Proof. reflexivity. Qed.

Lemma reset_after_fork_frees_witness :
  exists p',
    reset_after_fork launched_2 = Ok p' /\
    queues p' = None /\
    heap p' !! 1%N = None /\
    (forall b', b' <> 1%N -> heap p' !! b' = heap launched_2 !! b') /\
    cas p' = cas launched_2 /\ queue_count p' = queue_count launched_2 /\
    queue_pivot p' = queue_pivot launched_2 /\ threads p' = threads launched_2 /\
    atfork p' = atfork launched_2 /\ calls p' = calls launched_2.
Proof.
  apply (reset_after_fork_frees launched_2 1%N [zero_Queue; zero_Queue]);
    reflexivity.
Defined.

(** C6 as stated fails.  On the pool of two slots just launched,
    [reset_after_fork] clears the handle and the block that held the slots
    is gone from the heap: it is not true that the storage is left
    allocated. *)
Lemma reset_after_fork_releases_storage :
  queues launched_2 = Some 1%N /\
  heap launched_2 !! 1%N = Some [zero_Queue; zero_Queue] /\
  ~ (forall p',
        reset_after_fork launched_2 = Ok p' ->
        queues p' = None /\ heap p' !! 1%N = Some [zero_Queue; zero_Queue]).
Proof.
  split; [reflexivity |]. split; [reflexivity |].
  intros H.
  destruct (H (set_queues None (set_heap (delete 1%N (heap launched_2)) launched_2)))
    as [_ Hheap]; [reflexivity |].
  simpl in Hheap. rewrite lookup_delete_eq in Hheap. discriminate.
Qed.

(** The child of a fork of that process: no worker, no pool, no storage. *)
Example fork_child_launched_2 :
  exists p',
    fork_child launched_2 = Ok p' /\
    threads p' = [] /\ queues p' = None /\ heap p' !! 1%N = None.
Proof. eexists. repeat split. Qed.

(** ** More about the waiter *)

(** Against a valid provider the call returns at the first attempt that
    finds the expected value, and not before. *)
Lemma cas_wait_loop_hit f env old repl k : forall n it cell timeout,
  cas_valid f ->
  (k < n)%nat ->
  env_only k env it cell = old ->
  (forall i, (i < k)%nat -> env_only i env it cell <> old) ->
  let r := cas_wait_loop n (Some f) env old repl it cell timeout in
  wr_returned r = true /\ wr_cell r = repl /\ length (wr_naps r) = k.
Proof.
  induction k as [| k IH]; intros n it cell timeout Hf Hn Hhit Hmiss;
    (destruct n as [| n]; [lia |]); cbn [cas_wait_loop];
    unfold cas_wait_iter; rewrite Hf.
  - simpl in Hhit. subst old. rewrite Z.eqb_refl. auto.
  - pose proof (Hmiss O ltac:(lia)) as H0. simpl in H0.
    destruct (Z.eqb_spec cell old); [contradiction |].
    destruct (IH n (S it) (env it cell) (backoff timeout) Hf) as (Hr & Hc & Hl).
    + lia.
    + exact Hhit.
    + intros i Hi. apply (Hmiss (S i)). lia.
    + simpl. rewrite Hl. auto.
Qed.

Lemma cas_wait_loop_miss f env old repl n : forall it cell timeout,
  cas_valid f ->
  (forall i, (i < n)%nat -> env_only i env it cell <> old) ->
  let r := cas_wait_loop n (Some f) env old repl it cell timeout in
  wr_returned r = false /\ wr_cell r = env_only n env it cell /\
  length (wr_naps r) = n.
Proof.
  induction n as [| n IH]; intros it cell timeout Hf Hmiss; cbn [cas_wait_loop].
  - simpl. auto.
  - unfold cas_wait_iter. rewrite Hf.
    pose proof (Hmiss O ltac:(lia)) as H0. simpl in H0.
    destruct (Z.eqb_spec cell old); [contradiction |].
    destruct (IH (S it) (env it cell) (backoff timeout) Hf) as (Hr & Hc & Hl).
    + intros i Hi. apply (Hmiss (S i)). lia.
    + simpl. rewrite Hl. auto.
Qed.

Lemma cas_wait_loop_returned f env old repl n : forall it cell timeout,
  cas_valid f ->
  let r := cas_wait_loop n (Some f) env old repl it cell timeout in
  wr_returned r = true ->
  wr_cell r = repl /\
  env_only (length (wr_naps r)) env it cell = old /\
  (length (wr_naps r) < n)%nat.
Proof.
  induction n as [| n IH]; intros it cell timeout Hf; cbn [cas_wait_loop].
  - simpl. discriminate.
  - unfold cas_wait_iter. rewrite Hf.
    destruct (Z.eqb_spec cell old) as [-> | Hne]; simpl.
    + intros _. repeat split. lia.
    + intros Hr. destruct (IH (S it) (env it cell) (backoff timeout) Hf Hr)
        as (Hc & He & Hl).
      repeat split; auto. lia.
Qed.

(** X1.  The contract of [cas_wait] behind a valid provider.  Let the other
    threads drive the cell through the values [env_only i env 0 cell].  If
    the [k]-th of them is the first to equal [old], a call observed for
    more than [k] iterations has returned after exactly [k] naps and left
    [repl] in the cell; as long as none equals [old] the call has not
    returned and has written nothing; and a call that has returned has
    always found [old] and left [repl]. *)
Theorem cas_wait_returns_at_first_match :
  forall (f : cas_function_t) (env : nat -> Z -> Z) (old repl cell : Z)
         (n : nat),
    cas_valid f ->
    (forall k,
        (k < n)%nat ->
        env_only k env 0 cell = old ->
        (forall i, (i < k)%nat -> env_only i env 0 cell <> old) ->
        wr_returned (cas_wait n (Some f) env old repl cell) = true /\
        wr_cell (cas_wait n (Some f) env old repl cell) = repl /\
        length (wr_naps (cas_wait n (Some f) env old repl cell)) = k) /\
    ((forall i, (i < n)%nat -> env_only i env 0 cell <> old) ->
     wr_returned (cas_wait n (Some f) env old repl cell) = false /\
     wr_cell (cas_wait n (Some f) env old repl cell) = env_only n env 0 cell /\
     length (wr_naps (cas_wait n (Some f) env old repl cell)) = n) /\
    (wr_returned (cas_wait n (Some f) env old repl cell) = true ->
     wr_cell (cas_wait n (Some f) env old repl cell) = repl /\
     env_only (length (wr_naps (cas_wait n (Some f) env old repl cell)))
              env 0 cell = old).
Proof.
  intros f env old repl cell n Hf. unfold cas_wait.
  split; [| split].
  - intros k Hk Hhit Hmiss.
    apply (cas_wait_loop_hit f env old repl k n 0%nat cell 1 Hf Hk Hhit Hmiss).
  - intros Hmiss.
    apply (cas_wait_loop_miss f env old repl n 0%nat cell 1 Hf Hmiss).
  - intros Hr.
    destruct (cas_wait_loop_returned f env old repl n 0%nat cell 1 Hf Hr)
      as (Hc & He & _).
    auto.
Qed.

Lemma cas_wait_returns_at_first_match_witness :
  (forall k,
      (k < 10)%nat ->
      env_only k (released_at 2) 0 IDLE = READY ->
      (forall i, (i < k)%nat -> env_only i (released_at 2) 0 IDLE <> READY) ->
      wr_returned (cas_wait 10 (Some cmpxchg) (released_at 2) READY RUNNING IDLE)
      = true /\
      wr_cell (cas_wait 10 (Some cmpxchg) (released_at 2) READY RUNNING IDLE)
      = RUNNING /\
      length (wr_naps (cas_wait 10 (Some cmpxchg) (released_at 2)
                         READY RUNNING IDLE)) = k) /\
  ((forall i, (i < 10)%nat -> env_only i (released_at 2) 0 IDLE <> READY) ->
   wr_returned (cas_wait 10 (Some cmpxchg) (released_at 2) READY RUNNING IDLE)
   = false /\
   wr_cell (cas_wait 10 (Some cmpxchg) (released_at 2) READY RUNNING IDLE)
   = env_only 10 (released_at 2) 0 IDLE /\
   length (wr_naps (cas_wait 10 (Some cmpxchg) (released_at 2)
                      READY RUNNING IDLE)) = 10%nat) /\
  (wr_returned (cas_wait 10 (Some cmpxchg) (released_at 2) READY RUNNING IDLE)
   = true ->
   wr_cell (cas_wait 10 (Some cmpxchg) (released_at 2) READY RUNNING IDLE)
   = RUNNING /\
   env_only (length (wr_naps (cas_wait 10 (Some cmpxchg) (released_at 2)
                               READY RUNNING IDLE)))
            (released_at 2) 0 IDLE = READY).
Proof.
  apply (cas_wait_returns_at_first_match cmpxchg (released_at 2)
           READY RUNNING IDLE 10).
  exact cmpxchg_valid.
Defined.

Lemma win_nap_schedule i :
  take_a_nap_win (nap_schedule i)
  = if (i <? 10)%nat then 0 else Z.min (2 ^ (Z.of_nat i - 10)) 20.
Proof.
  destruct (le_lt_dec 15 i) as [Hge | Hlt].
  - rewrite nap_schedule_large by assumption.
    destruct (Nat.ltb_spec i 10) as [Hi | Hi]; [lia |].
    assert (Hp : 2 ^ 5 <= 2 ^ (Z.of_nat i - 10))
      by (apply Z.pow_le_mono_r; lia).
    change (2 ^ 5) with 32 in Hp.
    rewrite Z.min_r by lia. reflexivity.
  - do 15 (destruct i as [| i]; [vm_compute; reflexivity |]). lia.
Qed.

(** X2.  In the Windows build, whatever the provider and the other threads
    do, the first ten naps of a call of [cas_wait] are [Sleep(0)] -- they
    only give up the time slice --, the following ones sleep 1, 2, 4, 8
    and 16 milliseconds, and every later one 20. *)
Theorem cas_wait_naps_on_windows :
  forall (n : nat) (cas : option cas_function_t) (env : nat -> Z -> Z)
         (old repl cell : Z),
    let ms := map take_a_nap_win (wr_naps (cas_wait n cas env old repl cell)) in
    ms = map (fun i => if (i <? 10)%nat then 0
                       else Z.min (2 ^ (Z.of_nat i - 10)) 20)
             (seq 0 (length ms)) /\
    Forall (fun t => 0 <= t <= 20) ms.
Proof.
  intros n cas env old repl cell ms.
  assert (Hms : ms = map (fun i => if (i <? 10)%nat then 0
                                   else Z.min (2 ^ (Z.of_nat i - 10)) 20)
                         (seq 0 (length ms))).
  { subst ms. rewrite length_map. unfold cas_wait.
    rewrite (cas_wait_naps n cas env old repl 0%nat cell 0%nat) at 1.
    rewrite map_map. apply map_ext. intros i. apply win_nap_schedule. }
  split; [exact Hms |].
  rewrite Hms. apply Forall_forall. intros t Ht.
  apply list_elem_of_In, in_map_iff in Ht. destruct Ht as (i & <- & _).
  destruct (Nat.ltb_spec i 10) as [Hi | Hi]; [lia |].
  assert (Hpos : 0 < 2 ^ (Z.of_nat i - 10)) by (apply Z.pow_pos_nonneg; lia).
  lia.
Qed.

(** ** The benchmark of the waiter *)

Lemma bench_loop_valid f k : forall fuel d,
  cas_valid f ->
  bench_loop k (S fuel) (Some f) d
  = mkBenchRun (if Nat.even k then d else Z.lxor d 1) [] true.
Proof.
  induction k as [| k IH]; intros fuel d Hf; [reflexivity |].
  cbn [bench_loop]. unfold cas_wait. cbn [cas_wait_loop].
  unfold cas_wait_iter. rewrite Hf, Z.eqb_refl. cbn [wr_returned wr_cell wr_naps].
  rewrite IH by assumption. cbn [b_dummy b_naps b_done app].
  f_equal. rewrite Nat.even_succ, <- Nat.negb_even.
  destruct (Nat.even k); simpl; [reflexivity |].
  rewrite Z.lxor_assoc, Z.lxor_nilpotent, Z.lxor_0_r. reflexivity.
Qed.

Lemma bench_loop_no_provider k fuel d :
  exists naps,
    bench_loop (S k) fuel None d = mkBenchRun d naps false /\ length naps = fuel.
Proof.
  cbn [bench_loop]. unfold cas_wait.
  destruct (cas_wait_no_provider fuel quiet d (Z.lxor d 1) 0%nat d 1)
    as (Hr & Hl & Hc).
  rewrite env_only_quiet in Hc.
  rewrite Hr, Hc. eexists. split; [reflexivity | exact Hl].
Qed.

(** X3.  [bench_cas_wait(n)] behind a valid provider runs its [n] waits
    without a single nap -- each finds in [dummy] the value it has just
    read there -- and leaves [dummy] flipped [n] times: as it was for an
    even [n], its lowest bit toggled for an odd one; a count of zero or
    less runs nothing.  With no provider installed and a positive count
    the first wait never returns and [dummy] is never written. *)
Theorem bench_cas_wait_toggles :
  forall (f : cas_function_t) (fuel : nat) (n d : Z),
    cas_valid f ->
    bench_cas_wait (S fuel) (Some f) (Some n) d
    = Some (mkBenchRun (if Nat.even (Z.to_nat n) then d else Z.lxor d 1) [] true) /\
    (n <= 0 -> bench_cas_wait fuel None (Some n) d = Some (mkBenchRun d [] true)) /\
    (0 < n ->
     exists naps,
       bench_cas_wait fuel None (Some n) d = Some (mkBenchRun d naps false) /\
       length naps = fuel).
Proof.
  intros f fuel n d Hf. unfold bench_cas_wait.
  split; [| split].
  - rewrite (bench_loop_valid f (Z.to_nat n) fuel d Hf). reflexivity.
  - intros Hn. replace (Z.to_nat n) with O by lia. reflexivity.
  - intros Hn.
    destruct (Z.to_nat n) as [| k] eqn:E; [lia |].
    destruct (bench_loop_no_provider k fuel d) as (naps & -> & Hl).
    exists naps. auto.
Qed.

Lemma bench_cas_wait_toggles_witness :
  bench_cas_wait 4 (Some cmpxchg) (Some 5) 0
  = Some (mkBenchRun (if Nat.even (Z.to_nat 5) then 0 else Z.lxor 0 1) [] true) /\
  (5 <= 0 -> bench_cas_wait 3 None (Some 5) 0 = Some (mkBenchRun 0 [] true)) /\
  (0 < 5 ->
   exists naps,
     bench_cas_wait 3 None (Some 5) 0 = Some (mkBenchRun 0 naps false) /\
     length naps = 3%nat).
Proof.
  apply (bench_cas_wait_toggles cmpxchg 3 5 0). exact cmpxchg_valid.
Defined.

(** ** Submitting more tasks than there are slots *)

(** The slot a submission reaches holds its task as long as no later
    submission of the run reaches the same slot. *)
Lemma fill_last n pv ts : forall (cur : list Task) i t,
  length cur = n -> (pv < n)%nat ->
  ts !! i = Some t ->
  (forall i', (i < i' < length ts)%nat ->
              ((pv + i') mod n)%nat <> ((pv + i) mod n)%nat) ->
  fill n pv ts cur !! ((pv + i) mod n)%nat = Some t.
Proof.
  revert pv. induction ts as [| t0 ts IH]; intros pv cur i t Hc Hpv Hi Hlast.
  - discriminate.
  - simpl in *. destruct i as [| i].
    + injection Hi as ->.
      rewrite Nat.add_0_r, Nat.mod_small in * by assumption.
      rewrite fill_frame.
      * apply list_lookup_insert_eq. lia.
      * apply next_pivot_lt; assumption.
      * intros i Hi. rewrite mod_succ_shift by assumption.
        apply Hlast. lia.
    + rewrite <- mod_succ_shift by assumption.
      apply IH; auto.
      * rewrite length_insert. assumption.
      * apply next_pivot_lt; assumption.
      * intros i' Hi'. rewrite !mod_succ_shift by assumption.
        apply Hlast. lia.
Qed.

(** X4.  On a pool of [n] slots [add_task] can be called any number of
    times: it never faults, the cursor stays inside the pool and ends at
    [(pv + length ts) mod n], no lock is touched, a slot that no
    submission reaches keeps its task, and a slot holds the task of the
    last submission that reached it.  So a task submitted [n] calls later
    silently replaces the one stored in the same slot. *)
Theorem add_tasks_last_writer_wins :
  forall (n : nat) (b : N) (qs : list Queue) (pv : nat) (p : proc)
         (ts : list Task),
    pool n b qs pv p ->
    exists p' qs',
      add_tasks ts p = Ok p' /\
      pool n b qs' ((pv + length ts) mod n) p' /\
      lock <$> qs' = lock <$> qs /\
      (forall j,
          (forall i, (i < length ts)%nat -> ((pv + i) mod n)%nat <> j) ->
          task <$> qs' !! j = task <$> qs !! j) /\
      (forall i t,
          ts !! i = Some t ->
          (forall i', (i < i' < length ts)%nat ->
                      ((pv + i') mod n)%nat <> ((pv + i) mod n)%nat) ->
          task <$> qs' !! ((pv + i) mod n)%nat = Some t) /\
      (forall i t',
          ts !! (i + n)%nat = Some t' ->
          (length ts <= i + 2 * n)%nat ->
          task <$> qs' !! ((pv + i) mod n)%nat = Some t').
Proof.
  intros n b qs pv p ts Hpool.
  destruct (add_tasks_pool ts n b qs pv p Hpool)
    as (p' & qs' & Hrun & Hpool' & Ht & Hl & _).
  pose proof (pool_cursor _ _ _ _ _ Hpool) as Hpv.
  pose proof (pool_length _ _ _ _ _ Hpool) as Hlen.
  rewrite iter_next_pivot in Hpool' by assumption.
  assert (Hlast : forall i t,
             ts !! i = Some t ->
             (forall i', (i < i' < length ts)%nat ->
                         ((pv + i') mod n)%nat <> ((pv + i) mod n)%nat) ->
             task <$> qs' !! ((pv + i) mod n)%nat = Some t).
  { intros i t Hi Hlast.
    rewrite <- list_lookup_fmap, Ht.
    apply fill_last; auto. rewrite length_fmap. assumption. }
  exists p', qs'.
  split; [exact Hrun |]. split; [exact Hpool' |]. split; [exact Hl |].
  split; [| split; [exact Hlast |]].
  - intros j Hj.
    rewrite <- !list_lookup_fmap, Ht. apply fill_frame; assumption.
  - intros i t' Hi Hshort.
    replace ((pv + i) mod n)%nat with ((pv + (i + n)) mod n)%nat.
    + apply Hlast; [assumption |].
      intros i' Hi' E.
      assert (Hd : (i' - (i + n) < n)%nat) by lia.
      replace (pv + i')%nat with ((pv + (i + n)) + (i' - (i + n)))%nat in E by lia.
      set (a := (pv + (i + n))%nat) in *. set (d := (i' - (i + n))%nat) in *.
      assert (Hpos : (0 < d)%nat) by (unfold d; lia).
      pose proof (Nat.div_mod_eq a n) as Ha.
      pose proof (Nat.mod_upper_bound a n ltac:(lia)) as Hb.
      destruct (le_lt_dec n (a mod n + d)) as [Hge | Hlt].
      * assert (E' : ((a + d) mod n = a mod n + d - n)%nat).
        { replace (a + d)%nat with ((a mod n + d - n) + (a / n + 1) * n)%nat by nia.
          rewrite Nat.Div0.mod_add. apply Nat.mod_small. lia. }
        lia.
      * assert (E' : ((a + d) mod n = a mod n + d)%nat).
        { replace (a + d)%nat with ((a mod n + d) + (a / n) * n)%nat by nia.
          rewrite Nat.Div0.mod_add. apply Nat.mod_small. lia. }
        lia.
    + replace (pv + (i + n))%nat with ((pv + i) + 1 * n)%nat by lia.
      apply Nat.Div0.mod_add.
Qed.

Lemma add_tasks_last_writer_wins_witness :
  exists p' qs',
    add_tasks [sample_task 1; sample_task 2; sample_task 3] launched_2 = Ok p' /\
    pool 2 1%N qs' ((0 + length [sample_task 1; sample_task 2; sample_task 3]) mod 2) p' /\
    lock <$> qs' = lock <$> [zero_Queue; zero_Queue] /\
    (forall j,
        (forall i, (i < length [sample_task 1; sample_task 2; sample_task 3])%nat ->
                   ((0 + i) mod 2)%nat <> j) ->
        task <$> qs' !! j = task <$> [zero_Queue; zero_Queue] !! j) /\
    (forall i t,
        [sample_task 1; sample_task 2; sample_task 3] !! i = Some t ->
        (forall i', (i < i' < length [sample_task 1; sample_task 2; sample_task 3])%nat ->
                    ((0 + i') mod 2)%nat <> ((0 + i) mod 2)%nat) ->
        task <$> qs' !! ((0 + i) mod 2)%nat = Some t) /\
    (forall i t',
        [sample_task 1; sample_task 2; sample_task 3] !! (i + 2)%nat = Some t' ->
        (length [sample_task 1; sample_task 2; sample_task 3] <= i + 2 * 2)%nat ->
        task <$> qs' !! ((0 + i) mod 2)%nat = Some t').
Proof.
  apply (add_tasks_last_writer_wins 2 1%N [zero_Queue; zero_Queue] 0 launched_2
           [sample_task 1; sample_task 2; sample_task 3]).
  apply (q_pool _ _ _ _ _ _ launched_2_quiescent).
Defined.

(** Three submissions to the pool of two slots: the third has replaced the
    first. *)
Example three_tasks_two_slots :
  (fun r => match r with
            | Ok p => (task <$> slots p, queue_pivot p)
            | Fault => ([], 0)
            end)
    (add_tasks [sample_task 1; sample_task 2; sample_task 3] launched_2)
  = ([sample_task 3; sample_task 2], 1).
Proof. reflexivity. Qed.

(** ** Launching and forking *)

Lemma spawn_loop_atfork n spawn base : forall i p,
  atfork (spawn_loop n spawn base i p) = (atfork p + n)%nat.
Proof.
  induction n as [| n IH]; intros i p; simpl.
  - lia.
  - rewrite IH. unfold numba_new_thread. destruct (spawn i); simpl; lia.
Qed.

(** The threads the loop leaves: those there were, and one for each slot
    whose [pthread_create] succeeded, bound to that slot. *)
Lemma spawn_loop_threads n spawn base : forall i p th,
  th ∈ threads (spawn_loop n spawn base i p) ->
  th ∈ threads p \/
  (th_block th = base /\ i <= th_index th /\ spawn (th_index th) = true).
Proof.
  induction n as [| n IH]; intros i p th Hin; simpl in Hin.
  - left. assumption.
  - apply IH in Hin. destruct Hin as [Hin | (Hb & Hi & Hs)].
    + unfold numba_new_thread in Hin. destruct (spawn i) eqn:Hsp; simpl in Hin.
      * apply elem_of_app in Hin. destruct Hin as [Hin | Hin]; [left; assumption |].
        apply list_elem_of_singleton in Hin. subst th. simpl.
        right. repeat split; auto. lia.
      * left. assumption.
    + right. repeat split; auto. lia.
Qed.

Lemma slot_size n :
  Z.of_nat n <= INT_MAX ->
  Z.to_nat (wrap_size (SIZEOF_QUEUE * Z.of_nat n) / SIZEOF_QUEUE) = n.
Proof.
  intros Hmax. unfold wrap_size, SIZEOF_QUEUE, INT_MAX in *.
  rewrite Z.mod_small by lia.
  rewrite Z.mul_comm, Z.div_mul by lia. apply Nat2Z.id.
Qed.

(** A launch whose allocation and thread creations succeed, in a process
    without pool or worker. *)
Lemma launch_pool_at_rest f (n : nat) b pv p :
  queues p = None -> threads p = [] -> calls p = [] -> cas p = Some f ->
  queue_pivot p = Z.of_nat pv -> (pv < n)%nat -> Z.of_nat n <= INT_MAX ->
  quiescent f n b (replicate n zero_Queue) pv
    (spawn_loop n (fun _ => true) b 0
       (set_queue_count (Z.of_nat n)
          (set_queues (Some b)
             (set_heap (<[b := replicate n zero_Queue]> (heap p)) p)))).
Proof.
  intros Hq Hth Hcalls Hcas Hpiv Hpv Hmax.
  match goal with
  | |- quiescent _ _ _ _ _ (spawn_loop n ?sp b 0 ?p1) =>
      pose proof (spawn_loop_frame n sp b 0 p1) as (Hc & Hh & Hqs & Hk & Hv & Hcs);
      pose proof (spawn_loop_all n b 0 p1) as Hths
  end.
  simpl in Hc, Hh, Hqs, Hk, Hv, Hcs, Hths.
  rewrite Hth in Hths. simpl in Hths.
  constructor.
  - constructor.
    + rewrite Hqs. reflexivity.
    + rewrite Hh. apply lookup_insert_eq.
    + apply length_replicate.
    + rewrite Hk. reflexivity.
    + assumption.
    + rewrite Hv. assumption.
    + assumption.
  - rewrite Hc. assumption.
  - rewrite Hcs. assumption.
  - rewrite Hths, length_map, length_seq. reflexivity.
  - intros j Hj. exists zero_Queue, 1.
    split; [apply lookup_replicate_2; assumption |].
    split; [reflexivity |].
    rewrite Hths.
    change (map ?g ?l) with (g <$> l).
    rewrite list_lookup_fmap, lookup_seq_lt by assumption.
    reflexivity.
Qed.

(** X5.  In a process that has a provider but no pool and no worker yet,
    [launch_threads(n)] whose allocation and thread creations succeed
    leaves a pool at rest: [n] zero-filled slots, all Idle, in the block
    [malloc] returned, one worker per slot waiting for Ready with a
    timeout of 1.  The cursor is not reset -- it stays where it was --,
    the fork handler has been registered once per slot, and no other block
    of the heap is touched. *)
Theorem launch_threads_at_rest :
  forall (f : cas_function_t) (n : nat) (b : N) (pv : nat) (p : proc),
    queues p = None ->
    threads p = [] ->
    calls p = [] ->
    cas p = Some f ->
    queue_pivot p = Z.of_nat pv ->
    (pv < n)%nat ->
    Z.of_nat n <= INT_MAX ->
    exists p',
      launch_threads (Some b) (fun _ => true) (Z.of_nat n) p = Ok p' /\
      quiescent f n b (replicate n zero_Queue) pv p' /\
      threads p' = map (fun j => mkThread b (Z.of_nat j) (AwaitReady 1)) (seq 0 n) /\
      atfork p' = (atfork p + n)%nat /\
      (forall b', b' <> b -> heap p' !! b' = heap p !! b').
Proof.
  intros f n b pv p Hq Hth Hcalls Hcas Hpiv Hpv Hmax.
  unfold launch_threads. rewrite Hq.
  eexists. split; [reflexivity |].
  rewrite (slot_size n Hmax), Nat2Z.id.
  split; [apply launch_pool_at_rest; assumption |].
  match goal with
  | |- threads (spawn_loop n ?sp b 0 ?p1) = _ /\ _ =>
      pose proof (spawn_loop_frame n sp b 0 p1) as (_ & Hh & _);
      pose proof (spawn_loop_all n b 0 p1) as Hths;
      pose proof (spawn_loop_atfork n sp b 0 p1) as Haf
  end.
  simpl in Hh, Hths, Haf. rewrite Hth in Hths. simpl in Hths.
  split; [exact Hths |]. split; [exact Haf |].
  intros b' Hb. rewrite Hh. apply lookup_insert_ne. congruence.
Qed.

Lemma launch_threads_at_rest_witness :
  exists p',
    launch_threads (Some 1%N) (fun _ => true) (Z.of_nat 2)
                   (set_cas (Some cmpxchg) initial) = Ok p' /\
    quiescent cmpxchg 2 1%N (replicate 2 zero_Queue) 0 p' /\
    threads p' = map (fun j => mkThread 1%N (Z.of_nat j) (AwaitReady 1)) (seq 0 2) /\
    atfork p' = (atfork (set_cas (Some cmpxchg) initial) + 2)%nat /\
    (forall b', b' <> 1%N ->
                heap p' !! b' = heap (set_cas (Some cmpxchg) initial) !! b').
Proof.
  apply (launch_threads_at_rest cmpxchg 2 1%N 0 (set_cas (Some cmpxchg) initial));
    try reflexivity.
  - lia.
  - unfold INT_MAX. simpl. lia.
Defined.

Lemma set_queues_same p : queues p = None -> set_queues None p = p.
Proof. destruct p. simpl. intros ->. reflexivity. Qed.

Lemma run_atfork_null k : forall p,
  queues p = None -> run_atfork k p = Ok p.
Proof.
  induction k as [| k IH]; intros p Hq; simpl.
  - reflexivity.
  - unfold reset_after_fork, free. rewrite Hq.
    rewrite (set_queues_same p Hq). apply IH. assumption.
Qed.

Lemma fork_child_live p b qs :
  queues p = Some b -> heap p !! b = Some qs -> (0 < atfork p)%nat ->
  fork_child p
  = Ok (set_queues None (set_heap (delete b (heap p)) (set_threads [] p))).
Proof.
  intros Hq Hh Haf. unfold fork_child. simpl.
  destruct (atfork p) as [| k]; [lia |].
  cbn [run_atfork]. unfold reset_after_fork, free. simpl.
  rewrite Hq, Hh. apply run_atfork_null. reflexivity.
Qed.

(** X11.  However often the fork handler was registered -- once per slot of
    the launch --, the child of a fork frees the slot array exactly once:
    the first run of the handler frees it and clears the handle, the others
    find the handle null and do nothing, as would any further run.  The
    child has no worker and no pool; the other blocks of the heap, the
    provider, the count and the cursor are the parent's; the fork never
    faults. *)
Theorem fork_child_frees_once :
  forall (p : proc) (b : N) (qs : list Queue),
    queues p = Some b ->
    heap p !! b = Some qs ->
    (0 < atfork p)%nat ->
    exists c,
      fork_child p = Ok c /\
      threads c = [] /\ queues c = None /\ heap c !! b = None /\
      (forall b', b' <> b -> heap c !! b' = heap p !! b') /\
      cas c = cas p /\ queue_count c = queue_count p /\
      queue_pivot c = queue_pivot p /\
      (forall k, run_atfork k c = Ok c).
Proof.
  intros p b qs Hq Hh Haf.
  eexists. split; [apply (fork_child_live p b qs); assumption |].
  simpl. split; [reflexivity |]. split; [reflexivity |].
  split; [apply lookup_delete_eq |].
  split; [intros b' Hb; apply lookup_delete_ne; congruence |].
  repeat split.
  intros k. apply run_atfork_null. reflexivity.
Qed.

Lemma fork_child_frees_once_witness :
  exists c,
    fork_child launched_2 = Ok c /\
    threads c = [] /\ queues c = None /\ heap c !! 1%N = None /\
    (forall b', b' <> 1%N -> heap c !! b' = heap launched_2 !! b') /\
    cas c = cas launched_2 /\ queue_count c = queue_count launched_2 /\
    queue_pivot c = queue_pivot launched_2 /\
    (forall k, run_atfork k c = Ok c).
Proof.
  apply (fork_child_frees_once launched_2 1%N [zero_Queue; zero_Queue]);
    try reflexivity.
  simpl. lia.
Defined.





(** ** Slots that never finish *)

(** What one iteration of [cas_wait] does to the process: nothing but to
    one lock, and only when it returns. *)
Lemma cas_wait_at_effect p base i old repl t p' r :
  provider_ok p ->
  cas_wait_at p base i old repl t = Ok (p', r) ->
  (cas p' = cas p /\ queues p' = queues p /\ queue_count p' = queue_count p /\
   queue_pivot p' = queue_pivot p /\ threads p' = threads p /\
   calls p' = calls p /\ atfork p' = atfork p) /\
  ((r <> None /\ forall b j, lock_at p' b j = lock_at p b j) \/
   (r = None /\
    exists b0,
      base = Some b0 /\ 0 <= i /\
      lock_at p b0 (Z.to_nat i) = Some old /\
      forall b j,
        lock_at p' b j
        = if decide (b = b0 /\ j = Z.to_nat i) then Some repl else lock_at p b j)).
Proof.
  unfold provider_ok, cas_wait_at. intros Hok H.
  destruct (cas p) as [f |] eqn:Hcas.
  - destruct (deref p base i) as [[[b0 qs] q] |] eqn:Hd; [| discriminate].
    apply deref_inv in Hd. destruct Hd as (-> & Hh & Hq & Hi).
    unfold cas_wait_iter in H. rewrite Hok in H.
    destruct (Z.eqb_spec (lock q) old) as [Hl | Hl].
    + injection H as <- <-.
      split; [simpl; rewrite Hcas; repeat split |].
      right. split; [reflexivity |].
      exists b0. split; [reflexivity |]. split; [lia |]. split.
      * unfold lock_at. rewrite Hh, Hq. simpl. congruence.
      * intros b j. rewrite Hi at 1.
        rewrite (lock_at_put p b0 qs (Z.to_nat i) q _ b j Hh Hq). reflexivity.
    + injection H as <- <-.
      split; [simpl; rewrite Hcas; repeat split |].
      left. split; [discriminate |].
      intros b j. rewrite Hi at 1.
      rewrite (lock_at_put p b0 qs (Z.to_nat i) q _ b j Hh Hq).
      destruct (decide (b = b0 /\ j = Z.to_nat i)) as [[-> ->] | _]; [| reflexivity].
      unfold lock_at. rewrite Hh, Hq. reflexivity.
  - injection H as <- <-.
    split; [rewrite Hcas; repeat split |].
    left. split; [discriminate | reflexivity].
Qed.

Lemma add_task_frame t p p' :
  add_task t p = Ok p' ->
  cas p' = cas p /\ queues p' = queues p /\ queue_count p' = queue_count p /\
  threads p' = threads p /\ calls p' = calls p /\ atfork p' = atfork p.
Proof.
  unfold add_task. intros H.
  destruct (deref p (queues p) (queue_pivot p)) as [[[b0 qs] q] |]; [| discriminate].
  injection H as <-. simpl. repeat split.
Qed.

Lemma provider_ok_eq p p' : cas p' = cas p -> provider_ok p -> provider_ok p'.
Proof. unfold provider_ok. intros ->. auto. Qed.

Section Stall.

Variables (b : N) (j : nat).

Lemma driver_step_stalled m :
  stalled b j m ->
  m_fault (driver_step m) = true \/ stalled b j (driver_step m).
Proof.
  intros [Hfault Hok Hq Hcount Hsync (l & Hl & Hrange & Hbound)].
  unfold driver_step.
  destruct (m_pc m) as [| i t | i t] eqn:Hpc.
  - (* between two calls *)
    destruct (m_prog m) as [| op rest] eqn:Hprog.
    + exfalso. destruct Hsync as [Hin | (i & t & Hi & _)].
      * rewrite Hprog in Hin. inversion Hin.
      * congruence.
    + assert (Hrest : forall o, o ∈ rest -> o ∈ m_prog m)
        by (intros o Ho; rewrite Hprog; apply elem_of_cons; auto).
      assert (Hsync' : op <> OpSynchronize -> OpSynchronize ∈ rest).
      { intros Hne. destruct Hsync as [Hin | (i & t & Hi & _)]; [| congruence].
        rewrite Hprog in Hin. apply elem_of_cons in Hin.
        destruct Hin as [Heq | Hin]; [congruence | assumption]. }
      destruct op as [t | |].
      * destruct (add_task t (m_proc m)) as [p' |] eqn:Hadd; [| left; reflexivity].
        right.
        destruct (add_task_frame t _ _ Hadd) as (Ec & Eq & Ek & Et & _).
        destruct (add_task_locks t _ _ b j Hadd) as [El _].
        constructor; simpl;
          [ reflexivity | apply (provider_ok_eq _ _ Ec Hok) | congruence
          | rewrite Ek; assumption | | ].
        -- left. apply Hsync'. discriminate.
        -- exists l. rewrite El, Et. split; [assumption |]. split; [assumption |].
           intros tid th Hth Hb. destruct (Hbound tid th Hth Hb) as (Hw & Hi & Hr).
           split; [assumption |]. split; [assumption |].
           intros [Hin | (i & t0 & Hi')]; [| discriminate].
           apply Hr. left. auto.
      * right. constructor; simpl;
          [ reflexivity | assumption | assumption | assumption | | ].
        -- left. apply Hsync'. discriminate.
        -- exists l. split; [assumption |]. split; [assumption |].
           intros tid th Hth Hb. destruct (Hbound tid th Hth Hb) as (_ & _ & Hr).
           exfalso. apply Hr. left. rewrite Hprog. apply elem_of_cons. auto.
      * right. constructor; simpl;
          [ reflexivity | assumption | assumption | assumption | | ].
        -- right. exists 0, 1. split; [reflexivity | lia].
        -- exists l. split; [assumption |]. split; [assumption |].
           intros tid th Hth Hb. destruct (Hbound tid th Hth Hb) as (Hw & Hi & Hr).
           split; [assumption |]. split; [assumption |].
           intros [Hin | (i & t0 & Hi')]; [| discriminate].
           apply Hr. left. auto.
  - (* inside [ready] *)
    assert (Hnone : forall tid th,
               threads (m_proc m) !! tid = Some th -> ~ bound_to b j th).
    { intros tid th Hth Hb. destruct (Hbound tid th Hth Hb) as (_ & _ & Hr).
      apply Hr. right. eauto. }
    assert (Hprog : OpSynchronize ∈ m_prog m).
    { destruct Hsync as [Hin | (i' & t' & Hi & _)]; [assumption | congruence]. }
    unfold barrier_step.
    destruct (i <? queue_count (m_proc m)).
    + destruct (cas_wait_at (m_proc m) (queues (m_proc m)) i IDLE READY t)
        as [[p' r] |] eqn:Hcw; [| left; reflexivity].
      destruct (cas_wait_at_effect _ _ _ _ _ _ _ _ Hok Hcw)
        as ((Ec & Eq & Ek & _ & Et & _) & Heff).
      assert (Hl' : exists l', lock_at p' b j = Some l' /\ (l' = IDLE \/ l' = READY)).
      { destruct Heff as [(_ & Hsame) | (_ & b0 & _ & _ & _ & Hnew)].
        - exists l. rewrite Hsame. auto.
        - rewrite Hnew. destruct (decide (b = b0 /\ j = Z.to_nat i)).
          + exists READY. auto.
          + exists l. auto. }
      destruct Hl' as (l' & Hl' & Hrange').
      right.
      destruct r as [t' |]; constructor; simpl;
        [ reflexivity | apply (provider_ok_eq _ _ Ec Hok) | congruence
        | rewrite Ek; assumption | left; assumption
        | exists l'; split; [assumption |]; split; [assumption |];
          intros tid th Hth Hb; rewrite Et in Hth;
          exfalso; apply (Hnone tid th Hth Hb)
        | reflexivity | apply (provider_ok_eq _ _ Ec Hok) | congruence
        | rewrite Ek; assumption | left; assumption
        | exists l'; split; [assumption |]; split; [assumption |];
          intros tid th Hth Hb; rewrite Et in Hth;
          exfalso; apply (Hnone tid th Hth Hb) ].
    + right. constructor; simpl;
        [ reflexivity | assumption | assumption | assumption | | ].
      * left. assumption.
      * exists l. split; [assumption |]. split; [assumption |].
        intros tid th Hth Hb. exfalso. apply (Hnone tid th Hth Hb).
  - (* inside [synchronize] *)
    assert (Hready : forall p' i' t',
               ready_ahead (mkMachine p' (m_prog m) (InSynchronize i' t') false) ->
               ready_ahead m).
    { intros p' i' t' [Hin | (i0 & t0 & Hi0)]; [left; assumption | discriminate]. }
    unfold barrier_step.
    destruct (Z.ltb_spec i (queue_count (m_proc m))) as [Hlt | Hge].
    + destruct (cas_wait_at (m_proc m) (queues (m_proc m)) i DONE IDLE t)
        as [[p' r] |] eqn:Hcw; [| left; reflexivity].
      destruct (cas_wait_at_effect _ _ _ _ _ _ _ _ Hok Hcw)
        as ((Ec & Eq & Ek & _ & Et & _) & Heff).
      right.
      destruct Heff as [(Hr & Hsame) | (-> & b0 & Hb0 & Hi0 & Hold & Hnew)].
      * destruct r as [t' |]; [| congruence].
        constructor; simpl;
          [ reflexivity | apply (provider_ok_eq _ _ Ec Hok) | congruence
          | rewrite Ek; assumption | | ].
        -- destruct Hsync as [Hin | (i' & t0 & Hi' & Hle)]; [left; assumption |].
           right. exists i, t'. split; [reflexivity |]. congruence.
        -- exists l. rewrite Hsame, Et. split; [assumption |]. split; [assumption |].
           intros tid th Hth Hb. destruct (Hbound tid th Hth Hb) as (Hw & Hi & Hr').
           split; [assumption |]. split; [assumption |].
           intros H. apply Hr'. apply (Hready _ _ _ H).
      * assert (b0 = b) by congruence. subst b0.
        assert (Hne : j <> Z.to_nat i).
        { intros ->. rewrite Hold in Hl. injection Hl as <-.
          destruct Hrange; discriminate. }
        constructor; simpl;
          [ reflexivity | apply (provider_ok_eq _ _ Ec Hok) | congruence
          | rewrite Ek; assumption | | ].
        -- destruct Hsync as [Hin | (i' & t0 & Hi' & Hle)]; [left; assumption |].
           right. rewrite Hpc in Hi'. injection Hi' as <- <-.
           exists (wrap_int (i + 1)), 1. split; [reflexivity |].
           rewrite wrap_int_small; unfold INT_MAX in *; lia.
        -- exists l. rewrite Hnew, Et.
           rewrite decide_False by tauto.
           split; [assumption |]. split; [assumption |].
           intros tid th Hth Hb. destruct (Hbound tid th Hth Hb) as (Hw & Hi & Hr').
           split; [assumption |]. split; [assumption |].
           intros H. apply Hr'. apply (Hready _ _ _ H).
    + right. constructor; simpl;
        [ reflexivity | assumption | assumption | assumption | | ].
      * destruct Hsync as [Hin | (i' & t0 & Hi' & Hle)]; [left; assumption |].
        rewrite Hpc in Hi'. injection Hi' as <- <-. lia.
      * exists l. split; [assumption |]. split; [assumption |].
        intros tid th Hth Hb. destruct (Hbound tid th Hth Hb) as (Hw & Hi & Hr').
        split; [assumption |]. split; [assumption |].
        intros [Hin | (i0 & t0 & Hi0)]; [| discriminate].
        apply Hr'. left. assumption.
Qed.

(** Rebuilding the invariant after thread [tid] has moved to [c'] without
    touching the lock of slot [j]. *)
Lemma stalled_after_worker m p' tid th c' :
  stalled b j m ->
  threads (m_proc m) !! tid = Some th ->
  cas p' = cas (m_proc m) ->
  queues p' = queues (m_proc m) ->
  queue_count p' = queue_count (m_proc m) ->
  threads p' = <[tid := mkThread (th_block th) (th_index th) c']> (threads (m_proc m)) ->
  lock_at p' b j = lock_at (m_proc m) b j ->
  (bound_to b j th -> exists t, c' = AwaitReady t) ->
  stalled b j (mkMachine p' (m_prog m) (m_pc m) false).
Proof.
  intros [Hfault Hok Hq Hcount Hsync (l & Hl & Hrange & Hbound)]
         Hth Ec Eq Ek Et El Hc.
  constructor; simpl;
    [ reflexivity | apply (provider_ok_eq _ _ Ec Hok) | congruence
    | rewrite Ek; assumption | exact Hsync | ].
  exists l. rewrite El. split; [assumption |]. split; [assumption |].
  intros tid' th' Hth' Hb. rewrite Et in Hth'.
  assert (Hr : forall th0,
             threads (m_proc m) !! tid' = Some th0 -> bound_to b j th0 ->
             l = IDLE /\
             ~ ready_ahead (mkMachine p' (m_prog m) (m_pc m) false)).
  { intros th0 Hth0 Hb0. destruct (Hbound tid' th0 Hth0 Hb0) as (_ & Hi & Hr).
    split; [assumption |]. exact Hr. }
  destruct (decide (tid' = tid)) as [-> | Hne].
  - rewrite list_lookup_insert_eq in Hth' by (apply lookup_lt_Some in Hth; lia).
    injection Hth' as <-.
    assert (Hb' : bound_to b j th) by exact Hb.
    destruct (Hr th Hth Hb') as [Hi Hnr].
    split; [| split; assumption].
    simpl. apply Hc. assumption.
  - rewrite list_lookup_insert_ne in Hth' by congruence.
    destruct (Hbound tid' th' Hth' Hb) as (Hw & _ & _).
    destruct (Hr th' Hth' Hb) as [Hi Hnr].
    auto.
Qed.

Lemma worker_step_stalled tid m :
  stalled b j m ->
  m_fault (worker_step tid m) = true \/ stalled b j (worker_step tid m).
Proof.
  intros Hst.
  pose proof Hst as [Hfault Hok Hq Hcount Hsync (l & Hl & Hrange & Hbound)].
  unfold worker_step.
  destruct (threads (m_proc m) !! tid) as [th |] eqn:Hth; [| right; exact Hst].
  assert (Hhere : th_block th = b -> 0 <= th_index th ->
                  j = Z.to_nat (th_index th) -> bound_to b j th).
  { intros Hb Hi ->. split; [assumption | lia]. }
  destruct (th_pc th) as [t | | t] eqn:Hpc.
  - (* waiting for Ready *)
    destruct (cas_wait_at (m_proc m) (Some (th_block th)) (th_index th)
                READY RUNNING t) as [[p' r] |] eqn:Hcw; [| left; reflexivity].
    destruct (cas_wait_at_effect _ _ _ _ _ _ _ _ Hok Hcw)
      as ((Ec & Eq & Ek & _ & Et & _) & Heff).
    right.
    destruct Heff as [(Hr & Hsame) | (-> & b0 & Hb0 & Hi0 & Hold & Hnew)].
    + destruct r as [t' |]; [| congruence].
      apply (stalled_after_worker m _ tid th (AwaitReady t')); simpl;
        [ exact Hst | exact Hth | exact Ec | exact Eq | exact Ek
        | rewrite Et; reflexivity | apply Hsame | eauto ].
    + injection Hb0 as <-.
      assert (Hnb : ~ bound_to b j th).
      { intros Hb. destruct (Hbound tid th Hth Hb) as (_ & Hi & _).
        destruct Hb as [Hb1 Hb2]. rewrite Hb1, Hb2, Nat2Z.id in Hold.
        rewrite Hold in Hl. injection Hl as <-. discriminate. }
      apply (stalled_after_worker m _ tid th Invoke); simpl;
        [ exact Hst | exact Hth | exact Ec | exact Eq | exact Ek
        | rewrite Et; reflexivity | | intros Hb; contradiction ].
      transitivity (lock_at p' b j); [reflexivity |].
      rewrite Hnew. apply decide_False. intros [E1 E2].
      apply Hnb. apply Hhere; auto.
  - (* calling the task *)
    assert (Hnb : ~ bound_to b j th).
    { intros Hb. destruct (Hbound tid th Hth Hb) as ((t & Ht) & _). congruence. }
    destruct (deref (m_proc m) (Some (th_block th)) (th_index th))
      as [[[b0 qs] q] |]; [| left; reflexivity].
    destruct (func (task q) =? 0); [left; reflexivity |].
    right.
    apply (stalled_after_worker m _ tid th (AwaitDone 1)); simpl;
      [ exact Hst | exact Hth | reflexivity | reflexivity | reflexivity
      | reflexivity | reflexivity | intros Hb; contradiction ].
  - (* waiting for Done *)
    assert (Hnb : ~ bound_to b j th).
    { intros Hb. destruct (Hbound tid th Hth Hb) as ((t0 & Ht) & _). congruence. }
    destruct (cas_wait_at (m_proc m) (Some (th_block th)) (th_index th)
                RUNNING DONE t) as [[p' r] |] eqn:Hcw; [| left; reflexivity].
    destruct (cas_wait_at_effect _ _ _ _ _ _ _ _ Hok Hcw)
      as ((Ec & Eq & Ek & _ & Et & _) & Heff).
    right.
    destruct Heff as [(Hr & Hsame) | (-> & b0 & Hb0 & Hi0 & Hold & Hnew)].
    + destruct r as [t' |]; [| congruence].
      apply (stalled_after_worker m _ tid th (AwaitDone t')); simpl;
        [ exact Hst | exact Hth | exact Ec | exact Eq | exact Ek
        | rewrite Et; reflexivity | apply Hsame | intros Hb; contradiction ].
    + injection Hb0 as <-.
      apply (stalled_after_worker m _ tid th (AwaitReady 1)); simpl;
        [ exact Hst | exact Hth | exact Ec | exact Eq | exact Ek
        | rewrite Et; reflexivity | | eauto ].
      transitivity (lock_at p' b j); [reflexivity |].
      rewrite Hnew. apply decide_False. intros [E1 E2].
      apply Hnb. apply Hhere; auto.
Qed.

(** A stalled slot stays stalled, unless the process faults; either way
    the driver never returns. *)
Lemma run_stalled sched : forall m,
  m_fault m = true \/ stalled b j m ->
  returned (run sched m) = false.
Proof.
  induction sched as [| who sched IH]; intros m H.
  - simpl. unfold returned. destruct H as [-> | Hst]; [reflexivity |].
    rewrite (st_fault _ _ _ Hst). simpl.
    destruct (st_sync _ _ _ Hst) as [Hin | (i & t & Hpc & _)].
    + destruct (m_pc m); [| reflexivity | reflexivity].
      destruct (m_prog m); [inversion Hin | reflexivity].
    + rewrite Hpc. reflexivity.
  - simpl. apply IH. unfold step.
    destruct H as [Hfault | Hst].
    + rewrite Hfault. left. assumption.
    + rewrite (st_fault _ _ _ Hst).
      destruct who as [| tid].
      * apply driver_step_stalled. assumption.
      * apply worker_step_stalled. assumption.
Qed.

End Stall.


(** X6.  A slot whose thread could not be created stalls every barrier.
    [launch_threads] drops the result of [numba_new_thread]: the launch
    comes back as usual, the slot of the failed creation is there and
    Idle, [ready] will release it, but no worker will ever take it to
    Done.  Whatever calls the driver then makes, once a [synchronize] is
    among them the driver never returns from its last call, under any
    schedule. *)
Theorem failed_thread_stalls_barrier :
  forall (f : cas_function_t) (n : nat) (b : N) (spawn : Z -> bool)
         (j : nat) (p p' : proc) (prog : list op),
    cas_valid f ->
    cas p = Some f ->
    queues p = None ->
    threads p = [] ->
    (j < n)%nat ->
    Z.of_nat n <= INT_MAX ->
    spawn (Z.of_nat j) = false ->
    launch_threads (Some b) spawn (Z.of_nat n) p = Ok p' ->
    OpSynchronize ∈ prog ->
    lock_at p' b j = Some IDLE /\
    forall sched, returned (run sched (mkMachine p' prog Between false)) = false.
Proof.
  intros f n b spawn j p p' prog Hf Hcas Hq Hth Hj Hmax Hsp Hrun Hprog.
  unfold launch_threads in Hrun. rewrite Hq in Hrun.
  rewrite (slot_size n Hmax), Nat2Z.id in Hrun. injection Hrun as <-.
  match goal with
  | |- lock_at (spawn_loop n spawn b 0 ?p1) b j = _ /\ _ =>
      pose proof (spawn_loop_frame n spawn b 0 p1) as (Hc & Hh & Hqs & Hk & _);
      pose proof (spawn_loop_threads n spawn b 0 p1) as Hths;
      set (p' := spawn_loop n spawn b 0 p1) in *
  end.
  simpl in Hc, Hh, Hqs, Hk, Hths.
  assert (Hlock : lock_at p' b j = Some IDLE).
  { unfold lock_at. rewrite Hh, lookup_insert_eq.
    rewrite lookup_replicate_2 by assumption. reflexivity. }
  split; [exact Hlock |].
  intros sched. apply (run_stalled b j). right.
  constructor; simpl.
  - reflexivity.
  - unfold provider_ok. rewrite Hc, Hcas. exact Hf.
  - exact Hqs.
  - rewrite Hk. lia.
  - left. exact Hprog.
  - exists IDLE. split; [exact Hlock |]. split; [auto |].
    intros tid th Htid [Hb Hi]. exfalso.
    apply list_elem_of_lookup_2 in Htid. apply Hths in Htid.
    destruct Htid as [Hin | (_ & _ & Hs)].
    + rewrite Hth in Hin. inversion Hin.
    + rewrite Hi, Hsp in Hs. discriminate.
Qed.

Lemma failed_thread_stalls_barrier_witness :
  lock_at launched_2_lame 1%N 1 = Some IDLE /\
  forall sched,
    returned (run sched (mkMachine launched_2_lame
                           (round [sample_task 1; sample_task 2])
                           Between false)) = false.
Proof.
  apply (failed_thread_stalls_barrier cmpxchg 2 1%N (fun i => i =? 0) 1
           (set_cas (Some cmpxchg) initial) launched_2_lame
           (round [sample_task 1; sample_task 2])); try reflexivity.
  - exact cmpxchg_valid.
  - lia.
  - unfold INT_MAX. simpl. lia.
  - simpl. apply list_elem_of_further, list_elem_of_further,
      list_elem_of_further, list_elem_of_here.
Defined.

(** The round of the witness under a schedule that lets everybody run: the
    task of the first slot has been called, the second slot is Ready for
    good, the driver is still in [synchronize]. *)
Example lame_round_scheduled :
  let m := run (concat (replicate 30 [0; 1; 2]%nat))
             (mkMachine launched_2_lame (round [sample_task 1; sample_task 2])
                        Between false) in
  returned m = false /\ m_fault m = false /\
  calls (m_proc m) = [(0, sample_task 1)] /\
  lock <$> slots (m_proc m) = [IDLE; READY] /\
  (exists t, m_pc m = InSynchronize 1 t).
Proof. vm_compute. repeat split. eexists. reflexivity. Qed.



(** ** Who writes what *)

Lemma task_at_put_lock p b0 (qs : list Queue) i q l b j :
  heap p !! b0 = Some qs -> qs !! i = Some q ->
  task_at (put b0 qs (Z.of_nat i) (set_lock q l) p) b j = task_at p b j.
Proof.
  intros Hh Hq. unfold task_at, put. simpl. rewrite Nat2Z.id.
  destruct (decide (b = b0)) as [-> | Hb].
  - rewrite lookup_insert_eq, Hh.
    destruct (decide (j = i)) as [-> | Hj].
    + rewrite list_lookup_insert_eq by (apply lookup_lt_Some in Hq; lia).
      rewrite Hq. reflexivity.
    + rewrite list_lookup_insert_ne by congruence. reflexivity.
  - rewrite lookup_insert_ne by congruence. reflexivity.
Qed.

(** One iteration of [cas_wait], whatever the provider, leaves the tasks,
    the cursor and the rest of the statics alone. *)
Lemma cas_wait_at_frame p base i old repl t p' r :
  cas_wait_at p base i old repl t = Ok (p', r) ->
  (forall b j, task_at p' b j = task_at p b j) /\
  queue_pivot p' = queue_pivot p /\ queue_count p' = queue_count p /\
  queues p' = queues p /\ cas p' = cas p /\ calls p' = calls p /\
  threads p' = threads p.
Proof.
  unfold cas_wait_at. intros H.
  destruct (cas p) as [f |] eqn:Hcas.
  - destruct (deref p base i) as [[[b0 qs] q] |] eqn:Hd; [| discriminate].
    apply deref_inv in Hd. destruct Hd as (-> & Hh & Hq & Hi).
    assert (Hp' : exists l, p' = put b0 qs i (set_lock q l) p).
    { unfold cas_wait_iter in H. destruct (f (lock q) old repl) as [c out].
      destruct (out =? old); injection H as <- _; eauto. }
    destruct Hp' as [l ->].
    split.
    + intros b j. rewrite Hi. apply task_at_put_lock; assumption.
    + simpl. repeat split. assumption.
  - injection H as <- _. repeat split. assumption.
Qed.

(** A step that is not a call of [add_task] leaves the tasks, the cursor
    and the program's submissions as they are. *)
Lemma step_frame who m :
  who <> O \/ adding m = false ->
  (forall b j, task_at (m_proc (step who m)) b j = task_at (m_proc m) b j) /\
  queue_pivot (m_proc (step who m)) = queue_pivot (m_proc m) /\
  queue_count (m_proc (step who m)) = queue_count (m_proc m) /\
  queues (m_proc (step who m)) = queues (m_proc m) /\
  cas (m_proc (step who m)) = cas (m_proc m) /\
  adds_left (m_prog (step who m)) = adds_left (m_prog m).
Proof.
  intros Hwho. unfold step.
  destruct (m_fault m); [repeat split |].
  destruct who as [| tid].
  - destruct Hwho as [Hne | Hadd]; [congruence |].
    unfold adding in Hadd. unfold driver_step.
    destruct (m_pc m) as [| i t | i t].
    + destruct (m_prog m) as [| [t | |] rest] eqn:E; try discriminate;
        simpl; rewrite ?E; repeat split.
    + unfold barrier_step.
      destruct (i <? queue_count (m_proc m)); [| simpl; repeat split].
      destruct (cas_wait_at (m_proc m) (queues (m_proc m)) i IDLE READY t)
        as [[p' [t' |]] |] eqn:H; simpl; try (repeat split; fail);
        destruct (cas_wait_at_frame _ _ _ _ _ _ _ _ H)
          as (Ht & Hp & Hk & Hq & Hc & _); auto 10.
    + unfold barrier_step.
      destruct (i <? queue_count (m_proc m)); [| simpl; repeat split].
      destruct (cas_wait_at (m_proc m) (queues (m_proc m)) i DONE IDLE t)
        as [[p' [t' |]] |] eqn:H; simpl; try (repeat split; fail);
        destruct (cas_wait_at_frame _ _ _ _ _ _ _ _ H)
          as (Ht & Hp & Hk & Hq & Hc & _); auto 10.
  - unfold worker_step.
    destruct (threads (m_proc m) !! tid) as [th |]; [| repeat split].
    destruct (th_pc th) as [t | | t].
    + destruct (cas_wait_at (m_proc m) (Some (th_block th)) (th_index th)
                  READY RUNNING t) as [[p' [t' |]] |] eqn:H; simpl;
        try (repeat split; fail);
        destruct (cas_wait_at_frame _ _ _ _ _ _ _ _ H)
          as (Ht & Hp & Hk & Hq & Hc & _); auto 10.
    + destruct (deref (m_proc m) (Some (th_block th)) (th_index th))
        as [[[b0 qs] q] |]; simpl; [| repeat split].
      destruct (func (task q) =? 0); simpl; repeat split.
    + destruct (cas_wait_at (m_proc m) (Some (th_block th)) (th_index th)
                  RUNNING DONE t) as [[p' [t' |]] |] eqn:H; simpl;
        try (repeat split; fail);
        destruct (cas_wait_at_frame _ _ _ _ _ _ _ _ H)
          as (Ht & Hp & Hk & Hq & Hc & _); auto 10.
Qed.




(** ** The lock guards the task *)

(** What the invariant of a round says of a worker about to call its task,
    and of the pool when the driver is about to submit. *)
Lemma inv_discipline f n b final ph sigma m :
  inv f n b final ph sigma m ->
  (forall tid th,
      threads (m_proc m) !! tid = Some th ->
      th_pc th = Invoke ->
      th_block th = b /\ th_index th = Z.of_nat tid /\
      lock_at (m_proc m) b tid = Some RUNNING /\
      adding m = false) /\
  (adding m = true ->
   forall j, (j < n)%nat ->
     lock_at (m_proc m) b j = Some IDLE /\
     exists th t, threads (m_proc m) !! j = Some th /\ th_pc th = AwaitReady t).
Proof.
  intros [Hfault Hcas Hths Hst Hph (qs & pv & Hpool & Htasks & Hslots)].
  assert (Hlock : forall j, lock_at (m_proc m) b j = lock <$> qs !! j).
  { intros j. unfold lock_at. rewrite (pool_heap _ _ _ _ _ Hpool). reflexivity. }
  split.
  - intros tid th Hth Hpc.
    assert (Hlt : (tid < n)%nat).
    { apply lookup_lt_Some in Hth. lia. }
    destruct (lookup_lt_is_Some_2 sigma tid) as [s Hs]; [lia |].
    destruct (Hslots tid s Hs) as [Ha (q & c & Hq & Hth' & Hl & Hc & _)].
    rewrite Hth in Hth'. injection Hth' as ->. simpl in Hpc. subst c.
    assert (s = Claimed) by (destruct s; simpl in Hc; congruence). subst s.
    simpl. split; [reflexivity |]. split; [reflexivity |].
    split; [rewrite Hlock, Hq; simpl; f_equal; exact Hl |].
    unfold adding.
    destruct ph as [rest | i | | i |]; simpl in Hph, Ha.
    + discriminate.
    + destruct Hph as (_ & _ & t & ->). reflexivity.
    + destruct Hph as [-> ->]. reflexivity.
    + destruct Hph as (_ & _ & t & ->). reflexivity.
    + discriminate.
  - intros Hadd j Hj.
    assert (Hph' : exists rest, ph = PAdd rest).
    { unfold adding in Hadd.
      destruct ph as [rest | i | | i |]; simpl in Hph.
      - eauto.
      - destruct Hph as (_ & _ & t & E). rewrite E in Hadd. discriminate.
      - destruct Hph as [E1 E2]. rewrite E1, E2 in Hadd. discriminate.
      - destruct Hph as (_ & _ & t & E). rewrite E in Hadd. discriminate.
      - destruct Hph as [E1 E2]. rewrite E1, E2 in Hadd. discriminate. }
    destruct Hph' as [rest ->].
    destruct (lookup_lt_is_Some_2 sigma j) as [s Hs]; [lia |].
    destruct (Hslots j s Hs) as [Ha (q & c & Hq & Hth & Hl & Hc & _)].
    simpl in Ha. destruct s; try discriminate.
    split; [rewrite Hlock, Hq; simpl; f_equal; exact Hl |].
    destruct c as [t | | t]; simpl in Hc; try discriminate.
    eexists. exists t. split; [exact Hth | reflexivity].
Qed.

(** X9.  The lock guards the task.  At every point of a round started on a
    pool at rest, under any schedule and as long as nothing has faulted: a
    worker that is about to call its task works on its own slot, holds it
    Running, and the driver is not about to submit; and whenever the driver
    is about to call [add_task], every lock is Idle and every worker waits
    for Ready.  So the task of a slot is written only while the slot is
    Idle and read only while it is Running. *)
Theorem lock_guards_task :
  forall (f : cas_function_t) (n : nat) (b : N) (qs : list Queue)
         (pv : nat) (p : proc) (ts : list Task) (sched : list nat),
    cas_valid f ->
    quiescent f n b qs pv p ->
    m_fault (run sched (start p ts)) = false ->
    (forall tid th,
        threads (m_proc (run sched (start p ts))) !! tid = Some th ->
        th_pc th = Invoke ->
        th_block th = b /\ th_index th = Z.of_nat tid /\
        lock_at (m_proc (run sched (start p ts))) b tid = Some RUNNING /\
        adding (run sched (start p ts)) = false) /\
    (adding (run sched (start p ts)) = true ->
     forall j, (j < n)%nat ->
       lock_at (m_proc (run sched (start p ts))) b j = Some IDLE /\
       exists th t,
         threads (m_proc (run sched (start p ts))) !! j = Some th /\
         th_pc th = AwaitReady t).
Proof.
  intros f n b qs pv p ts sched Hf Hq Hfault.
  pose proof (start_inv f n b qs pv p ts Hq) as Hstart.
  destruct (run_safe f Hf n b _ sched _
              (or_intror (ex_intro _ _ (ex_intro _ _ Hstart))))
    as [Hbad | (ph & sigma & Hinv)].
  - congruence.
  - exact (inv_discipline _ _ _ _ _ _ _ Hinv).
Qed.

(** The round of two tasks on the pool of two slots, after the driver has
    released both slots and the first worker has claimed its own. *)
Lemma lock_guards_task_witness :
  (forall tid th,
      threads (m_proc (run [0; 0; 0; 0; 1]%nat
                 (start launched_2 [sample_task 1; sample_task 2]))) !! tid
      = Some th ->
      th_pc th = Invoke ->
      th_block th = 1%N /\ th_index th = Z.of_nat tid /\
      lock_at (m_proc (run [0; 0; 0; 0; 1]%nat
                 (start launched_2 [sample_task 1; sample_task 2]))) 1%N tid
      = Some RUNNING /\
      adding (run [0; 0; 0; 0; 1]%nat
                (start launched_2 [sample_task 1; sample_task 2])) = false) /\
  (adding (run [0; 0; 0; 0; 1]%nat
             (start launched_2 [sample_task 1; sample_task 2])) = true ->
   forall j, (j < 2)%nat ->
     lock_at (m_proc (run [0; 0; 0; 0; 1]%nat
                (start launched_2 [sample_task 1; sample_task 2]))) 1%N j
     = Some IDLE /\
     exists th t,
       threads (m_proc (run [0; 0; 0; 0; 1]%nat
                  (start launched_2 [sample_task 1; sample_task 2]))) !! j
       = Some th /\
       th_pc th = AwaitReady t).
Proof.
  apply (lock_guards_task cmpxchg 2 1%N [zero_Queue; zero_Queue] 0 launched_2
           [sample_task 1; sample_task 2] [0; 0; 0; 0; 1]%nat).
  - exact cmpxchg_valid.
  - exact launched_2_quiescent.
  - reflexivity.
Defined.

(** In that state the first worker is indeed about to call its task. *)
Example first_worker_claimed :
  th_pc <$> threads (m_proc (run [0; 0; 0; 0; 1]%nat
              (start launched_2 [sample_task 1; sample_task 2]))) !! 0%nat
  = Some Invoke.
Proof. vm_compute. reflexivity. Qed.

(** ** One round after another *)

Lemma run_faulted sched : forall m,
  m_fault m = true -> m_fault (run sched m) = true.
Proof.
  induction sched as [| who sched IH]; intros m H; simpl.
  - assumption.
  - apply IH. unfold step. rewrite H. assumption.
Qed.

(** A step of a round on track moves the cursor once if it is a
    submission, and not at all otherwise. *)
Lemma step_cursor f n b final ph sigma m pv k who :
  inv f n b final ph sigma m ->
  cursor_ok n pv k m ->
  m_fault (step who m) = false ->
  cursor_ok n pv k (step who m).
Proof.
  intros Hinv [Hle Hpv] Hfault.
  destruct (adding m) eqn:Hadd.
  - destruct who as [| tid].
    + destruct Hinv as [Hf0 _ _ _ _ (qs & pv' & Hpool & _)].
      unfold step in *. rewrite Hf0 in *.
      unfold adding in Hadd. unfold driver_step in *.
      destruct (m_pc m); try discriminate.
      destruct (m_prog m) as [| [t | |] rest] eqn:E; try discriminate.
      destruct (add_task_pool n b qs pv' (m_proc m) t Hpool) as (q & Hq & Hadd').
      rewrite Hadd' in *. unfold cursor_ok. simpl.
      unfold adds_left in Hle, Hpv. simpl in Hle, Hpv.
      fold (adds_left rest) in Hle, Hpv.
      split; [lia |].
      rewrite (pool_pivot _ _ _ _ _ Hpool) in Hpv.
      apply Nat2Z.inj in Hpv. subst pv'.
      replace (k - adds_left rest)%nat with (S (k - S (adds_left rest))) by lia.
      reflexivity.
    + destruct (step_frame (S tid) m (or_introl (Nat.neq_succ_0 tid)))
        as (_ & Hp & _ & _ & _ & Ha).
      unfold cursor_ok. rewrite Hp, Ha. split; assumption.
  - destruct (step_frame who m (or_intror Hadd)) as (_ & Hp & _ & _ & _ & Ha).
    unfold cursor_ok. rewrite Hp, Ha. split; assumption.
Qed.

Lemma run_cursor f (Hf : cas_valid f) n b final pv k sched : forall m,
  on_track f n b final m ->
  cursor_ok n pv k m ->
  m_fault (run sched m) = false ->
  cursor_ok n pv k (run sched m).
Proof.
  induction sched as [| who sched IH]; intros m Htrack Hcur Hfault; simpl in *.
  - assumption.
  - destruct Htrack as (ph & sigma & Hinv).
    destruct (step_safe f Hf n b final who m
                (or_intror (ex_intro _ _ (ex_intro _ _ Hinv))))
      as [Hbad | Htrack'].
    + rewrite (run_faulted sched _ Hbad) in Hfault. discriminate.
    + apply IH; [exact Htrack' | | assumption].
      apply (step_cursor f n b final ph sigma); try assumption.
      destruct Htrack' as (ph' & sigma' & Hinv').
      apply (inv_fault _ _ _ _ _ _ _ Hinv').
Qed.

Lemma adds_left_round ts : adds_left (round ts) = length ts.
Proof.
  unfold adds_left, round.
  induction ts as [| t ts IH]; simpl; [reflexivity | f_equal; exact IH].
Qed.

(** When [synchronize] has returned the pool is at rest again, but for the
    trace. *)
Lemma done_at_rest f n b final sigma m :
  inv f n b final PDone sigma m ->
  exists qs pv,
    quiescent f n b qs pv (set_calls [] (m_proc m)) /\
    task <$> qs = final /\ callable final.
Proof.
  intros [Hfault Hcas Hths Hst Hph (qs & pv & Hpool & Htasks & Hslots)].
  simpl in Htasks.
  exists qs, pv. split; [| split].
  - constructor; simpl; try assumption.
    + destruct Hpool as [Pq Ph Pl Pc Pi Pp Pv].
      constructor; simpl; assumption.
    + reflexivity.
    + intros j Hj.
      destruct (lookup_lt_is_Some_2 sigma j) as [s Hs]; [lia |].
      destruct (Hslots j s Hs) as [Ha (q & c & Hq & Hth & Hl & Hc & _)].
      simpl in Ha. destruct s; try discriminate.
      destruct c as [t | | t]; simpl in Hc; try discriminate.
      exists q, t. split; [assumption |]. split; assumption.
  - assumption.
  - intros t Ht. rewrite <- Htasks in Ht.
    apply list_elem_of_lookup_1 in Ht. destruct Ht as [j Hj].
    rewrite list_lookup_fmap in Hj.
    destruct (qs !! j) as [q |] eqn:Hq; [| discriminate].
    injection Hj as <-.
    destruct (lookup_lt_is_Some_2 sigma j) as [s Hs].
    { apply lookup_lt_Some in Hq. rewrite (pool_length _ _ _ _ _ Hpool) in Hq. lia. }
    destruct (Hslots j s Hs) as [Ha (q' & c & Hq' & _ & _ & _ & _ & Hfn)].
    simpl in Ha. destruct s; try discriminate.
    assert (q' = q) by congruence. subst q'.
    apply Hfn. reflexivity.
Qed.

(** After a round that has returned: the pool at rest, the cursor advanced
    by the number of submissions, every slot with a task that can be
    called. *)
Lemma round_at_rest f (Hf : cas_valid f) n b qs pv p ts sched :
  quiescent f n b qs pv p ->
  returned (run sched (start p ts)) = true ->
  exists qs',
    quiescent f n b qs' ((pv + length ts) mod n)
      (set_calls [] (m_proc (run sched (start p ts)))) /\
    task <$> qs' = fill n pv ts (task <$> qs) /\
    callable (task <$> qs').
Proof.
  intros Hq Hret.
  pose proof (start_inv f n b qs pv p ts Hq) as Hstart.
  assert (Hfault : m_fault (run sched (start p ts)) = false).
  { unfold returned in Hret.
    destruct (m_fault (run sched (start p ts))); [discriminate | reflexivity]. }
  destruct (run_safe f Hf n b _ sched _
              (or_intror (ex_intro _ _ (ex_intro _ _ Hstart))))
    as [Hbad | (ph & sigma & Hinv)]; [congruence |].
  pose proof (returned_done f n b _ ph sigma _ Hinv Hret) as ->.
  assert (Hcur : cursor_ok n pv (length ts) (run sched (start p ts))).
  { apply (run_cursor f Hf n b (fill n pv ts (task <$> qs))); try assumption.
    - eexists _, _. exact Hstart.
    - unfold cursor_ok. simpl. rewrite adds_left_round.
      split; [lia |]. rewrite Nat.sub_diag. simpl.
      apply (pool_pivot _ _ _ _ _ (q_pool _ _ _ _ _ _ Hq)). }
  destruct Hcur as [_ Hcur].
  pose proof (inv_phase _ _ _ _ _ _ _ Hinv) as Hph. simpl in Hph.
  destruct Hph as [_ Hprog]. rewrite Hprog in Hcur.
  unfold adds_left in Hcur. simpl in Hcur. rewrite Nat.sub_0_r in Hcur.
  rewrite iter_next_pivot in Hcur
    by apply (pool_cursor _ _ _ _ _ (q_pool _ _ _ _ _ _ Hq)).
  destruct (done_at_rest f n b _ sigma _ Hinv) as (qs' & pv' & Hq' & Ht' & Hc').
  pose proof (pool_pivot _ _ _ _ _ (q_pool _ _ _ _ _ _ Hq')) as Hpv'.
  simpl in Hpv'. rewrite Hcur in Hpv'. apply Nat2Z.inj in Hpv'. subst pv'.
  exists qs'. split; [exact Hq' |]. split; [exact Ht' |].
  rewrite Ht'. exact Hc'.
Qed.

Lemma fill_callable n ts : forall pv (cur : list Task),
  callable cur -> callable ts -> callable (fill n pv ts cur).
Proof.
  induction ts as [| t ts IH]; intros pv cur Hcur Hts; simpl.
  - assumption.
  - apply IH.
    + intros x Hx. apply list_elem_of_lookup_1 in Hx. destruct Hx as [j Hj].
      apply list_lookup_insert_Some in Hj.
      destruct Hj as [(_ & <- & _) | [_ Hj]].
      * apply Hts. apply list_elem_of_here.
      * apply Hcur. apply (list_elem_of_lookup_2 _ j). assumption.
    + intros x Hx. apply Hts. apply list_elem_of_further. assumption.
Qed.

(** X8.  One round after another.  When a round of any number of
    submissions has returned from [synchronize], the pool is at rest again:
    every lock Idle, every worker waiting for Ready, the cursor advanced by
    the number of submissions, and every slot holding a task that has just
    been called.  A second round needs no more than tasks that can be
    called, however few: under every fair schedule of [k2 + 4 + 5 n]
    stretches it returns, and when it has, the worker of every slot has
    called the task its slot holds exactly once -- in a slot the second
    round did not reach, that is the task of the first round, called
    again. *)
Theorem second_round_calls_stale_tasks_again :
  forall (f : cas_function_t) (n : nat) (b : N) (qs : list Queue)
         (pv : nat) (p : proc) (ts : list Task) (sched : list nat)
         (ts2 : list Task),
    cas_valid f ->
    quiescent f n b qs pv p ->
    returned (run sched (start p ts)) = true ->
    callable ts2 ->
    exists qs1,
      quiescent f n b qs1 ((pv + length ts) mod n)
        (set_calls [] (m_proc (run sched (start p ts)))) /\
      task <$> qs1 = fill n pv ts (task <$> qs) /\
      (forall blocks,
          Forall (covers n) blocks ->
          (round_bound n (length ts2) <= length blocks)%nat ->
          returned (run (concat blocks)
                      (start (set_calls [] (m_proc (run sched (start p ts)))) ts2))
          = true) /\
      (forall sched2,
          returned (run sched2
                      (start (set_calls [] (m_proc (run sched (start p ts)))) ts2))
          = true ->
          (forall (j : nat) (t : Task),
              fill n ((pv + length ts) mod n) ts2 (task <$> qs1) !! j = Some t ->
              calls_of (Z.of_nat j)
                (calls (m_proc (run sched2
                   (start (set_calls [] (m_proc (run sched (start p ts)))) ts2))))
              = [t]) /\
          (forall (j : nat) (q : Queue),
              qs1 !! j = Some q ->
              (forall i, (i < length ts2)%nat ->
                         (((pv + length ts) mod n + i) mod n)%nat <> j) ->
              calls_of (Z.of_nat j)
                (calls (m_proc (run sched2
                   (start (set_calls [] (m_proc (run sched (start p ts)))) ts2))))
              = [task q])).
Proof.
  intros f n b qs pv p ts sched ts2 Hf Hq Hret Hts2.
  destruct (round_at_rest f Hf n b qs pv p ts sched Hq Hret)
    as (qs1 & Hq1 & Ht1 & Hc1).
  exists qs1. split; [exact Hq1 |]. split; [exact Ht1 |].
  set (p1 := set_calls [] (m_proc (run sched (start p ts)))) in *.
  set (pv1 := ((pv + length ts) mod n)%nat) in *.
  pose proof (start_inv f n b qs1 pv1 p1 ts2 Hq1) as Hstart.
  assert (Hcall : callable (fill n pv1 ts2 (task <$> qs1)))
    by (apply fill_callable; assumption).
  split.
  - intros blocks Hfair Hbound.
    apply (run_fair f Hf n b _ blocks _ _ _ Hcall Hstart Hfair).
    rewrite remaining_start. exact Hbound.
  - intros sched2 Hret2.
    destruct (run_safe f Hf n b _ sched2 _
                (or_intror (ex_intro _ _ (ex_intro _ _ Hstart))))
      as [Hbad | (ph & sigma & Hinv)].
    { unfold returned in Hret2. rewrite Hbad in Hret2. discriminate. }
    pose proof (returned_done f n b _ ph sigma _ Hinv Hret2) as ->.
    destruct (done_post f n b _ sigma _ Hinv) as (_ & _ & _ & Hcalls).
    split.
    + intros j t Hj. apply (Hcalls j t Hj).
    + intros j q Hj Hfar.
      apply (Hcalls j (task q)).
      rewrite fill_frame.
      * rewrite list_lookup_fmap, Hj. reflexivity.
      * apply (pool_cursor _ _ _ _ _ (q_pool _ _ _ _ _ _ Hq1)).
      * exact Hfar.
Qed.

(** Two tasks, then one, on the pool of two slots: the second round stores
    its task in the first slot again and leaves the second slot alone. *)
Lemma second_round_calls_stale_tasks_again_witness :
  exists qs1,
    quiescent cmpxchg 2 1%N qs1
      ((0 + length [sample_task 1; sample_task 2]) mod 2)
      (set_calls [] (m_proc (run
         [0; 0; 0; 0; 0; 0; 2; 2; 1; 1; 1; 2; 0; 0; 0; 0; 0]%nat
         (start launched_2 [sample_task 1; sample_task 2])))) /\
    task <$> qs1
    = fill 2 0 [sample_task 1; sample_task 2]
        (task <$> [zero_Queue; zero_Queue]) /\
    (forall blocks,
        Forall (covers 2) blocks ->
        (round_bound 2 (length [sample_task 3]) <= length blocks)%nat ->
        returned (run (concat blocks)
          (start (set_calls [] (m_proc (run
             [0; 0; 0; 0; 0; 0; 2; 2; 1; 1; 1; 2; 0; 0; 0; 0; 0]%nat
             (start launched_2 [sample_task 1; sample_task 2]))))
             [sample_task 3]))
        = true) /\
    (forall sched2,
        returned (run sched2
          (start (set_calls [] (m_proc (run
             [0; 0; 0; 0; 0; 0; 2; 2; 1; 1; 1; 2; 0; 0; 0; 0; 0]%nat
             (start launched_2 [sample_task 1; sample_task 2]))))
             [sample_task 3]))
        = true ->
        (forall (j : nat) (t : Task),
            fill 2 ((0 + length [sample_task 1; sample_task 2]) mod 2)
              [sample_task 3] (task <$> qs1) !! j = Some t ->
            calls_of (Z.of_nat j)
              (calls (m_proc (run sched2
                 (start (set_calls [] (m_proc (run
                    [0; 0; 0; 0; 0; 0; 2; 2; 1; 1; 1; 2; 0; 0; 0; 0; 0]%nat
                    (start launched_2 [sample_task 1; sample_task 2]))))
                    [sample_task 3]))))
            = [t]) /\
        (forall (j : nat) (q : Queue),
            qs1 !! j = Some q ->
            (forall i, (i < length [sample_task 3])%nat ->
               (((0 + length [sample_task 1; sample_task 2]) mod 2 + i) mod 2)%nat
               <> j) ->
            calls_of (Z.of_nat j)
              (calls (m_proc (run sched2
                 (start (set_calls [] (m_proc (run
                    [0; 0; 0; 0; 0; 0; 2; 2; 1; 1; 1; 2; 0; 0; 0; 0; 0]%nat
                    (start launched_2 [sample_task 1; sample_task 2]))))
                    [sample_task 3]))))
            = [task q])).
Proof.
  apply (second_round_calls_stale_tasks_again cmpxchg 2 1%N
           [zero_Queue; zero_Queue] 0 launched_2
           [sample_task 1; sample_task 2]
           [0; 0; 0; 0; 0; 0; 2; 2; 1; 1; 1; 2; 0; 0; 0; 0; 0]%nat
           [sample_task 3]).
  - exact cmpxchg_valid.
  - exact launched_2_quiescent.
  - reflexivity.
  - intros t Ht. apply list_elem_of_singleton in Ht. subst t. simpl. lia.
Defined.

(** The two rounds scheduled: in the second the worker of the second slot
    calls the task of the first round again. *)
Example stale_task_called_again :
  let p1 := set_calls [] (m_proc (run
              [0; 0; 0; 0; 0; 0; 2; 2; 1; 1; 1; 2; 0; 0; 0; 0; 0]%nat
              (start launched_2 [sample_task 1; sample_task 2]))) in
  let m := run [0; 0; 0; 0; 0; 2; 2; 2; 1; 1; 1; 0; 0; 0; 0; 0]%nat
             (start p1 [sample_task 3]) in
  returned m = true /\
  calls (m_proc m) = [(1, sample_task 2); (0, sample_task 3)] /\
  queue_pivot (m_proc m) = 1.
Proof. vm_compute. repeat split. Qed.


End WorkQueueProps.

(** * Properties of the hash-caching wrapper *)

Module HashWrapProps.
Import HashWrap.

(** The first hash of a wrapper whose cache is empty runs the hash of the
    wrapped object and stores what it yields. *)
Lemma hash_uncached fuel obj v rc h rc' s :
  objects s !! obj = Some (Wrapper rc v (-1)) ->
  objects s !! v = Some (Other rc' h) ->
  PyObject_Hash (S (S fuel)) obj s
  = Some (Ok (h, mkInterp (<[obj := Wrapper rc v h]> (objects s))
                          (hashed s ++ [v]))).
Proof.
  intros Ho Hv. cbn [PyObject_Hash]. rewrite Ho.
  unfold wrapper_hash. rewrite Ho. simpl. rewrite Hv. simpl.
  rewrite Ho. reflexivity.
Qed.

(** A hash of a wrapper whose cache is filled returns the cache and runs
    nothing. *)
Lemma hash_cached fuel obj v rc h s :
  objects s !! obj = Some (Wrapper rc v h) -> h <> -1 ->
  PyObject_Hash (S fuel) obj s = Some (Ok (h, s)).
Proof.
  intros Ho Hh. cbn [PyObject_Hash]. rewrite Ho.
  unfold wrapper_hash. rewrite Ho.
  destruct (Z.eqb_spec h (-1)); [contradiction | reflexivity].
Qed.

Lemma hash_times_cached n fuel obj v rc h s :
  objects s !! obj = Some (Wrapper rc v h) -> h <> -1 ->
  hash_times n (S fuel) obj s = Some (Ok (replicate n h, s)).
Proof.
  intros Ho Hh. induction n as [| n IH].
  - reflexivity.
  - cbn [hash_times]. rewrite (hash_cached fuel obj v rc h s Ho Hh), IH.
    reflexivity.
Qed.

(** When the hash of the wrapped object fails, nothing is cached: every
    hash of the wrapper runs it again. *)
Lemma hash_times_failing n fuel obj v rc rc' : forall s,
  objects s !! obj = Some (Wrapper rc v (-1)) ->
  objects s !! v = Some (Other rc' (-1)) ->
  exists s',
    hash_times n (S (S fuel)) obj s = Some (Ok (replicate n (-1), s')) /\
    objects s' = objects s /\
    hashed s' = hashed s ++ replicate n v.
Proof.
  induction n as [| n IH]; intros s Ho Hv.
  - exists s. simpl. rewrite app_nil_r. auto.
  - cbn [hash_times].
    rewrite (hash_uncached fuel obj v rc (-1) rc' s Ho Hv).
    rewrite (insert_id _ _ _ Ho).
    destruct (IH (mkInterp (objects s) (hashed s ++ [v])) Ho Hv)
      as (s' & -> & Hobj & Hlog).
    exists s'. split; [reflexivity |]. split; [exact Hobj |].
    rewrite Hlog. simpl. rewrite <- app_assoc. reflexivity.
Qed.

Lemma hash_runs_replicate v n s s' :
  hashed s' = hashed s ++ replicate n v ->
  hash_runs v s' = (hash_runs v s + n)%nat.
Proof.
  unfold hash_runs. intros ->. rewrite List.filter_app, length_app.
  f_equal. induction n as [| n IH]; simpl.
  - reflexivity.
  - rewrite N.eqb_refl. simpl. rewrite IH. reflexivity.
Qed.





(** ** Wrapping a wrapper *)

Lemma check_after_incref s v w :
  WRAPPER_CHECK (Py_INCREF v s) w = WRAPPER_CHECK s w.
Proof.
  unfold WRAPPER_CHECK, Py_INCREF. simpl.
  destruct (decide (v = w)) as [-> | Hne].
  - rewrite lookup_alter_eq. destruct (objects s !! w) as [[] |]; reflexivity.
  - rewrite lookup_alter_ne by assumption. reflexivity.
Qed.

Lemma make_wrapper_on_wrapper alloc s w :
  WRAPPER_CHECK s w = true ->
  hashwrap_make_wrapper alloc w s = Ok (Some w, Py_INCREF w s).
Proof.
  unfold WRAPPER_CHECK, hashwrap_make_wrapper.
  destruct (objects s !! w) as [[] |]; intros H; try discriminate.
  reflexivity.
Qed.

Lemma make_wrapper_result alloc s v w s1 :
  hashwrap_make_wrapper alloc v s = Ok (Some w, s1) ->
  WRAPPER_CHECK s1 w = true.
Proof.
  unfold hashwrap_make_wrapper.
  destruct (objects s !! v) as [[rc x h | rc h] |] eqn:Hv; try discriminate.
  - intros H. injection H as <- <-.
    rewrite check_after_incref. unfold WRAPPER_CHECK. rewrite Hv. reflexivity.
  - destruct alloc as [obj |]; [| discriminate].
    intros H. injection H as <- <-.
    rewrite check_after_incref. unfold WRAPPER_CHECK. simpl.
    rewrite lookup_insert_eq. reflexivity.
Qed.

Lemma flat_incref s v : flat s -> flat (Py_INCREF v s).
Proof.
  intros Hflat o rc w h. unfold Py_INCREF. simpl.
  intros Ho.
  assert (Ho' : exists rc0, objects s !! o = Some (Wrapper rc0 w h)).
  { destruct (decide (v = o)) as [-> | Hne].
    - rewrite lookup_alter_eq in Ho.
      destruct (objects s !! o) as [[] |]; simpl in Ho; try discriminate.
      injection Ho as _ <- <-. eauto.
    - rewrite lookup_alter_ne in Ho by assumption. eauto. }
  destruct Ho' as [rc0 Ho'].
  destruct (Hflat o rc0 w h Ho') as (rc' & h' & Hw).
  destruct (decide (v = w)) as [-> | Hne].
  - rewrite lookup_alter_eq, Hw. simpl. eauto.
  - rewrite lookup_alter_ne by assumption. eauto.
Qed.

Lemma flat_make_wrapper alloc s v w s1 :
  flat s ->
  (forall o, alloc = Some o -> objects s !! o = None) ->
  hashwrap_make_wrapper alloc v s = Ok (w, s1) ->
  flat s1.
Proof.
  intros Hflat Hfresh. unfold hashwrap_make_wrapper.
  destruct (objects s !! v) as [[rc x h | rc h] |] eqn:Hv; try discriminate.
  - intros H. injection H as <- <-. apply flat_incref. assumption.
  - destruct alloc as [obj |].
    + intros H. injection H as <- <-. apply flat_incref.
      specialize (Hfresh obj eq_refl).
      intros o rc0 w0 h0. simpl. intros Ho.
      destruct (decide (obj = o)) as [-> | Hne].
      * rewrite lookup_insert_eq in Ho. injection Ho as _ <- _.
        rewrite lookup_insert_ne by congruence. eauto.
      * rewrite lookup_insert_ne in Ho by assumption.
        destruct (Hflat o rc0 w0 h0 Ho) as (rc' & h' & Hw).
        rewrite lookup_insert_ne by congruence. eauto.
    + intros H. injection H as <- <-. assumption.
Qed.

(** C10.  [hashwrap_make_wrapper] applied to what it has returned returns
    that very object again, whatever the allocator would have answered:
    no second wrapper is made, only the reference count of the first
    grows.  Starting from an interpreter in which no wrapper wraps a
    wrapper, with an allocator that hands out fresh addresses, neither
    call creates a wrapper around a wrapper. *)
Theorem wrap_is_idempotent :
  forall (s s1 : interp) (alloc alloc' : option N) (v w : N),
    hashwrap_make_wrapper alloc v s = Ok (Some w, s1) ->
    WRAPPER_CHECK s1 w = true /\
    hashwrap_make_wrapper alloc' w s1 = Ok (Some w, Py_INCREF w s1) /\
    objects (Py_INCREF w s1) = alter incref w (objects s1) /\
    (flat s ->
     (forall o, alloc = Some o -> objects s !! o = None) ->
     flat s1 /\ flat (Py_INCREF w s1)).
Proof.
  intros s s1 alloc alloc' v w H.
  pose proof (make_wrapper_result alloc s v w s1 H) as Hw.
  split; [exact Hw |].
  split; [apply make_wrapper_on_wrapper; exact Hw |].
  split; [reflexivity |].
  intros Hflat Hfresh.
  pose proof (flat_make_wrapper alloc s v (Some w) s1 Hflat Hfresh H) as H1.
  split; [exact H1 | apply flat_incref; exact H1].
Qed.

Lemma sample_flat : flat sample.
Proof.
  intros o rc w h. unfold sample. simpl. intros Ho.
  destruct (decide (o = 5%N)) as [-> | H5];
    [rewrite lookup_insert_eq in Ho; discriminate |].
  rewrite lookup_insert_ne in Ho by congruence.
  destruct (decide (o = 7%N)) as [-> | H7];
    [rewrite lookup_insert_eq in Ho; discriminate |].
  rewrite lookup_insert_ne in Ho by congruence.
  rewrite lookup_empty in Ho. discriminate.
Qed.

(** Wrapping the hashable object of [sample], then wrapping the wrapper. *)
Lemma wrap_is_idempotent_witness :
  WRAPPER_CHECK (wrapped_at 9 5) 9%N = true /\
  hashwrap_make_wrapper (Some 11%N) 9%N (wrapped_at 9 5)
  = Ok (Some 9%N, Py_INCREF 9%N (wrapped_at 9 5)) /\
  objects (Py_INCREF 9%N (wrapped_at 9 5)) = alter incref 9%N (objects (wrapped_at 9 5)) /\
  (flat sample ->
   (forall o, Some 9%N = Some o -> objects sample !! o = None) ->
   flat (wrapped_at 9 5) /\ flat (Py_INCREF 9%N (wrapped_at 9 5))).
Proof.
  apply (wrap_is_idempotent sample (wrapped_at 9 5) (Some 9%N) (Some 11%N) 5%N 9%N).
  reflexivity.
Defined.


(** ** Comparison *)

(** X13.  A comparison never sees a wrapper.  On an interpreter in which
    every wrapper wraps a live object that is not a wrapper -- which
    [hashwrap_make_wrapper] maintains -- [wrapper_richcompare] hands
    [PyObject_RichCompare] the wrapped object of its first argument and
    the second argument unwrapped if it is a wrapper, as it is otherwise:
    two live objects that are not wrappers, so the comparison does not come
    back to [wrapper_richcompare], and a wrapper compares with a wrapper as
    it does with the bare object. *)
Theorem richcompare_unwraps_both_sides :
  forall (R : Type) (cmp : N -> N -> Z -> interp -> R)
         (s : interp) (v w : N) (op : Z),
    flat s ->
    WRAPPER_CHECK s v = true ->
    is_Some (objects s !! w) ->
    wrapper_richcompare cmp v w op s
    = Ok (cmp (unwrap s v) (unwrap s w) op s) /\
    WRAPPER_CHECK s (unwrap s v) = false /\
    WRAPPER_CHECK s (unwrap s w) = false /\
    is_Some (objects s !! unwrap s v) /\
    is_Some (objects s !! unwrap s w) /\
    wrapper_richcompare cmp v (unwrap s w) op s
    = wrapper_richcompare cmp v w op s.
Proof.
  intros R cmp s v w op Hflat Hv [ow Hw].
  unfold WRAPPER_CHECK in Hv.
  destruct (objects s !! v) as [[rcv vw hv | rcv hv] |] eqn:Ev; try discriminate.
  destruct (Hflat v rcv vw hv Ev) as (rc1 & h1 & Hvw).
  assert (Uv : unwrap s v = vw) by (unfold unwrap; rewrite Ev; reflexivity).
  assert (Hw' : exists rc2 h2, objects s !! unwrap s w = Some (Other rc2 h2)).
  { unfold unwrap. rewrite Hw. destruct ow as [rcw ww hw | rcw hw].
    - apply (Hflat w rcw ww hw Hw).
    - rewrite Hw. eauto. }
  destruct Hw' as (rc2 & h2 & Huw).
  rewrite Uv.
  split.
  { unfold wrapper_richcompare, unwrap. rewrite Ev, Hw.
    destruct ow; reflexivity. }
  split; [unfold WRAPPER_CHECK; rewrite Hvw; reflexivity |].
  split; [unfold WRAPPER_CHECK; rewrite Huw; reflexivity |].
  split; [rewrite Hvw; eauto |].
  split; [rewrite Huw; eauto |].
  unfold wrapper_richcompare. rewrite Ev, Huw, Hw.
  unfold unwrap. rewrite Hw. destruct ow; reflexivity.
Qed.

Lemma wrapped_at_flat : flat (wrapped_at 9 5).
Proof.
  apply (flat_make_wrapper (Some 9%N) sample 5%N (Some 9%N) (wrapped_at 9 5)).
  - exact sample_flat.
  - intros o Ho. injection Ho as <-. reflexivity.
  - reflexivity.
Qed.

(** The wrapper of the hashable object of [sample] against the bare
    unhashable one. *)
Lemma richcompare_unwraps_both_sides_witness :
  wrapper_richcompare (fun x y (op : Z) (_ : interp) => (x, y, op)) 9%N 7%N 2
    (wrapped_at 9 5)
  = Ok ((fun x y (op : Z) (_ : interp) => (x, y, op))
          (unwrap (wrapped_at 9 5) 9%N) (unwrap (wrapped_at 9 5) 7%N) 2
          (wrapped_at 9 5)) /\
  WRAPPER_CHECK (wrapped_at 9 5) (unwrap (wrapped_at 9 5) 9%N) = false /\
  WRAPPER_CHECK (wrapped_at 9 5) (unwrap (wrapped_at 9 5) 7%N) = false /\
  is_Some (objects (wrapped_at 9 5) !! unwrap (wrapped_at 9 5) 9%N) /\
  is_Some (objects (wrapped_at 9 5) !! unwrap (wrapped_at 9 5) 7%N) /\
  wrapper_richcompare (fun x y (op : Z) (_ : interp) => (x, y, op)) 9%N
    (unwrap (wrapped_at 9 5) 7%N) 2 (wrapped_at 9 5)
  = wrapper_richcompare (fun x y (op : Z) (_ : interp) => (x, y, op)) 9%N 7%N 2
      (wrapped_at 9 5).
Proof.
  apply (richcompare_unwraps_both_sides _
           (fun x y (op : Z) (_ : interp) => (x, y, op))
           (wrapped_at 9 5) 9%N 7%N 2).
  - exact wrapped_at_flat.
  - reflexivity.
  - eexists. reflexivity.
Defined.

(** A wrapper against itself: the wrapped object against itself. *)
Example wrapper_against_itself :
  wrapper_richcompare (fun x y (op : Z) (_ : interp) => (x, y, op)) 9%N 9%N 2
    (wrapped_at 9 5)
  = Ok (5%N, 5%N, 2).
Proof. reflexivity. Qed.

(** ** Release *)

Lemma refcnt_decref o : ob_refcnt (decref o) = ob_refcnt o - 1.
Proof. destruct o; reflexivity. Qed.

Lemma decref_incref o : decref (incref o) = o.
Proof. destruct o; simpl; f_equal; lia. Qed.

Lemma Py_DECREF_eq fuel v s :
  Py_DECREF (S fuel) v s
  = match objects s !! v with
    | None => Some Fault
    | Some o =>
        let s' := mkInterp (<[v := decref o]> (objects s)) (hashed s) in
        if ob_refcnt (decref o) =? 0 then
          match o with
          | Wrapper _ _ _ => wrapper_dealloc (Py_DECREF fuel) v s'
          | Other _ _ =>
              Some (Ok (mkInterp (delete v (objects s')) (hashed s')))
          end
        else Some (Ok s')
    end.
Proof. reflexivity. Qed.

(** Dropping a reference that is not the last. *)
Lemma decref_live fuel v o s :
  objects s !! v = Some o ->
  ob_refcnt o - 1 <> 0 ->
  Py_DECREF (S fuel) v s
  = Some (Ok (mkInterp (<[v := decref o]> (objects s)) (hashed s))).
Proof.
  intros Hv Hrc. rewrite Py_DECREF_eq, Hv. cbv zeta.
  rewrite refcnt_decref.
  destruct (Z.eqb_spec (ob_refcnt o - 1) 0); [contradiction | reflexivity].
Qed.

(** Dropping the last reference to an object of another type. *)
Lemma decref_last fuel v h s :
  objects s !! v = Some (Other 1 h) ->
  Py_DECREF (S fuel) v s
  = Some (Ok (mkInterp (delete v (<[v := Other 0 h]> (objects s))) (hashed s))).
Proof.
  intros Hv. rewrite Py_DECREF_eq, Hv. reflexivity.
Qed.

(** Dropping the only reference to a wrapper, whose wrapped object has
    others. *)
Lemma release_wrapper fuel o w hc x s :
  objects s !! o = Some (Wrapper 1 w hc) ->
  objects s !! w = Some x ->
  ob_refcnt x - 1 <> 0 ->
  Py_DECREF (S (S fuel)) o s
  = Some (Ok (mkInterp
       (delete o (<[w := decref x]> (<[o := Wrapper 0 w hc]> (objects s))))
       (hashed s))).
Proof.
  intros Ho Hw Hrc.
  assert (Hne : o <> w).
  { intros ->. rewrite Ho in Hw. injection Hw as <-. simpl in Hrc. lia. }
  rewrite Py_DECREF_eq, Ho. cbv zeta.
  change (decref (Wrapper 1 w hc)) with (Wrapper 0 w hc).
  change (ob_refcnt (Wrapper 0 w hc) =? 0) with true. cbv iota.
  unfold wrapper_dealloc. cbn [objects]. rewrite lookup_insert_eq.
  rewrite (decref_live fuel w x); [reflexivity | | assumption].
  cbn [objects]. rewrite lookup_insert_ne by assumption. assumption.
Qed.

(** X14.  Wrapping and releasing leaves no trace.  Whatever the argument,
    a wrapper or not, as long as it is live with a positive count: the
    object [hashwrap_make_wrapper] returns can be released with one
    [Py_DECREF], and the interpreter then holds the objects it held before
    the call, with the counts they had. *)
Theorem wrap_then_release_restores :
  forall (s : interp) (arg o : N) (x : object) (fuel : nat),
    objects s !! arg = Some x ->
    0 < ob_refcnt x ->
    objects s !! o = None ->
    exists r s1 s2,
      hashwrap_make_wrapper (Some o) arg s = Ok (Some r, s1) /\
      Py_DECREF (S (S fuel)) r s1 = Some (Ok s2) /\
      objects s2 = objects s /\
      hashed s2 = hashed s.
Proof.
  intros s arg o x fuel Harg Hrc Ho.
  assert (Hne : arg <> o) by congruence.
  unfold hashwrap_make_wrapper. rewrite Harg.
  destruct x as [rc w h | rc h]; simpl in Hrc.
  - eexists _, _, _. split; [reflexivity |].
    split.
    + apply (decref_live _ arg (Wrapper (rc + 1) w h)).
      * unfold Py_INCREF. simpl. rewrite lookup_alter_eq, Harg. reflexivity.
      * simpl. lia.
    + split; [| reflexivity].
      simpl. apply map_eq. intros k.
      destruct (decide (k = arg)) as [-> | Hk].
      * rewrite lookup_insert_eq, Harg. do 2 f_equal. lia.
      * rewrite lookup_insert_ne, lookup_alter_ne by congruence. reflexivity.
  - eexists _, _, _. split; [reflexivity |].
    split.
    + apply (release_wrapper fuel o arg (-1) (Other (rc + 1) h)).
      * unfold Py_INCREF. simpl.
        rewrite lookup_alter_ne, lookup_insert_eq by assumption. reflexivity.
      * unfold Py_INCREF. simpl.
        rewrite lookup_alter_eq, lookup_insert_ne, Harg by congruence.
        reflexivity.
      * simpl. lia.
    + split; [| reflexivity].
      simpl. apply map_eq. intros k.
      destruct (decide (k = o)) as [-> | Hko].
      * rewrite lookup_delete_eq, Ho. reflexivity.
      * rewrite lookup_delete_ne by congruence.
        destruct (decide (k = arg)) as [-> | Hka].
        -- rewrite lookup_insert_eq, Harg. do 2 f_equal. lia.
        -- rewrite !lookup_insert_ne, lookup_alter_ne, lookup_insert_ne
             by congruence.
           reflexivity.
Qed.

Lemma wrap_then_release_restores_witness :
  exists r s1 s2,
    hashwrap_make_wrapper (Some 9%N) 5%N sample = Ok (Some r, s1) /\
    Py_DECREF (S (S 0)) r s1 = Some (Ok s2) /\
    objects s2 = objects sample /\
    hashed s2 = hashed sample.
Proof.
  apply (wrap_then_release_restores sample 5%N 9%N (Other 1 1234) 0).
  - reflexivity.
  - simpl. lia.
  - reflexivity.
Defined.

(** The hashes of a fresh wrapper: the cache of the wrapper is all that
    changes in the interpreter. *)
Lemma hash_times_fresh n fuel o v rc h s :
  objects s !! o = Some (Wrapper 1 v (-1)) ->
  objects s !! v = Some (Other rc h) ->
  exists s' hc,
    hash_times n (S (S fuel)) o s = Some (Ok (replicate n h, s')) /\
    objects s' = <[o := Wrapper 1 v hc]> (objects s) /\
    hashed s' = hashed s ++ replicate (if h =? -1 then n else Nat.min n 1) v.
Proof.
  intros Ho Hv.
  destruct (Z.eqb_spec h (-1)) as [-> | Hh].
  - destruct (hash_times_failing n fuel o v 1 rc s Ho Hv) as (s' & H1 & H2 & H3).
    exists s', (-1). split; [exact H1 |]. split; [| exact H3].
    rewrite H2. symmetry. apply insert_id. exact Ho.
  - destruct n as [| n].
    + exists s, (-1). split; [reflexivity |]. split.
      * symmetry. apply insert_id. exact Ho.
      * simpl. rewrite app_nil_r. reflexivity.
    + eexists _, h. cbn [hash_times].
      rewrite (hash_uncached fuel o v 1 h rc s Ho Hv).
      rewrite (hash_times_cached n (S fuel) o v 1 h); [| | exact Hh].
      * split; [reflexivity |]. split; [reflexivity |].
        simpl. rewrite Nat.min_0_r. reflexivity.
      * simpl. apply lookup_insert_eq.
Qed.

(** X15.  The life of a wrapper.  An object of another type is wrapped,
    the wrapper hashed [n] times and released.  Every hash returns the
    hash of the object; the interpreter ends with the objects and the
    counts it began with; and the hash of the object itself has run once
    if [n > 0] and it succeeded, [n] times if it failed. *)
Theorem wrapper_lifecycle :
  forall (s : interp) (arg o : N) (rc h : Z) (fuel n : nat),
    objects s !! arg = Some (Other rc h) ->
    0 < rc ->
    objects s !! o = None ->
    exists s1 s' s2,
      hashwrap_make_wrapper (Some o) arg s = Ok (Some o, s1) /\
      hash_times n (S (S fuel)) o s1 = Some (Ok (replicate n h, s')) /\
      Py_DECREF (S (S fuel)) o s' = Some (Ok s2) /\
      objects s2 = objects s /\
      hash_runs arg s2
      = (hash_runs arg s + (if (h =? -1)%Z then n else Nat.min n 1))%nat.
Proof.
  intros s arg o rc h fuel n Harg Hrc Ho.
  assert (Hne : arg <> o) by congruence.
  unfold hashwrap_make_wrapper. rewrite Harg.
  set (s1 := Py_INCREF arg
               (mkInterp (<[o := Wrapper 1 arg (-1)]> (objects s)) (hashed s))).
  assert (H1o : objects s1 !! o = Some (Wrapper 1 arg (-1))).
  { unfold s1, Py_INCREF. simpl.
    rewrite lookup_alter_ne, lookup_insert_eq by assumption. reflexivity. }
  assert (H1a : objects s1 !! arg = Some (Other (rc + 1) h)).
  { unfold s1, Py_INCREF. simpl.
    rewrite lookup_alter_eq, lookup_insert_ne, Harg by congruence. reflexivity. }
  destruct (hash_times_fresh n fuel o arg (rc + 1) h s1 H1o H1a)
    as (s' & hc & Hhash & Hobj & Hlog).
  exists s1, s'. eexists. split; [reflexivity |]. split; [exact Hhash |].
  split.
  - apply (release_wrapper fuel o arg hc (Other (rc + 1) h)).
    + rewrite Hobj. apply lookup_insert_eq.
    + rewrite Hobj, lookup_insert_ne by congruence. exact H1a.
    + simpl. lia.
  - split.
    + simpl. rewrite Hobj. apply map_eq. intros k.
      destruct (decide (k = o)) as [-> | Hko].
      * rewrite lookup_delete_eq, Ho. reflexivity.
      * rewrite lookup_delete_ne by congruence.
        destruct (decide (k = arg)) as [-> | Hka].
        -- rewrite lookup_insert_eq, Harg. do 2 f_equal. lia.
        -- rewrite !lookup_insert_ne by congruence.
           unfold s1, Py_INCREF. simpl.
           rewrite lookup_alter_ne, lookup_insert_ne by congruence.
           reflexivity.
    + apply hash_runs_replicate. simpl. exact Hlog.
Qed.

Lemma wrapper_lifecycle_witness :
  exists s1 s' s2,
    hashwrap_make_wrapper (Some 9%N) 5%N sample = Ok (Some 9%N, s1) /\
    hash_times 3 (S (S 0)) 9%N s1 = Some (Ok (replicate 3 1234, s')) /\
    Py_DECREF (S (S 0)) 9%N s' = Some (Ok s2) /\
    objects s2 = objects sample /\
    hash_runs 5%N s2
    = (hash_runs 5%N sample + (if (1234 =? -1)%Z then 3 else Nat.min 3 1))%nat.
Proof.
  apply (wrapper_lifecycle sample 5%N 9%N 1 1234 0 3).
  - reflexivity.
  - lia.
  - reflexivity.
Defined.

(** Dropping the only reference to a wrapper that holds the only reference
    to its object. *)
Lemma release_wrapper_last fuel o w hc h s :
  objects s !! o = Some (Wrapper 1 w hc) ->
  objects s !! w = Some (Other 1 h) ->
  Py_DECREF (S (S fuel)) o s
  = Some (Ok (mkInterp
       (delete o (delete w (<[w := Other 0 h]>
                              (<[o := Wrapper 0 w hc]> (objects s)))))
       (hashed s))).
Proof.
  intros Ho Hw.
  assert (Hne : o <> w) by congruence.
  rewrite Py_DECREF_eq, Ho. cbv zeta.
  change (decref (Wrapper 1 w hc)) with (Wrapper 0 w hc).
  change (ob_refcnt (Wrapper 0 w hc) =? 0) with true. cbv iota.
  unfold wrapper_dealloc. cbn [objects]. rewrite lookup_insert_eq.
  rewrite (decref_last fuel w h); [reflexivity |].
  cbn [objects]. rewrite lookup_insert_ne by assumption. assumption.
Qed.

(** X16.  A wrapper keeps its object alive.  An object with a single
    reference is wrapped and that reference dropped: the object is still
    live, held by the wrapper alone.  When the wrapper is released in its
    turn, [wrapper_dealloc] drops that last reference and both are gone:
    the interpreter holds what it held at first, less the object. *)
Theorem wrapper_keeps_object_alive :
  forall (s : interp) (arg o : N) (h : Z) (fuel : nat),
    objects s !! arg = Some (Other 1 h) ->
    objects s !! o = None ->
    exists s1 s2 s3,
      hashwrap_make_wrapper (Some o) arg s = Ok (Some o, s1) /\
      Py_DECREF (S fuel) arg s1 = Some (Ok s2) /\
      objects s2 !! arg = Some (Other 1 h) /\
      objects s2 !! o = Some (Wrapper 1 arg (-1)) /\
      Py_DECREF (S (S fuel)) o s2 = Some (Ok s3) /\
      objects s3 = delete arg (objects s) /\
      hashed s3 = hashed s.
Proof.
  intros s arg o h fuel Harg Ho.
  assert (Hne : arg <> o) by congruence.
  unfold hashwrap_make_wrapper. rewrite Harg.
  set (s1 := Py_INCREF arg
               (mkInterp (<[o := Wrapper 1 arg (-1)]> (objects s)) (hashed s))).
  assert (H1o : objects s1 !! o = Some (Wrapper 1 arg (-1))).
  { unfold s1, Py_INCREF. simpl.
    rewrite lookup_alter_ne, lookup_insert_eq by assumption. reflexivity. }
  assert (H1a : objects s1 !! arg = Some (Other (1 + 1) h)).
  { unfold s1, Py_INCREF. simpl.
    rewrite lookup_alter_eq, lookup_insert_ne, Harg by congruence. reflexivity. }
  set (s2 := mkInterp (<[arg := decref (Other (1 + 1) h)]> (objects s1)) (hashed s1)).
  assert (H2a : objects s2 !! arg = Some (Other 1 h)).
  { unfold s2. cbn [objects]. rewrite lookup_insert_eq. reflexivity. }
  assert (H2o : objects s2 !! o = Some (Wrapper 1 arg (-1))).
  { unfold s2. cbn [objects]. rewrite lookup_insert_ne by assumption. exact H1o. }
  exists s1, s2. eexists. split; [reflexivity |].
  split; [apply (decref_live fuel arg _ s1 H1a); simpl; lia |].
  split; [exact H2a |]. split; [exact H2o |].
  split; [apply (release_wrapper_last fuel o arg (-1) h s2 H2o H2a) |].
  split; [| reflexivity].
  cbn [objects]. apply map_eq. intros k.
  destruct (decide (k = o)) as [-> | Hko].
  - rewrite lookup_delete_eq, lookup_delete_ne, Ho by congruence. reflexivity.
  - rewrite lookup_delete_ne by congruence.
    destruct (decide (k = arg)) as [-> | Hka].
    + rewrite !lookup_delete_eq. reflexivity.
    + rewrite !lookup_delete_ne, !lookup_insert_ne by congruence.
      unfold s2. cbn [objects]. rewrite lookup_insert_ne by congruence.
      unfold s1, Py_INCREF. simpl.
      rewrite lookup_alter_ne, lookup_insert_ne by congruence.
      reflexivity.
Qed.

Lemma wrapper_keeps_object_alive_witness :
  exists s1 s2 s3,
    hashwrap_make_wrapper (Some 9%N) 7%N sample = Ok (Some 9%N, s1) /\
    Py_DECREF (S 0) 7%N s1 = Some (Ok s2) /\
    objects s2 !! 7%N = Some (Other 1 (-1)) /\
    objects s2 !! 9%N = Some (Wrapper 1 7%N (-1)) /\
    Py_DECREF (S (S 0)) 9%N s2 = Some (Ok s3) /\
    objects s3 = delete 7%N (objects sample) /\
    hashed s3 = hashed sample.
Proof.
  apply (wrapper_keeps_object_alive sample 7%N 9%N (-1) 0).
  - reflexivity.
  - reflexivity.
Defined.

(** ** Hashing on a flat interpreter *)

Lemma flat_cache s v rc w h :
  flat s ->
  objects s !! v = Some (Wrapper rc w (-1)) ->
  forall log, flat (mkInterp (<[v := Wrapper rc w h]> (objects s)) log).
Proof.
  intros Hflat Hv log o rc0 w0 h0. cbn [objects]. intros Ho.
  assert (Hw0 : exists rc1 h1, objects s !! w0 = Some (Other rc1 h1)).
  { destruct (decide (o = v)) as [-> | Hne].
    - rewrite lookup_insert_eq in Ho. injection Ho as <- <- <-.
      apply (Hflat v rc w (-1) Hv).
    - rewrite lookup_insert_ne in Ho by congruence.
      apply (Hflat o rc0 w0 h0 Ho). }
  destruct Hw0 as (rc1 & h1 & Hw0).
  exists rc1, h1. rewrite lookup_insert_ne by congruence. exact Hw0.
Qed.

(** X17.  On an interpreter in which every wrapper wraps a live object
    that is not a wrapper, the hash of a live object always returns, with
    two levels of calls at most: it does not fault and does not depend on
    the fuel beyond that.  It leaves the interpreter in the same shape,
    changes no reference count, and runs the hash of one object of
    another type at most, that of the object unwrapped. *)
Theorem hash_returns_on_flat :
  forall (s : interp) (v : N),
    flat s ->
    is_Some (objects s !! v) ->
    exists h s',
      (forall fuel, PyObject_Hash (S (S fuel)) v s = Some (Ok (h, s'))) /\
      flat s' /\
      (forall k, ob_refcnt <$> objects s' !! k = ob_refcnt <$> objects s !! k) /\
      (hashed s' = hashed s \/ hashed s' = hashed s ++ [unwrap s v]).
Proof.
  intros s v Hflat [x Hv].
  destruct x as [rc w hc | rc h].
  - destruct (Z.eqb_spec hc (-1)) as [-> | Hhc].
    + destruct (Hflat v rc w (-1) Hv) as (rc' & h' & Hw).
      eexists _, _. split.
      * intros fuel. apply (hash_uncached fuel v w rc h' rc' s Hv Hw).
      * split; [apply flat_cache; assumption |].
        split.
        -- intros k. cbn [objects].
           destruct (decide (k = v)) as [-> | Hk].
           ++ rewrite lookup_insert_eq, Hv. reflexivity.
           ++ rewrite lookup_insert_ne by congruence. reflexivity.
        -- right. unfold unwrap. rewrite Hv. reflexivity.
    + exists hc, s. split.
      * intros fuel. apply (hash_cached (S fuel) v w rc hc s Hv Hhc).
      * split; [assumption |]. split; [reflexivity | left; reflexivity].
  - eexists _, _. split.
    + intros fuel. cbn [PyObject_Hash]. rewrite Hv. reflexivity.
    + split; [exact Hflat |]. split; [reflexivity |].
      right. unfold unwrap. rewrite Hv. reflexivity.
Qed.

Lemma hash_returns_on_flat_witness :
  exists h s',
    (forall fuel, PyObject_Hash (S (S fuel)) 9%N (wrapped_at 9 5)
                  = Some (Ok (h, s'))) /\
    flat s' /\
    (forall k, ob_refcnt <$> objects s' !! k
               = ob_refcnt <$> objects (wrapped_at 9 5) !! k) /\
    (hashed s' = hashed (wrapped_at 9 5) \/
     hashed s' = hashed (wrapped_at 9 5) ++ [unwrap (wrapped_at 9 5) 9%N]).
Proof.
  apply (hash_returns_on_flat (wrapped_at 9 5) 9%N).
  - exact wrapped_at_flat.
  - eexists. reflexivity.
Defined.

End HashWrapProps.

